(** * soslines: drawing on an equirectangular canvas of the sphere

    A shallow embedding of [soslines.py] (the [Canvas] class and the module's
    projection utilities) and the properties its specification states.

    Numbers.  Python floats and NumPy [float64] values are read in three
    ways.  Most of the development reads them as exact rationals ([Q]): the
    arithmetic of the formulas, without rounding.  Where a property depends
    on the rounding (the bounds of [lat2row] and [lon2col], the values that
    the compositor stores), the operations are rounded to binary64 ([b64],
    definitions named [_b64]).  The round trip of the two projections is
    stated over the real numbers (definitions named [_R]).  The [uint8]
    channels of the RGBA buffer are integers ([Z]) in [0, 255].  The
    elementary functions of NumPy ([np.cos], [np.sin], [np.sqrt],
    [np.arctan2]) are not code of the repository: the rational model takes
    them through the interface [NumPy], every general theorem holds for any
    implementation of it, and the concrete evaluations use the rational
    implementation [ref_numpy]; the real model takes the functions of the
    real numbers. *)

From Stdlib Require Import ZArith QArith Qround Qabs Qpower List Bool Lia Lqa Arith.
From Stdlib Require String.
Import ListNotations.
Open Scope Q_scope.

(** ** Scalars *)

(** [x < y] on floats, as a boolean. *)
Definition Qltb (x y : Q) : bool := negb (Qle_bool y x).

(** [np.maximum(x, y)] on two finite values. *)
Definition np_maximum (x y : Q) : Q := if Qltb x y then y else x.

(** Python's [int(x)] of a finite float: truncation toward zero. *)
Definition py_int (x : Q) : Z := Z.quot (Qnum x) (Zpos (Qden x)).

(** Storing a float into a [uint8] array ([astype('uint8')] and the implicit
    cast of a slice assignment): the fraction is dropped and the integer is
    kept modulo 256. *)
Definition to_uint8 (x : Q) : Z := (py_int x) mod 256.

(** [np.pi]: the binary64 constant [0x1.921fb54442d18p+1], an exact rational. *)
Definition np_pi : Q := 884279719003555 # 281474976710656.

(** The elementary functions the program calls in NumPy. *)
Class NumPy := {
  np_cos : Q -> Q;
  np_sin : Q -> Q;
  np_sqrt : Q -> Q;
  np_arctan2 : Q -> Q -> Q
}.

(** ** Projection utilities *)

Definition row2lat (height : Z) (row : Q) : Q :=
  90 - 180 * (row + 0.5) / inject_Z height.

Definition lat2row (height : Z) (lat : Q) : Z :=
  Qfloor ((90 - lat) * inject_Z height / 180).

Definition col2lon (height : Z) (col : Q) : Q :=
  180 * (col + 0.5) / inject_Z height - 180.

Definition lon2col (height : Z) (lon : Q) : Z :=
  Qfloor ((lon + 180) * inject_Z height / 180).

(** ** Vectors *)

Definition vec : Type := Q * Q * Q.

(** [np.dot(u, v)] *)
Definition dot (u v : vec) : Q :=
  let '(ux, uy, uz) := u in
  let '(vx, vy, vz) := v in
  ux * vx + uy * vy + uz * vz.

(** [np.cross(u, v)] *)
Definition cross (u v : vec) : vec :=
  let '(ux, uy, uz) := u in
  let '(vx, vy, vz) := v in
  (uy * vz - uz * vy, uz * vx - ux * vz, ux * vy - uy * vx).

(** [np.sum(v**2)] *)
Definition sum_sq (v : vec) : Q :=
  let '(x, y, z) := v in x * x + y * y + z * z.

Definition vscale (k : Q) (v : vec) : vec :=
  let '(x, y, z) := v in (x * k, y * k, z * k).

Definition vadd (u v : vec) : vec :=
  let '(ux, uy, uz) := u in
  let '(vx, vy, vz) := v in
  (ux + vx, uy + vy, uz + vz).

(** [v / n] for a vector [v] and its norm [n].  NumPy does not raise on a zero
    divisor: it warns and stores the IEEE result.  The norm is zero for the
    zero vector, where every component is [0/0 = nan]; [None] is that vector
    of nan. *)
Definition np_divide_vec (v : vec) (n : Q) : option vec :=
  if Qeq_bool n 0 then None else Some (vscale (/ n) v).

Definition latlon2vec `{NumPy} (lat lon : Q) : vec :=
  let cos_lon := np_cos (lon * np_pi / 180) in
  let sin_lon := np_sin (lon * np_pi / 180) in
  let cos_lat := np_cos (lat * np_pi / 180) in
  let sin_lat := np_sin (lat * np_pi / 180) in
  (cos_lat * cos_lon, cos_lat * sin_lon, sin_lat).

Definition vec2latlon `{NumPy} (v : vec) : Q * Q :=
  let '(x, y, z) := v in
  let xy_radius := np_sqrt (x * x + y * y) in
  let lat := np_arctan2 z xy_radius * 180 / np_pi in
  let lon := np_arctan2 y x * 180 / np_pi in
  (lat, lon).

(** ** Two-dimensional arrays *)

Definition array2 (A : Type) : Type := list (list A).

Fixpoint imap_from {A B : Type} (f : nat -> A -> B) (i : nat) (l : list A)
  : list B :=
  match l with
  | [] => []
  | x :: l' => f i x :: imap_from f (S i) l'
  end.

Definition imap {A B : Type} (f : nat -> A -> B) (l : list A) : list B :=
  imap_from f 0 l.

(** The array whose entry at [(r, c)] is [f r c] of the old entry. *)
Definition imap2 {A B : Type} (f : nat -> nat -> A -> B) (m : array2 A)
  : array2 B :=
  imap (fun r row => imap (f r) row) m.

(** [m[r, c]] *)
Definition at2 {A : Type} (d : A) (m : array2 A) (r c : nat) : A :=
  nth c (nth r m []) d.

(** The [h] x [w] array with [f r c] at [(r, c)]. *)
Definition tabulate2 {A : Type} (h w : nat) (f : nat -> nat -> A) : array2 A :=
  map (fun r => map (f r) (seq 0 w)) (seq 0 h).

Definition shape {A : Type} (h w : nat) (m : array2 A) : Prop :=
  length m = h /\ forall r, (r < h)%nat -> length (nth r m []) = w.

(** ** The canvas *)

(** One entry of the [uint8] array [rgba[height, width, 4]]; a draw color is
    a tuple of the same four integers. *)
Record rgba_t : Type := RGBA { chR : Z; chG : Z; chB : Z; chA : Z }.

Record Canvas : Type := mkCanvas {
  xyz : array2 vec;
  canvas : array2 Q;
  rgba : array2 rgba_t
}.

(** [self.xyz.shape[0]] and [self.xyz.shape[1]] *)
Definition height (st : Canvas) : nat := length (xyz st).
Definition width (st : Canvas) : nat := length (nth 0 (xyz st) []).

Definition vec0 : vec := (0, 0, 0).
Definition rgba0 : rgba_t := RGBA 0 0 0 0.

(** [Canvas.__init__]: the longitude terms are computed once for all columns,
    the latitude terms once per row. *)
Definition Canvas_init `{NumPy} (height : nat) : Canvas :=
  let width := (2 * height)%nat in
  let lon := map (fun c => col2lon (Z.of_nat height) (inject_Z (Z.of_nat c)))
                 (seq 0 width) in
  let cos_lon := map (fun l => np_cos (l * np_pi / 180)) lon in
  let sin_lon := map (fun l => np_sin (l * np_pi / 180)) lon in
  {| xyz := map (fun row =>
       let lat := row2lat (Z.of_nat height) (inject_Z (Z.of_nat row)) in
       let cos_lat := np_cos (lat * np_pi / 180) in
       let sin_lat := np_sin (lat * np_pi / 180) in
       map (fun cs => (cos_lat * fst cs, cos_lat * snd cs, sin_lat))
           (combine cos_lon sin_lon))
       (seq 0 height);
     canvas := tabulate2 height width (fun _ _ => 0);
     rgba := tabulate2 height width (fun _ _ => rgba0) |}.

(** What a call leaves behind: it returns, or an exception leaves the method
    with the canvas as it is at that point. *)
Inductive exn : Type := ValueError.

Inductive outcome : Type :=
| Returns (st : Canvas)
| Raises (e : exn) (st : Canvas).

Definition final (o : outcome) : Canvas :=
  match o with Returns st => st | Raises _ st => st end.

(** ** The compositor *)

(** [transfer_canvas_to_rgba] at one pixel: [m] is the entry of
    [self.canvas], [px] the entry of [self.rgba]; [g] is the test
    [alpha_over > 0] of [np.where]. *)
Definition blend (color : rgba_t) (m : Q) (px : rgba_t) : rgba_t :=
  let alpha := inject_Z (chA color) / 255 * m in
  let alpha_over := alpha + (1 - alpha) * inject_Z (chA px) / 255 in
  let g := Qltb 0 alpha_over in
  let alpha_top := if g then alpha / alpha_over else 0 in
  let alpha_bottom := (1 - alpha) * (inject_Z (chA px) / 255) in
  let alpha_bottom := if g then alpha_bottom / alpha_over else alpha_bottom in
  let channel (c x : Z) :=
    to_uint8 (alpha_top * inject_Z c + alpha_bottom * inject_Z x) in
  RGBA (channel (chR color) (chR px))
       (channel (chG color) (chG px))
       (channel (chB color) (chB px))
       (to_uint8 (alpha_over * 255)).

Definition transfer_canvas_to_rgba (st : Canvas) (color : rgba_t) : Canvas :=
  {| xyz := xyz st;
     canvas := imap2 (fun _ _ _ => 0) (canvas st);
     rgba := imap2 (fun r c px => blend color (at2 0 (canvas st) r c) px)
                   (rgba st) |}.

Definition flush_if (transfer : bool) (color : rgba_t) (st : Canvas) : Canvas :=
  if transfer then transfer_canvas_to_rgba st color else st.

(** ** Full-scan primitives *)

(** [self.canvas[row, g] = 1.0] for the columns [g] where [test] holds of the
    direction of the pixel, over every row. *)
Definition select_all (st : Canvas) (test : vec -> bool) : Canvas :=
  {| xyz := xyz st;
     canvas := imap2 (fun row c old =>
                 if test (at2 vec0 (xyz st) row c) then 1 else old)
                 (canvas st);
     rgba := rgba st |}.

Definition disk_test (center : vec) (dot_limit : Q) (p : vec) : bool :=
  Qltb dot_limit (dot p center).

Definition disk_simple `{NumPy} (st : Canvas) (lat lon diameter : Q)
  (color : rgba_t) (transfer : bool) : Canvas :=
  let center := latlon2vec lat lon in
  let radius := 0.5 * diameter in
  let dot_limit := np_cos (radius * np_pi / 180) in
  flush_if transfer color (select_all st (disk_test center dot_limit)).

Definition circle_test (center : vec) (dot_limit0 dot_limit1 : Q) (p : vec)
  : bool :=
  let dots := dot p center in
  Qltb dots dot_limit0 && Qltb dot_limit1 dots.

Definition circle_simple `{NumPy} (st : Canvas)
  (lat lon diameter line_width : Q) (color : rgba_t) (transfer : bool)
  : Canvas :=
  let center := latlon2vec lat lon in
  let radius := 0.5 * diameter in
  let dot_limit0 := np_cos ((radius - 0.5 * line_width) * np_pi / 180) in
  let dot_limit1 := np_cos ((radius + 0.5 * line_width) * np_pi / 180) in
  flush_if transfer color
    (select_all st (circle_test center dot_limit0 dot_limit1)).

(** The unit normal of the plane of the great circle and the two tangents:
    [orth], [along_a], [along_b].  A nan [orth] makes both cross products
    nan. *)
Record frame : Type := mkFrame { orth : vec; along_a : vec; along_b : vec }.

Definition great_circle_frame `{NumPy} (vec_a vec_b : vec) : option frame :=
  let orth := cross vec_a vec_b in
  match np_divide_vec orth (np_sqrt (sum_sq orth)) with
  | Some orth => Some (mkFrame orth (cross orth vec_a) (cross orth vec_b))
  | None => None
  end.

(** The strip between the two endpoints; a comparison with nan is false. *)
Definition strip_test (fr : option frame) (dot_limit_width : Q) (p : vec)
  : bool :=
  match fr with
  | Some f =>
      let dots1 := dot p (orth f) in
      let dots2 := dot p (along_a f) in
      let dots3 := dot p (along_b f) in
      Qltb (Qabs dots1) dot_limit_width && Qltb 0 dots2 && Qltb dots3 0
  | None => false
  end.

Definition line_simple `{NumPy} (st : Canvas)
  (lat_a lon_a lat_b lon_b line_width : Q) (color : rgba_t) (transfer : bool)
  : Canvas :=
  let vec_a := latlon2vec lat_a lon_a in
  let vec_b := latlon2vec lat_b lon_b in
  let fr := great_circle_frame vec_a vec_b in
  let dot_limit_width := np_sin ((0.5 * line_width) * np_pi / 180) in
  flush_if transfer color (select_all st (strip_test fr dot_limit_width)).

(** ** Bounded primitives *)

(** Python's [max(a, b)] and [min(a, b)] of two floats. *)
Definition py_max (a b : Q) : Q := if Qltb a b then b else a.
Definition py_min (a b : Q) : Q := if Qltb b a then b else a.

(** The latitude/longitude box of a primitive and the rectangle of rows
    [r0 <= row < r1] and columns [c0 <= col < c1] that is scanned for it. *)
Record bbox : Type := mkBox { min_lat : Q; max_lat : Q; min_lon : Q; max_lon : Q }.
Record rect : Type := mkRect { r0 : Z; r1 : Z; c0 : Z; c1 : Z }.

Definition box_rect (st : Canvas) (b : bbox) : rect :=
  let height := Z.of_nat (height st) in
  let width := Z.of_nat (width st) in
  {| r0 := Z.max (lat2row height (max_lat b) - 1) 0;
     r1 := Z.min (lat2row height (min_lat b) + 2) height;
     c0 := Z.max (lon2col height (min_lon b) - 1) 0;
     c1 := Z.min (lon2col height (max_lon b) + 2) width |}.

Definition in_rect (R : rect) (row col : nat) : bool :=
  (r0 R <=? Z.of_nat row)%Z && (Z.of_nat row <? r1 R)%Z &&
  (c0 R <=? Z.of_nat col)%Z && (Z.of_nat col <? c1 R)%Z.

(** [np.zeros((r1-r0, c1-c0))] raises [ValueError] on a negative dimension. *)
Definition negative_dims (R : rect) : bool :=
  (r1 R - r0 R <? 0)%Z || (c1 R - c0 R <? 0)%Z.

(** The local array [canvas] of a bounded primitive: zeros, then 1.0 where
    [test] holds of the direction [self.xyz[row, c0 + col]], for [row] in
    [range(r0, r1)]. *)
Definition scan_rect (st : Canvas) (R : rect) (test : vec -> bool) : array2 Q :=
  tabulate2 (Z.to_nat (r1 R - r0 R)) (Z.to_nat (c1 R - c0 R)) (fun r c =>
    if test (at2 vec0 (xyz st) (Z.to_nat (r0 R) + r) (Z.to_nat (c0 R) + c))
    then 1 else 0).

(** [self.canvas[r0:r1,c0:c1] = np.maximum(self.canvas[r0:r1,c0:c1], canvas)] *)
Definition maximum_into (st : Canvas) (R : rect) (sub : array2 Q) : Canvas :=
  {| xyz := xyz st;
     canvas := imap2 (fun row col old =>
                 if in_rect R row col
                 then np_maximum old
                        (at2 0 sub (row - Z.to_nat (r0 R)) (col - Z.to_nat (c0 R)))
                 else old) (canvas st);
     rgba := rgba st |}.

(** The disk of radius [line_width/2] around an endpoint:
    [dots1**2 + dots**2 < dot_limit_width2]. *)
Definition cap_test (fr : option frame) (along : frame -> vec)
  (dot_limit_width2 : Q) (p : vec) : bool :=
  match fr with
  | Some f =>
      let dots1 := dot p (orth f) in
      let dots := dot p (along f) in
      Qltb (dots1 * dots1 + dots * dots) dot_limit_width2
  | None => false
  end.

Definition segment_test (fr : option frame) (dot_limit_width : Q) (p : vec)
  : bool :=
  let dot_limit_width2 := dot_limit_width * dot_limit_width in
  strip_test fr dot_limit_width p
  || cap_test fr along_a dot_limit_width2 p
  || cap_test fr along_b dot_limit_width2 p.

Definition segment_box `{NumPy} (lat_a lon_a lat_b lon_b line_width : Q) : bbox :=
  let max_lat := py_max (Qabs lat_a) (Qabs lat_b) in
  let scale := 1 / np_cos (max_lat * np_pi / 180) in
  let min_lat := py_min lat_a lat_b - 0.5 * line_width in
  let max_lat := py_max lat_a lat_b + 0.5 * line_width in
  let min_lon := py_min lon_a lon_b - 0.5 * line_width * scale in
  let max_lon := py_max lon_a lon_b + 0.5 * line_width * scale in
  let '(max_lat, min_lon, max_lon) :=
    if Qltb 85 max_lat then (90, -180, 180) else (max_lat, min_lon, max_lon) in
  let '(min_lat, min_lon, max_lon) :=
    if Qltb min_lat (-85) then (-90, -180, 180) else (min_lat, min_lon, max_lon) in
  let '(min_lon, max_lon) :=
    if Qltb (180 - 0.5 * line_width * scale) max_lon
       || Qltb min_lon (-180 + 0.5 * line_width * scale)
    then (-180, 180) else (min_lon, max_lon) in
  mkBox min_lat max_lat min_lon max_lon.

Definition line_segment_internal `{NumPy} (st : Canvas)
  (lat_a lon_a lat_b lon_b line_width : Q) (color : rgba_t) (transfer : bool)
  : outcome :=
  let vec_a := latlon2vec lat_a lon_a in
  let vec_b := latlon2vec lat_b lon_b in
  let fr := great_circle_frame vec_a vec_b in
  let dot_limit_width := np_sin ((0.5 * line_width) * np_pi / 180) in
  let R := box_rect st (segment_box lat_a lon_a lat_b lon_b line_width) in
  if negative_dims R then Raises ValueError st
  else
    let sub := scan_rect st R (segment_test fr dot_limit_width) in
    Returns (flush_if transfer color (maximum_into st R sub)).

Definition disk_box `{NumPy} (lat lon diameter : Q) : bbox :=
  let min_lat := lat - 0.5 * diameter in
  let max_lat := lat + 0.5 * diameter in
  let scale := 1 / np_cos (lat * np_pi / 180) in
  let min_lon := lon - 0.5 * diameter * scale in
  let max_lon := lon + 0.5 * diameter * scale in
  mkBox min_lat max_lat min_lon max_lon.

(** [self.rgba[r0:r1,c0:c1,i] = 0.5 * self.rgba[r0:r1,c0:c1,i] + 0.5 * 255]
    for the channels [i = 0] and [i = 3]. *)
Definition highlight (px : rgba_t) : rgba_t :=
  RGBA (to_uint8 (0.5 * inject_Z (chR px) + 0.5 * 255))
       (chG px)
       (chB px)
       (to_uint8 (0.5 * inject_Z (chA px) + 0.5 * 255)).

Definition highlight_rect (st : Canvas) (R : rect) : Canvas :=
  {| xyz := xyz st;
     canvas := canvas st;
     rgba := imap2 (fun row col px =>
               if in_rect R row col then highlight px else px) (rgba st) |}.

Definition disk `{NumPy} (st : Canvas) (lat lon diameter : Q)
  (color : rgba_t) (transfer : bool) : outcome :=
  let center := latlon2vec lat lon in
  let radius := 0.5 * diameter in
  let dot_limit := np_cos (radius * np_pi / 180) in
  let R := box_rect st (disk_box lat lon diameter) in
  if negative_dims R then Raises ValueError st
  else
    let sub := scan_rect st R (disk_test center dot_limit) in
    Returns (flush_if transfer color
               (highlight_rect (maximum_into st R sub) R)).

(** ** Great-circle lines *)

(** [divisions = int(angle / max_step + 1)] and [step = angle / divisions] *)
Definition max_step : Q := 5.
Definition divisions (angle : Q) : Z := py_int (angle / max_step + 1).
Definition step (angle : Q) : Q := angle / inject_Z (divisions angle).

(** The separation of the endpoints in degrees, as [line] computes it. *)
Definition separation `{NumPy} (vec_a vec_b : vec) : Q :=
  let sin_theta := np_sqrt (sum_sq (cross vec_a vec_b)) in
  let cos_theta := dot vec_a vec_b in
  np_arctan2 sin_theta cos_theta * 180 / np_pi.

(** [vec_a * np.cos(t) + along_a * np.sin(t)] for [t = k * step * np.pi/180];
    nan when [along_a] is. *)
Definition rotate `{NumPy} (vec_a : vec) (fr : option frame) (k : Z) (step : Q)
  : option vec :=
  let t := inject_Z k * step * np_pi / 180 in
  match fr with
  | Some f => Some (vadd (vscale (np_cos t) vec_a) (vscale (np_sin t) (along_a f)))
  | None => None
  end.

(** The pairs [(vec0, vec1)] of the loop of [line], for [d] in
    [range(divisions)]. *)
Definition line_points `{NumPy} (lat_a lon_a lat_b lon_b : Q)
  : list (option vec * option vec) :=
  let vec_a := latlon2vec lat_a lon_a in
  let vec_b := latlon2vec lat_b lon_b in
  let fr := great_circle_frame vec_a vec_b in
  let angle := separation vec_a vec_b in
  map (fun d => (rotate vec_a fr (Z.of_nat d) (step angle),
                 rotate vec_a fr (Z.of_nat d + 1) (step angle)))
      (seq 0 (Z.to_nat (divisions angle))).

(** One turn of the loop.  On nan vectors [vec2latlon] returns nan, and
    [line_segment_internal] raises [ValueError] at [int(np.floor(nan))] in
    [lat2row], before it writes anything. *)
Definition line_body `{NumPy} (line_width : Q) (color : rgba_t)
  (st : Canvas) (seg : option vec * option vec) : outcome :=
  match seg with
  | (Some vec0, Some vec1) =>
      let '(lat_0, lon_0) := vec2latlon vec0 in
      let '(lat_1, lon_1) := vec2latlon vec1 in
      line_segment_internal st lat_0 lon_0 lat_1 lon_1 line_width color false
  | _ => Raises ValueError st
  end.

Fixpoint line_loop `{NumPy} (line_width : Q) (color : rgba_t)
  (segs : list (option vec * option vec)) (st : Canvas) : outcome :=
  match segs with
  | [] => Returns st
  | seg :: segs' =>
      match line_body line_width color st seg with
      | Returns st' => line_loop line_width color segs' st'
      | Raises e st' => Raises e st'
      end
  end.

Definition line `{NumPy} (st : Canvas)
  (lat_a lon_a lat_b lon_b line_width : Q) (color : rgba_t) (transfer : bool)
  : outcome :=
  match line_loop line_width color (line_points lat_a lon_a lat_b lon_b) st with
  | Returns st' => Returns (flush_if transfer color st')
  | Raises e st' => Raises e st'
  end.

(** ** The drawing interface *)

Inductive call : Type :=
| Transfer (color : rgba_t)
| DiskSimple (lat lon diameter : Q) (color : rgba_t) (transfer : bool)
| CircleSimple (lat lon diameter line_width : Q) (color : rgba_t) (transfer : bool)
| LineSimple (lat_a lon_a lat_b lon_b line_width : Q) (color : rgba_t) (transfer : bool)
| LineSegmentInternal (lat_a lon_a lat_b lon_b line_width : Q) (color : rgba_t) (transfer : bool)
| Line (lat_a lon_a lat_b lon_b line_width : Q) (color : rgba_t) (transfer : bool)
| Disk (lat lon diameter : Q) (color : rgba_t) (transfer : bool).

Definition exec `{NumPy} (k : call) (st : Canvas) : outcome :=
  match k with
  | Transfer color => Returns (transfer_canvas_to_rgba st color)
  | DiskSimple lat lon d color t => Returns (disk_simple st lat lon d color t)
  | CircleSimple lat lon d w color t => Returns (circle_simple st lat lon d w color t)
  | LineSimple la lo lb lob w color t => Returns (line_simple st la lo lb lob w color t)
  | LineSegmentInternal la lo lb lob w color t =>
      line_segment_internal st la lo lb lob w color t
  | Line la lo lb lob w color t => line st la lo lb lob w color t
  | Disk lat lon d color t => disk st lat lon d color t
  end.

Definition call_color (k : call) : rgba_t :=
  match k with
  | Transfer color | DiskSimple _ _ _ color _ | CircleSimple _ _ _ _ color _
  | LineSimple _ _ _ _ _ color _ | LineSegmentInternal _ _ _ _ _ color _
  | Line _ _ _ _ _ color _ | Disk _ _ _ color _ => color
  end.

(** Whether the call composites: [transfer_canvas_to_rgba] itself, or a
    primitive called with [transfer=True]. *)
Definition call_transfer (k : call) : bool :=
  match k with
  | Transfer _ => true
  | DiskSimple _ _ _ _ t | CircleSimple _ _ _ _ _ t
  | LineSimple _ _ _ _ _ _ t | LineSegmentInternal _ _ _ _ _ _ t
  | Line _ _ _ _ _ _ t | Disk _ _ _ _ t => t
  end.

Definition byte (z : Z) : Prop := (0 <= z <= 255)%Z.

(** A color "(R,G,B,A), in values from 0 to 255 inclusive". *)
Definition color_ok (c : rgba_t) : Prop :=
  byte (chR c) /\ byte (chG c) /\ byte (chB c) /\ byte (chA c).

(** The canvases a program can build: a new canvas, then calls with colors
    in range, whether they return or are left by an exception. *)
Inductive reachable `{NumPy} : Canvas -> Prop :=
| reach_init (h : nat) : reachable (Canvas_init h)
| reach_call (k : call) (st : Canvas) :
    reachable st -> color_ok (call_color k) -> reachable (final (exec k st)).

(** ** A rational implementation of the NumPy interface

    Used for the concrete evaluations only.  Every intermediate value is cut
    to 80 fractional bits.  Cosine and sine are Taylor polynomials of degree
    40 and 41 (within 1e-17 of the functions for arguments up to 2 pi), the
    square root is the integer square root at 80 fractional bits, and the arc
    tangent is its series after two halvings of the angle. *)

Definition fix80 (x : Q) : Q := Qfloor (x * inject_Z (2 ^ 80)) # (2 ^ 80).

(** [1 - x2/(k(k+1)) * (1 - x2/((k+2)(k+3)) * ...)], [n] factors deep. *)
Fixpoint horner (n : nat) (k : Z) (x2 : Q) : Q :=
  match n with
  | O => 1
  | S n' => fix80 (1 - x2 / inject_Z (k * (k + 1)) * horner n' (k + 2) x2)
  end.

Definition ref_cos (x : Q) : Q := horner 20 1 (fix80 (x * x)).
Definition ref_sin (x : Q) : Q := fix80 (x * horner 20 2 (fix80 (x * x))).

Definition ref_sqrt (x : Q) : Q :=
  if Qle_bool x 0 then 0
  else fix80 (Z.sqrt (Qnum x * Zpos (Qden x) * 2 ^ 160) # (Qden x * 2 ^ 80)).

(** [1/k - x2 * (1/(k+2) - x2 * ...)], [n] terms. *)
Fixpoint atan_terms (n : nat) (k : Z) (x2 : Q) : Q :=
  match n with
  | O => 0
  | S n' => fix80 (1 / inject_Z k - x2 * atan_terms n' (k + 2) x2)
  end.

(** [tan (a/2)] from [tan a]. *)
Definition half_tan (x : Q) : Q := fix80 (x / (1 + ref_sqrt (1 + x * x))).

(** The arc tangent of [x] for [|x| <= 1]. *)
Definition atan_unit (x : Q) : Q :=
  let y := half_tan (half_tan (fix80 x)) in
  fix80 (4 * (y * atan_terms 24 1 (fix80 (y * y)))).

Definition ref_atan (x : Q) : Q :=
  if Qle_bool (Qabs x) 1 then atan_unit x
  else if Qltb 0 x then np_pi / 2 - atan_unit (1 / x)
  else - (np_pi / 2) - atan_unit (1 / x).

Definition ref_arctan2 (y x : Q) : Q :=
  if Qltb 0 x then ref_atan (y / x)
  else if Qltb x 0 then
    if Qle_bool 0 y then ref_atan (y / x) + np_pi else ref_atan (y / x) - np_pi
  else if Qltb 0 y then np_pi / 2
  else if Qltb y 0 then - (np_pi / 2)
  else 0.

Definition ref_numpy : NumPy :=
  {| np_cos := ref_cos; np_sin := ref_sin;
     np_sqrt := ref_sqrt; np_arctan2 := ref_arctan2 |}.

(** ** Binary64 arithmetic

    Where a property depends on the rounding of the float operations, the
    code is read with every operation rounded to binary64.  A binary64
    number is a rational [m * 2^e] with [|m| < 2^53] and [e >= -1074]
    (subnormal numbers included); [b64 x] is the nearest one to [x], ties to
    an even last digit.  Overflow, infinities and nan are left out: the
    values of the program stay far below [2^1024]. *)

(** [floor (log2 |x|)] for [x] other than 0. *)
Definition ilog2 (x : Q) : Z :=
  let k := (Z.log2 (Z.abs (Qnum x)) - Z.log2 (Zpos (Qden x)))%Z in
  if Qle_bool (2 ^ k) (Qabs x) then k else (k - 1)%Z.

(** The nearest integer, ties to even. *)
Definition round_half_even (y : Q) : Z :=
  let f := Qfloor y in
  match Qcompare (y - inject_Z f) (1 # 2) with
  | Lt => f
  | Gt => (f + 1)%Z
  | Eq => if Z.even f then f else (f + 1)%Z
  end.

(** The exponent of the last place of the binary64 numbers next to [x]. *)
Definition ulp_exp (x : Q) : Z := Z.max (ilog2 x - 52) (-1074).

(** Rounding to binary64. *)
Definition b64 (x : Q) : Q :=
  if Qeq_bool x 0 then 0
  else Qred (inject_Z (round_half_even (x / 2 ^ ulp_exp x)) * 2 ^ ulp_exp x).

Definition is_b64 (x : Q) : Prop :=
  exists m e : Z,
    (Z.abs m < 2 ^ 53)%Z /\ (-1074 <= e)%Z /\ x == inject_Z m * 2 ^ e.

(** Half the spacing of the binary64 numbers below 2: [2^-53]. *)
Definition eps : Q := 1 # 9007199254740992.



(** [transfer_canvas_to_rgba] at one pixel in binary64, operation by
    operation in the order of the source. *)
Definition blend_b64 (color : rgba_t) (m : Q) (px : rgba_t) : rgba_t :=
  let alpha := b64 (b64 (inject_Z (chA color) / 255) * m) in
  let alpha_over :=
    b64 (alpha + b64 (b64 (b64 (1 - alpha) * inject_Z (chA px)) / 255)) in
  let g := Qltb 0 alpha_over in
  let alpha_top := if g then b64 (alpha / alpha_over) else 0 in
  let alpha_bottom := b64 (b64 (1 - alpha) * b64 (inject_Z (chA px) / 255)) in
  let alpha_bottom := if g then b64 (alpha_bottom / alpha_over) else alpha_bottom in
  let channel (c x : Z) :=
    to_uint8 (b64 (b64 (alpha_top * inject_Z c) + b64 (alpha_bottom * inject_Z x))) in
  RGBA (channel (chR color) (chR px))
       (channel (chG color) (chG px))
       (channel (chB color) (chB px))
       (to_uint8 (b64 (alpha_over * 255))).

Definition transfer_canvas_to_rgba_b64 (st : Canvas) (color : rgba_t) : Canvas :=
  {| xyz := xyz st;
     canvas := imap2 (fun _ _ _ => 0) (canvas st);
     rgba := imap2 (fun r c px => blend_b64 color (at2 0 (canvas st) r c) px)
                   (rgba st) |}.

(** ** The statements of the specification *)

(** Porter-Duff "over" of the flat color, as the specification words it:
    [newA], [combinedA], [topWeight], [bottomWeight], with the channels
    stored through [store] ([Qfloor] for truncation, [round_nearest] for
    rounding). *)
Definition round_nearest (x : Q) : Z := Qfloor (x + (1 # 2)).

Definition porter_duff_over (store : Q -> Z) (color : rgba_t) (mask : Q)
  (existing : rgba_t) : rgba_t :=
  let newA := mask * inject_Z (chA color) / 255 in
  let combinedA := newA + (1 - newA) * inject_Z (chA existing) / 255 in
  if Qltb 0 combinedA then
    let topWeight := newA / combinedA in
    let bottomWeight := (1 - newA) * (inject_Z (chA existing) / 255) / combinedA in
    let channel (c x : Z) := store (topWeight * inject_Z c + bottomWeight * inject_Z x) in
    RGBA (channel (chR color) (chR existing))
         (channel (chG color) (chG existing))
         (channel (chB color) (chB existing))
         (store (combinedA * 255))
  else RGBA 0 0 0 0.


(** Well-formed canvases: the three arrays have the shape of [xyz]. *)
Definition wf (st : Canvas) : Prop :=
  shape (height st) (width st) (xyz st) /\
  shape (height st) (width st) (canvas st) /\
  shape (height st) (width st) (rgba st).


Definition mask_binary (st : Canvas) : Prop :=
  forall r c, (r < height st)%nat -> (c < width st)%nat ->
    at2 0 (canvas st) r c == 0 \/ at2 0 (canvas st) r c == 1.

Definition mask_zero (st : Canvas) : Prop :=
  forall r c, (r < height st)%nat -> (c < width st)%nat ->
    at2 0 (canvas st) r c == 0.

(** Pixels whose channels are bytes, and which are all zero when transparent. *)
Definition px_ok (px : rgba_t) : Prop :=
  color_ok px /\ (chA px = 0%Z -> px = rgba0).

Definition rgba_ok (st : Canvas) : Prop :=
  forall r c, (r < height st)%nat -> (c < width st)%nat ->
    px_ok (at2 rgba0 (rgba st) r c).

(** Every channel of the RGBA buffer is a byte. *)
Definition rgba_bytes (st : Canvas) : Prop :=
  forall r c, (r < height st)%nat -> (c < width st)%nat ->
    color_ok (at2 rgba0 (rgba st) r c).

(** What holds of every canvas a program can build. *)
Definition invariant (st : Canvas) : Prop :=
  wf st /\ mask_binary st /\ rgba_ok st.


(** The default color, fully opaque white, and the colors of the examples. *)
Definition white : rgba_t := RGBA 255 255 255 255.
Definition opaque_red : rgba_t := RGBA 255 0 0 255.
Definition half_black : rgba_t := RGBA 0 0 0 128.
Definition half_red : rgba_t := RGBA 255 0 0 128.

(** * Proofs *)

(** ** Comparisons *)

Lemma Qltb_lt (x y : Q) : Qltb x y = true <-> x < y.
Proof.
  unfold Qltb. rewrite negb_true_iff, <- not_true_iff_false, Qle_bool_iff.
  split; [apply Qnot_le_lt | apply Qlt_not_le].
Qed.

Lemma Qltb_ge (x y : Q) : Qltb x y = false <-> y <= x.
Proof.
  unfold Qltb. rewrite negb_false_iff, Qle_bool_iff. reflexivity.
Qed.

Lemma np_maximum_cases (x y : Q) :
  (x < y /\ np_maximum x y = y) \/ (y <= x /\ np_maximum x y = x).
Proof.
  unfold np_maximum. destruct (Qltb x y) eqn:E.
  - left. split; [now apply Qltb_lt | reflexivity].
  - right. split; [now apply Qltb_ge | reflexivity].
Qed.

(** ** Arrays *)

Lemma imap_from_length {A B} (f : nat -> A -> B) (l : list A) (i : nat) :
  length (imap_from f i l) = length l.
Proof.
  revert i. induction l as [|x l IH]; intros i; simpl; [reflexivity|].
  now rewrite IH.
Qed.

Lemma imap_from_nth {A B} (f : nat -> A -> B) (l : list A) (i n : nat) (d : A) (e : B) :
  (n < length l)%nat -> nth n (imap_from f i l) e = f (i + n)%nat (nth n l d).
Proof.
  revert i n. induction l as [|x l IH]; intros i n Hn; simpl in *; [lia|].
  destruct n as [|n].
  - now rewrite Nat.add_0_r.
  - rewrite (IH (S i) n) by lia. f_equal. lia.
Qed.

Lemma imap2_length {A B} (f : nat -> nat -> A -> B) (m : array2 A) :
  length (imap2 f m) = length m.
Proof. apply imap_from_length. Qed.

Lemma imap2_row_length {A B} (f : nat -> nat -> A -> B) (m : array2 A) (r : nat) :
  length (nth r (imap2 f m) []) = length (nth r m []).
Proof.
  destruct (Nat.lt_ge_cases r (length m)) as [Hr|Hr].
  - unfold imap2, imap. rewrite (imap_from_nth _ m 0 r [] []) by exact Hr.
    apply imap_from_length.
  - rewrite !nth_overflow; [reflexivity | exact Hr | now rewrite imap2_length].
Qed.

Lemma at2_imap2 {A B} (f : nat -> nat -> A -> B) (m : array2 A)
  (r c : nat) (d : A) (e : B) :
  (r < length m)%nat -> (c < length (nth r m []))%nat ->
  at2 e (imap2 f m) r c = f r c (at2 d m r c).
Proof.
  intros Hr Hc. unfold at2, imap2, imap.
  rewrite (imap_from_nth _ m 0 r [] []) by exact Hr.
  rewrite (imap_from_nth _ _ 0 c d e) by exact Hc.
  reflexivity.
Qed.

Lemma shape_imap2 {A B} (f : nat -> nat -> A -> B) (m : array2 A) (h w : nat) :
  shape h w m -> shape h w (imap2 f m).
Proof.
  intros [Hl Hr]. split.
  - now rewrite imap2_length.
  - intros r Hlt. rewrite imap2_row_length. now apply Hr.
Qed.

Lemma tabulate2_shape {A} (h w : nat) (f : nat -> nat -> A) :
  shape h w (tabulate2 h w f).
Proof.
  unfold tabulate2. split.
  - now rewrite length_map, length_seq.
  - intros r Hr.
    rewrite (nth_indep _ [] (map (f 0%nat) (seq 0 w)))
      by now rewrite length_map, length_seq.
    rewrite (map_nth (fun r => map (f r) (seq 0 w)) (seq 0 h) 0%nat r).
    now rewrite length_map, length_seq.
Qed.

Lemma at2_tabulate2 {A} (h w : nat) (f : nat -> nat -> A) (r c : nat) (d : A) :
  (r < h)%nat -> (c < w)%nat -> at2 d (tabulate2 h w f) r c = f r c.
Proof.
  intros Hr Hc. unfold at2, tabulate2.
  rewrite (nth_indep _ [] (map (f 0%nat) (seq 0 w)))
    by now rewrite length_map, length_seq.
  rewrite (map_nth (fun r => map (f r) (seq 0 w)) (seq 0 h) 0%nat r).
  rewrite seq_nth by exact Hr. simpl.
  rewrite (nth_indep _ d (f r 0%nat)) by now rewrite length_map, length_seq.
  rewrite (map_nth (f r) (seq 0 w) 0%nat c).
  now rewrite seq_nth by exact Hc.
Qed.

Lemma imap_from_id {A} (f : nat -> A -> A) (l : list A) (i : nat) (d : A) :
  (forall n, (n < length l)%nat -> f (i + n)%nat (nth n l d) = nth n l d) ->
  imap_from f i l = l.
Proof.
  revert i. induction l as [|x l IH]; intros i Hf; simpl; [reflexivity|].
  f_equal.
  - specialize (Hf 0%nat). simpl in Hf. rewrite Nat.add_0_r in Hf.
    apply Hf. lia.
  - apply IH. intros n Hn. specialize (Hf (S n)). simpl in Hf.
    replace (S i + n)%nat with (i + S n)%nat by lia. apply Hf. lia.
Qed.

Lemma imap2_id {A} (f : nat -> nat -> A -> A) (m : array2 A) (d : A) :
  (forall r c, (r < length m)%nat -> (c < length (nth r m []))%nat ->
     f r c (at2 d m r c) = at2 d m r c) ->
  imap2 f m = m.
Proof.
  intros Hf. unfold imap2, imap. apply (imap_from_id _ m 0 []).
  intros r Hr. simpl. apply (imap_from_id _ _ 0 d).
  intros c Hc. simpl. now apply Hf.
Qed.

(** ** Properties of the projection utilities *)

Lemma Qfloor_bounds (x : Q) (lo hi : Z) :
  inject_Z lo <= x -> x < inject_Z hi -> (lo <= Qfloor x < hi)%Z.
Proof.
  intros Hlo Hhi. split.
  - rewrite <- (Qfloor_Z lo). now apply Qfloor_resp_le.
  - destruct (Z_lt_le_dec (Qfloor x) hi) as [Hlt|Hge]; [exact Hlt|].
    exfalso. apply (Qlt_irrefl x).
    apply Qlt_le_trans with (inject_Z hi); [exact Hhi|].
    apply Qle_trans with (inject_Z (Qfloor x)); [|apply Qfloor_le].
    now rewrite <- Zle_Qle.
Qed.

Lemma Qfloor_of_Z (x : Q) (z : Z) : x == inject_Z z -> Qfloor x = z.
Proof. intros H. rewrite (Qfloor_comp _ _ H). apply Qfloor_Z. Qed.

Lemma scale_bounds (x : Q) (h : Z) (k : Q) :
  (0 < h)%Z -> 0 < k -> 0 <= x -> x < k ->
  0 <= x * inject_Z h / k /\ x * inject_Z h / k < inject_Z h.
Proof.
  intros Hh Hk H0 H1.
  assert (Hq : 0 < inject_Z h) by (change 0 with (inject_Z 0); now rewrite <- Zlt_Qlt).
  split.
  - apply Qle_shift_div_l; [exact Hk|]. rewrite Qmult_0_l.
    apply Qmult_le_0_compat; [exact H0|now apply Qlt_le_weak].
  - apply Qlt_shift_div_r; [exact Hk|].
    rewrite (Qmult_comm (inject_Z h) k).
    apply Qmult_lt_compat_r; assumption.
Qed.

(** ** Casts *)

Lemma py_int_floor (x : Q) : 0 <= x -> py_int x = Qfloor x.
Proof.
  destruct x as [n d]. unfold py_int, Qfloor, Qle. simpl. intros H.
  apply Z.quot_div_nonneg; lia.
Qed.

Lemma to_uint8_byte (x : Q) : byte (to_uint8 x).
Proof.
  unfold byte, to_uint8.
  pose proof (Z.mod_pos_bound (py_int x) 256 eq_refl). lia.
Qed.

Lemma to_uint8_floor (x : Q) :
  0 <= x -> x < 256 -> to_uint8 x = Qfloor x.
Proof.
  intros H0 H1. unfold to_uint8. rewrite py_int_floor by exact H0.
  apply Z.mod_small. apply (Qfloor_bounds x 0 256); assumption.
Qed.

Lemma to_uint8_Z (x : Q) (z : Z) : byte z -> x == inject_Z z -> to_uint8 x = z.
Proof.
  intros [Hz0 Hz1] E.
  assert (I0 : inject_Z 0 <= inject_Z z) by now rewrite <- Zle_Qle.
  assert (I1 : inject_Z z < inject_Z 256) by (rewrite <- Zlt_Qlt; lia).
  rewrite to_uint8_floor.
  - now apply Qfloor_of_Z.
  - rewrite E. exact I0.
  - rewrite E. exact I1.
Qed.

Lemma byte_Q (z : Z) : byte z -> 0 <= inject_Z z /\ inject_Z z <= 255.
Proof.
  intros [H0 H1]. split.
  - change 0 with (inject_Z 0). now rewrite <- Zle_Qle.
  - change 255 with (inject_Z 255). now rewrite <- Zle_Qle.
Qed.

(** ** The compositor *)

Lemma convex_bound (a b o c x : Q) :
  0 <= a -> 0 <= b -> a + b == o -> 0 < o ->
  0 <= c <= 255 -> 0 <= x <= 255 ->
  0 <= a / o * c + b / o * x /\ a / o * c + b / o * x < 256.
Proof.
  intros Ha Hb Hs Ho [Hc0 Hc1] [Hx0 Hx1].
  assert (No : ~ o == 0) by lra.
  assert (E : a / o * c + b / o * x == (a * c + b * x) / o) by (field; exact No).
  assert (P1 : 0 <= a * c) by now apply Qmult_le_0_compat.
  assert (P2 : 0 <= b * x) by now apply Qmult_le_0_compat.
  assert (P3 : a * c <= a * 255)
    by (rewrite !(Qmult_comm a); now apply Qmult_le_compat_r).
  assert (P4 : b * x <= b * 255)
    by (rewrite !(Qmult_comm b); now apply Qmult_le_compat_r).
  rewrite E. split.
  - apply Qle_shift_div_l; [exact Ho|]. lra.
  - apply Qlt_shift_div_r; [exact Ho|]. lra.
Qed.

Lemma Qltb_comp (x x' y y' : Q) : x == x' -> y == y' -> Qltb x y = Qltb x' y'.
Proof.
  intros Ex Ey.
  destruct (Qltb x y) eqn:E1, (Qltb x' y') eqn:E2; try reflexivity;
    rewrite ?Qltb_lt, ?Qltb_ge in *; lra.
Qed.

Lemma store_floor (x y : Q) : x == y -> 0 <= y -> y < 256 -> to_uint8 x = Qfloor y.
Proof.
  intros E H0 H1. rewrite to_uint8_floor by (rewrite E; assumption).
  now apply Qfloor_comp.
Qed.

Lemma unit_product (a m : Q) :
  0 <= a <= 255 -> 0 <= m <= 1 -> 0 <= a / 255 * m /\ a / 255 * m <= 1.
Proof.
  intros [Ha0 Ha1] [Hm0 Hm1].
  assert (P : 0 <= a * m) by now apply Qmult_le_0_compat.
  assert (P' : a * m <= 255 * 1) by (apply Qmult_le_compat_nonneg; split; assumption).
  assert (E : a / 255 * m == a * m / 255) by field.
  rewrite E. split.
  - apply Qle_shift_div_l; [reflexivity|]. lra.
  - apply Qle_shift_div_r; [reflexivity|]. lra.
Qed.

(** The compositor at one pixel is Porter-Duff "over" with truncated channels. *)
Lemma blend_over (color px : rgba_t) (m : Q) :
  color_ok color -> color_ok px -> 0 <= m <= 1 ->
  blend color m px = porter_duff_over Qfloor color m px.
Proof.
  intros (CR & CG & CB & CA) (PR & PG & PB & PA) Hm.
  apply byte_Q in CR, CG, CB, CA, PR, PG, PB, PA.
  unfold blend, porter_duff_over.
  set (A := inject_Z (chA color)) in *. set (E := inject_Z (chA px)) in *.
  set (alpha := A / 255 * m). set (newA := m * A / 255).
  set (ao := alpha + (1 - alpha) * E / 255).
  set (cA := newA + (1 - newA) * E / 255).
  set (beta := (1 - alpha) * (E / 255)).
  assert (Ea : alpha == newA) by (unfold alpha, newA; field).
  assert (Eo : ao == cA) by (unfold ao, cA; rewrite Ea; reflexivity).
  destruct (unit_product A m CA Hm) as [A0 A1]. fold alpha in A0, A1.
  assert (B0 : 0 <= beta).
  { unfold beta. apply Qmult_le_0_compat; [lra|].
    apply Qle_shift_div_l; [reflexivity|]. lra. }
  assert (B1 : beta <= 1 - alpha).
  { unfold beta. rewrite <- (Qmult_1_r (1 - alpha)) at 2.
    rewrite !(Qmult_comm (1 - alpha)). apply Qmult_le_compat_r; [|lra].
    apply Qle_shift_div_r; [reflexivity|]. lra. }
  assert (Es : alpha + beta == ao) by (unfold ao, beta; field).
  rewrite <- (Qltb_comp 0 0 ao cA (Qeq_refl 0) Eo).
  destruct (Qltb 0 ao) eqn:G.
  - apply Qltb_lt in G.
    assert (No : ~ ao == 0) by lra. assert (Nc : ~ cA == 0) by lra.
    assert (Et : alpha / ao == newA / cA) by (rewrite Ea, Eo; reflexivity).
    assert (Eb : beta / ao == (1 - newA) * (E / 255) / cA)
      by (unfold beta; rewrite Ea, Eo; reflexivity).
    f_equal.
    + destruct (convex_bound alpha beta ao _ _ A0 B0 Es G CR PR) as [L U].
      apply store_floor; [rewrite <- Et, <- Eb; reflexivity| |]; rewrite <- Et, <- Eb; assumption.
    + destruct (convex_bound alpha beta ao _ _ A0 B0 Es G CG PG) as [L U].
      apply store_floor; [rewrite <- Et, <- Eb; reflexivity| |]; rewrite <- Et, <- Eb; assumption.
    + destruct (convex_bound alpha beta ao _ _ A0 B0 Es G CB PB) as [L U].
      apply store_floor; [rewrite <- Et, <- Eb; reflexivity| |]; rewrite <- Et, <- Eb; assumption.
    + apply store_floor; [rewrite Eo; reflexivity| |]; rewrite <- Eo; lra.
  - apply Qltb_ge in G.
    assert (Z0 : alpha == 0) by lra. assert (Z1 : beta == 0) by lra.
    assert (Z2 : ao == 0) by lra.
    f_equal; apply to_uint8_Z; try (unfold byte; lia);
      rewrite ?Z0, ?Z1, ?Z2; change (inject_Z 0) with 0; ring.
Qed.

Lemma at2_transfer_rgba (st : Canvas) (color : rgba_t) (r c : nat) :
  wf st -> (r < height st)%nat -> (c < width st)%nat ->
  at2 rgba0 (rgba (transfer_canvas_to_rgba st color)) r c
  = blend color (at2 0 (canvas st) r c) (at2 rgba0 (rgba st) r c).
Proof.
  intros (_ & _ & [Hl Hw]) Hr Hc. simpl.
  apply (at2_imap2 (fun r c px => blend color (at2 0 (canvas st) r c) px)
           (rgba st) r c rgba0 rgba0);
    [now rewrite Hl | now rewrite Hw].
Qed.

Lemma at2_transfer_canvas (st : Canvas) (color : rgba_t) (r c : nat) :
  wf st -> (r < height st)%nat -> (c < width st)%nat ->
  at2 0 (canvas (transfer_canvas_to_rgba st color)) r c = 0.
Proof.
  intros (_ & [Hl Hw] & _) Hr Hc. simpl.
  rewrite (at2_imap2 _ _ r c 0 0); [reflexivity | now rewrite Hl | now rewrite Hw].
Qed.

Lemma wf_transfer (st : Canvas) (color : rgba_t) :
  wf st -> wf (transfer_canvas_to_rgba st color).
Proof.
  intros (Hx & Hc & Hp). unfold wf.
  change (height (transfer_canvas_to_rgba st color)) with (height st).
  change (width (transfer_canvas_to_rgba st color)) with (width st).
  split; [exact Hx|]. split; apply shape_imap2; assumption.
Qed.

(** A flat color that adds no opacity leaves a pixel as it is. *)
Lemma blend_transparent (color px : rgba_t) (m : Q) :
  inject_Z (chA color) / 255 * m == 0 -> px_ok px -> blend color m px = px.
Proof.
  intros Z0 [(PR & PG & PB & PA) Hz].
  destruct px as [pr pg pb pa]. unfold blend. simpl in *.
  destruct (Z.eq_dec pa 0) as [E0|E1].
  - specialize (Hz E0). injection Hz as -> -> -> ->.
    set (alpha := inject_Z (chA color) / 255 * m) in *.
    set (ao := alpha + (1 - alpha) * inject_Z 0 / 255).
    assert (Z2 : ao == 0) by (unfold ao; rewrite Z0; reflexivity).
    assert (G : Qltb 0 ao = false) by (apply Qltb_ge; lra).
    rewrite G. unfold rgba0.
    f_equal; apply to_uint8_Z; try (unfold byte; lia);
      rewrite ?Z2, ?Z0; change (inject_Z 0) with 0; ring.
  - set (E := inject_Z pa) in *.
    set (alpha := inject_Z (chA color) / 255 * m) in *.
    set (ao := alpha + (1 - alpha) * E / 255).
    set (beta := (1 - alpha) * (E / 255)).
    assert (Eo : ao == E / 255) by (unfold ao; rewrite Z0; field).
    assert (Eb : beta == E / 255) by (unfold beta; rewrite Z0; field).
    assert (P : 0 < E).
    { unfold E. change 0 with (inject_Z 0). rewrite <- Zlt_Qlt.
      destruct PA. lia. }
    assert (Po : 0 < ao).
    { rewrite Eo. apply Qlt_shift_div_l; [reflexivity|]. lra. }
    assert (G : Qltb 0 ao = true) by now apply Qltb_lt.
    rewrite G.
    assert (No : ~ ao == 0) by lra.
    assert (Et : alpha / ao == 0) by (rewrite Z0; field; exact No).
    assert (Eu : beta / ao == 1) by (rewrite Eb, Eo; field; lra).
    f_equal; apply to_uint8_Z; try assumption;
      rewrite ?Et, ?Eu, ?Eo; fold E; field.
Qed.

(** Compositing keeps the pixels well formed when the mask is 0 or 1. *)
Lemma blend_ok (color px : rgba_t) (m : Q) :
  color_ok color -> m == 0 \/ m == 1 -> px_ok px -> px_ok (blend color m px).
Proof.
  intros Hc Hm Hp.
  destruct (Z.eq_dec (chA color) 0) as [A0|A1].
  { rewrite blend_transparent; [exact Hp | | exact Hp].
    rewrite A0. change (inject_Z 0) with 0. field. }
  destruct Hm as [M0|M1].
  { rewrite blend_transparent; [exact Hp | | exact Hp].
    rewrite M0. ring. }
  destruct Hc as (CR & CG & CB & CA). destruct Hp as [(PR & PG & PB & PA) _].
  split.
  - unfold blend, color_ok. simpl. repeat split; apply to_uint8_byte.
  - intros Habs. exfalso. revert Habs. unfold blend. simpl.
    apply byte_Q in PA.
    set (E := inject_Z (chA px)) in *.
    set (alpha := inject_Z (chA color) / 255 * m).
    set (ao := alpha + (1 - alpha) * E / 255).
    assert (QA : 1 <= inject_Z (chA color) /\ inject_Z (chA color) <= 255).
    { split; [change 1 with (inject_Z 1)|change 255 with (inject_Z 255)];
        rewrite <- Zle_Qle; destruct CA; lia. }
    assert (Ea : alpha == inject_Z (chA color) / 255)
      by (unfold alpha; rewrite M1; ring).
    assert (Ea' : alpha * 255 == inject_Z (chA color)) by (rewrite Ea; field).
    assert (T : 0 <= (1 - alpha) * E / 255).
    { apply Qle_shift_div_l; [reflexivity|]. rewrite Qmult_0_l.
      apply Qmult_le_0_compat; lra. }
    assert (T' : (1 - alpha) * E / 255 <= 1 - alpha).
    { apply Qle_shift_div_r; [reflexivity|].
      rewrite !(Qmult_comm (1 - alpha)). apply Qmult_le_compat_r; lra. }
    fold ao. unfold ao. set (t := (1 - alpha) * E / 255) in *.
    assert (L : 1 <= (alpha + t) * 255) by lra.
    assert (U : (alpha + t) * 255 < 256) by lra.
    rewrite to_uint8_floor by lra.
    pose proof (Qfloor_bounds ((alpha + t) * 255) 1 256 L U). lia.
Qed.

(** ** Pixels after each step of a primitive *)

Lemma at2_select_all (st : Canvas) (test : vec -> bool) (r c : nat) :
  wf st -> (r < height st)%nat -> (c < width st)%nat ->
  at2 0 (canvas (select_all st test)) r c
  = if test (at2 vec0 (xyz st) r c) then 1 else at2 0 (canvas st) r c.
Proof.
  intros (_ & [Hl Hw] & _) Hr Hc. simpl.
  apply (at2_imap2 (fun row c old =>
           if test (at2 vec0 (xyz st) row c) then 1 else old)
           (canvas st) r c 0 0);
    [now rewrite Hl | now rewrite Hw].
Qed.

Lemma wf_select_all (st : Canvas) (test : vec -> bool) :
  wf st -> wf (select_all st test).
Proof.
  intros (Hx & Hc & Hp). unfold wf.
  change (height (select_all st test)) with (height st).
  change (width (select_all st test)) with (width st).
  split; [exact Hx|]. split; [apply shape_imap2|]; assumption.
Qed.

Lemma in_rect_spec (R : rect) (r c : nat) :
  in_rect R r c = true <->
  (r0 R <= Z.of_nat r < r1 R)%Z /\ (c0 R <= Z.of_nat c < c1 R)%Z.
Proof.
  unfold in_rect. rewrite !andb_true_iff, !Z.leb_le, !Z.ltb_lt. tauto.
Qed.

(** The mask after [scan_rect] and [maximum_into]. *)
Lemma at2_paint (st : Canvas) (R : rect) (test : vec -> bool) (r c : nat) :
  (0 <= r0 R)%Z -> (0 <= c0 R)%Z ->
  wf st -> (r < height st)%nat -> (c < width st)%nat ->
  at2 0 (canvas (maximum_into st R (scan_rect st R test))) r c
  = if in_rect R r c
    then np_maximum (at2 0 (canvas st) r c)
           (if test (at2 vec0 (xyz st) r c) then 1 else 0)
    else at2 0 (canvas st) r c.
Proof.
  intros H0 H1 (_ & [Hl Hw] & _) Hr Hc. simpl.
  rewrite (at2_imap2 _ (canvas st) r c 0 0);
    [| now rewrite Hl | now rewrite Hw].
  destruct (in_rect R r c) eqn:E; [|reflexivity].
  apply in_rect_spec in E. destruct E as [[Ea Eb] [Ec Ed]].
  unfold scan_rect. rewrite at2_tabulate2 by lia.
  replace (Z.to_nat (r0 R) + (r - Z.to_nat (r0 R)))%nat with r by lia.
  replace (Z.to_nat (c0 R) + (c - Z.to_nat (c0 R)))%nat with c by lia.
  reflexivity.
Qed.

Lemma wf_maximum_into (st : Canvas) (R : rect) (sub : array2 Q) :
  wf st -> wf (maximum_into st R sub).
Proof.
  intros (Hx & Hc & Hp). unfold wf.
  change (height (maximum_into st R sub)) with (height st).
  change (width (maximum_into st R sub)) with (width st).
  split; [exact Hx|]. split; [apply shape_imap2|]; assumption.
Qed.

Lemma at2_highlight_rect (st : Canvas) (R : rect) (r c : nat) :
  wf st -> (r < height st)%nat -> (c < width st)%nat ->
  at2 rgba0 (rgba (highlight_rect st R)) r c
  = if in_rect R r c then highlight (at2 rgba0 (rgba st) r c)
    else at2 rgba0 (rgba st) r c.
Proof.
  intros (_ & _ & [Hl Hw]) Hr Hc. simpl.
  apply (at2_imap2 (fun row col px =>
           if in_rect R row col then highlight px else px)
           (rgba st) r c rgba0 rgba0);
    [now rewrite Hl | now rewrite Hw].
Qed.

Lemma wf_highlight_rect (st : Canvas) (R : rect) :
  wf st -> wf (highlight_rect st R).
Proof.
  intros (Hx & Hc & Hp). unfold wf.
  change (height (highlight_rect st R)) with (height st).
  change (width (highlight_rect st R)) with (width st).
  split; [exact Hx|]. split; [|apply shape_imap2]; assumption.
Qed.

Lemma box_rect_nonneg (st : Canvas) (b : bbox) :
  (0 <= r0 (box_rect st b))%Z /\ (0 <= c0 (box_rect st b))%Z.
Proof. unfold box_rect. simpl. lia. Qed.

(** The stored half-and-half blend of a byte with 255. *)
Lemma highlight_channel (z : Z) :
  byte z -> to_uint8 (0.5 * inject_Z z + 0.5 * 255) = ((z + 255) / 2)%Z.
Proof.
  intros Hz. pose proof (byte_Q z Hz) as [Q0 Q1]. destruct Hz as [Hz0 Hz1].
  rewrite to_uint8_floor by lra.
  assert (E : 0.5 * inject_Z z + 0.5 * 255 == (z + 255) # 2).
  { rewrite (Qmake_Qdiv (z + 255) 2), inject_Z_plus.
    change (inject_Z 255) with 255. change (inject_Z (Zpos 2)) with 2. field. }
  rewrite (Qfloor_comp _ _ E). reflexivity.
Qed.

(** ** The invariant of the canvas *)

Lemma inv_transfer (st : Canvas) (color : rgba_t) :
  color_ok color -> invariant st -> invariant (transfer_canvas_to_rgba st color).
Proof.
  intros Hc (Hwf & Hm & Hp). split; [now apply wf_transfer|]. split.
  - intros r c Hr Hcol. left.
    rewrite at2_transfer_canvas by assumption. reflexivity.
  - intros r c Hr Hcol. rewrite at2_transfer_rgba by assumption.
    apply blend_ok; [exact Hc | now apply Hm | now apply Hp].
Qed.

Lemma inv_flush_if (t : bool) (st : Canvas) (color : rgba_t) :
  color_ok color -> invariant st -> invariant (flush_if t color st).
Proof.
  intros Hc Hi. destruct t; simpl; [now apply inv_transfer | exact Hi].
Qed.

Lemma inv_select_all (st : Canvas) (test : vec -> bool) :
  invariant st -> invariant (select_all st test).
Proof.
  intros (Hwf & Hm & Hp). split; [now apply wf_select_all|]. split.
  - intros r c Hr Hc. rewrite at2_select_all by assumption.
    destruct (test _); [right; reflexivity | now apply Hm].
  - exact Hp.
Qed.

Lemma inv_paint (st : Canvas) (R : rect) (test : vec -> bool) :
  (0 <= r0 R)%Z -> (0 <= c0 R)%Z ->
  invariant st -> invariant (maximum_into st R (scan_rect st R test)).
Proof.
  intros H0 H1 (Hwf & Hm & Hp). split; [now apply wf_maximum_into|]. split.
  - intros r c Hr Hc. rewrite at2_paint by assumption.
    destruct (in_rect R r c); [|now apply Hm].
    destruct (np_maximum_cases (at2 0 (canvas st) r c)
                (if test (at2 vec0 (xyz st) r c) then 1 else 0))
      as [[_ ->]|[_ ->]]; [|now apply Hm].
    destruct (test _); [right|left]; reflexivity.
  - exact Hp.
Qed.

Lemma highlight_ok (px : rgba_t) : px_ok px -> px_ok (highlight px).
Proof.
  intros [(PR & PG & PB & PA) _]. split.
  - unfold highlight, color_ok. simpl.
    repeat split; try apply to_uint8_byte; (apply PG || apply PB).
  - unfold highlight. simpl. rewrite highlight_channel by exact PA.
    intros Habs. exfalso. destruct PA as [A0 A1].
    assert (127 <= (chA px + 255) / 2)%Z
      by (apply Z.div_le_lower_bound; lia).
    lia.
Qed.

Lemma inv_highlight_rect (st : Canvas) (R : rect) :
  invariant st -> invariant (highlight_rect st R).
Proof.
  intros (Hwf & Hm & Hp). split; [now apply wf_highlight_rect|].
  split; [exact Hm|].
  intros r c Hr Hc. rewrite at2_highlight_rect by assumption.
  destruct (in_rect R r c); [apply highlight_ok|]; now apply Hp.
Qed.

Section Drawing.

Context {np : NumPy}.

Lemma inv_line_segment_internal (st : Canvas) (la lo lb lob w : Q)
  (color : rgba_t) (t : bool) :
  color_ok color -> invariant st ->
  invariant (final (line_segment_internal st la lo lb lob w color t)).
Proof.
  intros Hc Hi. unfold line_segment_internal.
  set (R := box_rect st _). set (test := segment_test _ _).
  destruct (negative_dims R); cbn [final]; [exact Hi|].
  apply inv_flush_if; [exact Hc|].
  apply inv_paint;
    [apply (proj1 (box_rect_nonneg st _)) | apply (proj2 (box_rect_nonneg st _))
    | exact Hi].
Qed.

Lemma inv_disk (st : Canvas) (lat lon d : Q) (color : rgba_t) (t : bool) :
  color_ok color -> invariant st ->
  invariant (final (disk st lat lon d color t)).
Proof.
  intros Hc Hi. unfold disk.
  set (R := box_rect st _). set (test := disk_test _ _).
  destruct (negative_dims R); cbn [final]; [exact Hi|].
  apply inv_flush_if; [exact Hc|]. apply inv_highlight_rect.
  apply inv_paint;
    [apply (proj1 (box_rect_nonneg st _)) | apply (proj2 (box_rect_nonneg st _))
    | exact Hi].
Qed.

Lemma inv_line_loop (w : Q) (color : rgba_t)
  (segs : list (option vec * option vec)) (st : Canvas) :
  color_ok color -> invariant st ->
  invariant (final (line_loop w color segs st)).
Proof.
  intros Hc. revert st. induction segs as [|seg segs IH]; intros st Hi; simpl.
  - exact Hi.
  - assert (Hb : invariant (final (line_body w color st seg))).
    { unfold line_body. destruct seg as [[v0|] [v1|]]; simpl; try exact Hi.
      destruct (vec2latlon v0) as [lat_0 lon_0].
      destruct (vec2latlon v1) as [lat_1 lon_1].
      now apply inv_line_segment_internal. }
    destruct (line_body w color st seg) as [st'|e st']; simpl in *.
    + now apply IH.
    + exact Hb.
Qed.

Lemma inv_exec (k : call) (st : Canvas) :
  color_ok (call_color k) -> invariant st -> invariant (final (exec k st)).
Proof.
  intros Hc Hi. destruct k; cbn [exec call_color final] in *.
  - now apply inv_transfer.
  - apply inv_flush_if; [exact Hc|]. now apply inv_select_all.
  - apply inv_flush_if; [exact Hc|]. now apply inv_select_all.
  - apply inv_flush_if; [exact Hc|]. now apply inv_select_all.
  - now apply inv_line_segment_internal.
  - unfold line.
    pose proof (inv_line_loop line_width color
                  (line_points lat_a lon_a lat_b lon_b) st Hc Hi) as Hl.
    destruct (line_loop _ _ _ _) as [st'|e st']; cbn [final] in *.
    + now apply inv_flush_if.
    + exact Hl.
  - now apply inv_disk.
Qed.

Lemma height_init (h : nat) : height (Canvas_init h) = h.
Proof. unfold height, Canvas_init. simpl. now rewrite length_map, length_seq. Qed.

Lemma xyz_init_row (h r : nat) :
  (r < h)%nat -> length (nth r (xyz (Canvas_init h)) []) = (2 * h)%nat.
Proof.
  intros Hr. unfold Canvas_init. simpl xyz.
  set (f := fun row : nat => _).
  rewrite (nth_indep _ [] (f 0%nat)) by now rewrite length_map, length_seq.
  rewrite (map_nth f (seq 0 h) 0%nat r). unfold f.
  rewrite length_map, length_combine, !length_map, length_seq. lia.
Qed.

Lemma width_init (h : nat) : (0 < h)%nat -> width (Canvas_init h) = (2 * h)%nat.
Proof. intros Hh. unfold width. now apply xyz_init_row. Qed.

Lemma wf_init (h : nat) : wf (Canvas_init h).
Proof.
  unfold wf. rewrite height_init.
  destruct h as [|h].
  - repeat split; intros r Hr; lia.
  - rewrite width_init by lia. split; [|split].
    + split; [apply height_init|]. intros r Hr. now apply xyz_init_row.
    + apply tabulate2_shape.
    + apply tabulate2_shape.
Qed.

Lemma inv_init (h : nat) : invariant (Canvas_init h).
Proof.
  split; [apply wf_init|]. split.
  - intros r c Hr Hc. left. rewrite height_init in Hr.
    rewrite width_init in Hc by lia. unfold Canvas_init. simpl canvas.
    rewrite at2_tabulate2 by lia. reflexivity.
  - intros r c Hr Hc. rewrite height_init in Hr.
    rewrite width_init in Hc by lia. unfold Canvas_init. simpl rgba.
    rewrite at2_tabulate2 by lia.
    repeat split; unfold byte; simpl; lia.
Qed.

Lemma reachable_invariant (st : Canvas) : reachable st -> invariant st.
Proof.
  induction 1 as [h|k st Hr IH Hc]; [apply inv_init | now apply inv_exec].
Qed.

(** C4: on a canvas the program can build, [transfer_canvas_to_rgba] with an
    all-zero mask leaves the RGBA buffer as it is, whatever the color; the
    mask stays zero. *)
Theorem transfer_zero_mask_noop (st : Canvas) (color : rgba_t) :
  reachable st -> mask_zero st ->
  rgba (transfer_canvas_to_rgba st color) = rgba st /\
  mask_zero (transfer_canvas_to_rgba st color).
Proof.
  intros Hr Hz. destruct (reachable_invariant st Hr) as (Hwf & _ & Hp).
  split.
  - simpl. apply (imap2_id _ (rgba st) rgba0).
    intros r c Hlr Hlc. destruct Hwf as (_ & _ & [Hl Hw]).
    rewrite Hl in Hlr. rewrite Hw in Hlc by exact Hlr.
    apply blend_transparent; [|now apply Hp].
    rewrite (Hz r c Hlr Hlc). ring.
  - intros r c Hlr Hlc. rewrite at2_transfer_canvas by assumption. reflexivity.
Qed.


(** ** Accumulation in the mask *)

Lemma np_maximum_spec (x y : Q) :
  x <= np_maximum x y /\ y <= np_maximum x y /\
  (np_maximum x y == x \/ np_maximum x y == y).
Proof.
  destruct (np_maximum_cases x y) as [[H ->]|[H ->]]; repeat split;
    try lra; (now left) || (now right).
Qed.











(** ** The bounded primitives and their rectangle *)

Lemma in_rect_dims (R : rect) (r c : nat) :
  in_rect R r c = true -> negative_dims R = false.
Proof.
  intros H. apply in_rect_spec in H. unfold negative_dims.
  apply orb_false_iff. rewrite !Z.ltb_ge. lia.
Qed.

(** The mask and the RGBA buffer after [disk] with [transfer=False]. *)
Lemma disk_deferred_at (st : Canvas) (lat lon d : Q) (color : rgba_t) (r c : nat) :
  wf st -> (r < height st)%nat -> (c < width st)%nat ->
  let R := box_rect st (disk_box lat lon d) in
  let test := disk_test (latlon2vec lat lon) (np_cos (0.5 * d * np_pi / 180)) in
  let st' := final (disk st lat lon d color false) in
  at2 0 (canvas st') r c
  = (if in_rect R r c
     then np_maximum (at2 0 (canvas st) r c)
            (if test (at2 vec0 (xyz st) r c) then 1 else 0)
     else at2 0 (canvas st) r c) /\
  at2 rgba0 (rgba st') r c
  = (if in_rect R r c then highlight (at2 rgba0 (rgba st) r c)
     else at2 rgba0 (rgba st) r c).
Proof.
  intros Hwf Hr Hc R test st'. unfold st', disk. fold R. fold test.
  destruct (box_rect_nonneg st (disk_box lat lon d)) as [N0 N1].
  destruct (negative_dims R) eqn:E; cbn [final flush_if].
  - destruct (in_rect R r c) eqn:I; [|split; reflexivity].
    apply in_rect_dims in I. congruence.
  - split.
    + now apply at2_paint.
    + apply (at2_highlight_rect (maximum_into st R (scan_rect st R test)) R r c);
        [now apply wf_maximum_into | exact Hr | exact Hc].
Qed.


(** C9: [disk] with [transfer=False] writes the half-and-half blend with 255
    into the red and alpha channels of the pixels of its rectangle, leaves
    these two channels elsewhere and the green and blue channels everywhere
    as they are, and does the same whatever the color argument. *)
Theorem disk_highlight_red_alpha (st : Canvas) (lat lon d : Q)
  (color color' : rgba_t) (r c : nat) :
  wf st -> (r < height st)%nat -> (c < width st)%nat ->
  let R := box_rect st (disk_box lat lon d) in
  let px := at2 rgba0 (rgba st) r c in
  let px' := at2 rgba0 (rgba (final (disk st lat lon d color false))) r c in
  chG px' = chG px /\ chB px' = chB px /\
  (in_rect R r c = true ->
     chR px' = to_uint8 (0.5 * inject_Z (chR px) + 0.5 * 255) /\
     chA px' = to_uint8 (0.5 * inject_Z (chA px) + 0.5 * 255)) /\
  (in_rect R r c = false -> px' = px) /\
  disk st lat lon d color' false = disk st lat lon d color false.
Proof.
  intros Hwf Hr Hc R px px'.
  destruct (disk_deferred_at st lat lon d color r c Hwf Hr Hc) as [_ E].
  fold R in E. fold px in E. fold px' in E. rewrite E.
  destruct (in_rect R r c); simpl; repeat split; try reflexivity;
    intros; discriminate.
Qed.

(** [disk] with [transfer=False] selects the pixels of [disk_simple] that lie
    in its rectangle: on a zero mask the two masks agree exactly where the
    pixel is in the rectangle or is not selected by the full scan. *)
Lemma disk_is_disk_simple_in_rect (st : Canvas) (lat lon d : Q)
  (color : rgba_t) (r c : nat) :
  wf st -> mask_zero st -> (r < height st)%nat -> (c < width st)%nat ->
  let R := box_rect st (disk_box lat lon d) in
  let full := at2 0 (canvas (disk_simple st lat lon d color false)) r c in
  let bounded := at2 0 (canvas (final (disk st lat lon d color false))) r c in
  (in_rect R r c = true -> bounded == full) /\
  (in_rect R r c = false -> bounded == 0).
Proof.
  intros Hwf Hz Hr Hc R full bounded.
  destruct (disk_deferred_at st lat lon d color r c Hwf Hr Hc) as [E _].
  fold R in E. fold bounded in E.
  assert (F : full = if disk_test (latlon2vec lat lon)
                          (np_cos (0.5 * d * np_pi / 180))
                          (at2 vec0 (xyz st) r c)
                     then 1 else at2 0 (canvas st) r c).
  { unfold full, disk_simple. simpl. now apply at2_select_all. }
  pose proof (Hz r c Hr Hc) as Z0.
  split; intros I; rewrite I in E; rewrite E.
  - rewrite F.
    destruct (np_maximum_spec (at2 0 (canvas st) r c)
      (if disk_test (latlon2vec lat lon) (np_cos (0.5 * d * np_pi / 180))
            (at2 vec0 (xyz st) r c) then 1 else 0)) as (A & B & C).
    destruct (disk_test _ _ _); lra.
  - exact Z0.
Qed.

(** ** Subdivision of a great-circle line *)

Lemma Qfloor_unique (x : Q) (z : Z) :
  inject_Z z <= x -> x < inject_Z (z + 1) -> Qfloor x = z.
Proof.
  intros H0 H1. pose proof (Qfloor_bounds x z (z + 1) H0 H1). lia.
Qed.






(** ** Degenerate endpoints *)


Lemma select_none (st : Canvas) : select_all st (fun _ => false) = st.
Proof.
  destruct st as [x m p]. unfold select_all. simpl. f_equal.
  apply (imap2_id _ m 0). reflexivity.
Qed.



(** ** New canvases *)

Lemma xyz_init_at (h r c : nat) :
  (r < h)%nat -> (c < 2 * h)%nat ->
  at2 vec0 (xyz (Canvas_init h)) r c
  = latlon2vec (row2lat (Z.of_nat h) (inject_Z (Z.of_nat r)))
               (col2lon (Z.of_nat h) (inject_Z (Z.of_nat c))).
Proof.
  intros Hr Hc. unfold at2, Canvas_init. cbn [xyz].
  set (f := fun row : nat => _).
  rewrite (nth_indep _ [] (f 0%nat)) by now rewrite length_map, length_seq.
  rewrite (map_nth f (seq 0 h) 0%nat r). unfold f. clear f.
  rewrite seq_nth by exact Hr. cbn [Nat.add].
  set (g := fun cs : Q * Q => _).
  rewrite (nth_indep _ vec0 (g (0, 0)))
    by (rewrite length_map, length_combine, !length_map, length_seq; lia).
  rewrite (map_nth g _ (0, 0) c). unfold g. clear g.
  rewrite combine_nth by now rewrite !length_map.
  set (lonf := fun c0 : nat => _).
  rewrite (nth_indep _ 0 (np_cos (lonf 0%nat * np_pi / 180)))
    by (rewrite !length_map, length_seq; lia).
  rewrite (nth_indep (map (fun l => np_sin _) _) 0 (np_sin (lonf 0%nat * np_pi / 180)))
    by (rewrite !length_map, length_seq; lia).
  rewrite !map_map.
  rewrite (map_nth (fun x => np_cos (lonf x * np_pi / 180)) _ 0%nat c).
  rewrite (map_nth (fun x => np_sin (lonf x * np_pi / 180)) _ 0%nat c).
  rewrite seq_nth by exact Hc. reflexivity.
Qed.

Lemma canvas_init_at (h r c : nat) :
  (r < h)%nat -> (c < 2 * h)%nat -> at2 0 (canvas (Canvas_init h)) r c = 0.
Proof.
  intros Hr Hc. unfold Canvas_init. cbn [canvas].
  now apply (at2_tabulate2 h (2 * h) (fun _ _ => 0) r c 0).
Qed.

Lemma mask_zero_init (h : nat) : mask_zero (Canvas_init h).
Proof.
  intros r c Hr Hc. rewrite height_init in Hr.
  rewrite width_init in Hc by lia. now rewrite canvas_init_at.
Qed.


Lemma rgba_ok_bytes (st : Canvas) : rgba_ok st -> rgba_bytes st.
Proof. intros H r c Hr Hc. now apply H. Qed.

End Drawing.

(** * Evaluations with the rational implementation of NumPy *)

Lemma color_ok_literal (r g b a : Z) :
  (0 <=? r)%Z && (r <=? 255)%Z && (0 <=? g)%Z && (g <=? 255)%Z &&
  (0 <=? b)%Z && (b <=? 255)%Z && (0 <=? a)%Z && (a <=? 255)%Z = true ->
  color_ok (RGBA r g b a).
Proof.
  rewrite !andb_true_iff, !Z.leb_le. unfold color_ok, byte. simpl. tauto.
Qed.

(** C4 on a new canvas. *)
Lemma transfer_zero_mask_noop_witness :
  rgba (transfer_canvas_to_rgba (Canvas_init (H := ref_numpy) 2) half_red)
  = rgba (Canvas_init (H := ref_numpy) 2).
Proof.
  exact (proj1 (transfer_zero_mask_noop (np := ref_numpy) _ half_red
                  (reach_init 2) (mask_zero_init 2))).
Defined.


(** C9 at the first pixel of a 2 x 4 canvas. *)
Lemma disk_highlight_red_alpha_witness :
  let st := Canvas_init (H := ref_numpy) 2 in
  let px' := at2 rgba0 (rgba (final (disk (H := ref_numpy) st 0 0 20 white false))) 0 0 in
  chG px' = 0%Z /\ chB px' = 0%Z /\
  disk (H := ref_numpy) st 0 0 20 opaque_red false
  = disk (H := ref_numpy) st 0 0 20 white false.
Proof.
  intros st px'.
  assert (Hr : (0 < height st)%nat) by (vm_compute; lia).
  assert (Hc : (0 < width st)%nat) by (vm_compute; lia).
  destruct (disk_highlight_red_alpha (np := ref_numpy) st 0 0 20 white opaque_red
              0 0 (wf_init 2) Hr Hc) as (G & B & _ & _ & E).
  split; [exact G|]. split; [exact B | exact E].
Defined.

(** The flush that ends a call with [transfer=True] is not bounded by the
    rectangle: on an 8 x 16 canvas a disk is accumulated around the pixel
    (1, 2); a second disk with [transfer=True], whose rectangle is rows 5..7
    and columns 11..13, then paints that pixel and clears its mask entry. *)
Lemma disk_transfer_writes_outside_rectangle :
  let st1 := disk_simple (H := ref_numpy) (Canvas_init (H := ref_numpy) 8)
               (5625 # 100) (-12375 # 100) 10 white false in
  let R := box_rect st1 (disk_box (H := ref_numpy) (-60) 100 2) in
  let st2 := final (disk (H := ref_numpy) st1 (-60) 100 2 opaque_red true) in
  R = mkRect 5 8 11 14 /\ in_rect R 1 2 = false /\
  at2 0 (canvas st1) 1 2 = 1 /\ at2 0 (canvas st2) 1 2 = 0 /\
  at2 rgba0 (rgba st1) 1 2 = rgba0 /\ at2 rgba0 (rgba st2) 1 2 = opaque_red.
Proof. vm_compute. repeat split; reflexivity. Qed.

(** C5, where the code departs from it: on the default canvas (height 1024)
    the bounded disk of diameter 40 around latitude 45, longitude 0 stops at
    column 1185, while the full scan selects the pixel of row 234 and column
    1186: the dot product of its direction with the center is above the cosine
    of 20 degrees. *)
Lemma disk_clips_disk_simple :
  let st := Canvas_init (H := ref_numpy) 1024 in
  let R := box_rect st (disk_box (H := ref_numpy) 45 0 40) in
  R = mkRect 141 371 862 1186 /\
  at2 0 (canvas (disk_simple (H := ref_numpy) st 45 0 40 white false)) 234 1186 = 1 /\
  at2 0 (canvas (final (disk (H := ref_numpy) st 45 0 40 white false))) 234 1186 = 0.
Proof.
  intros st R.
  assert (Hh : height st = 1024%nat) by apply height_init.
  assert (Hw : width st = 2048%nat) by (apply (width_init 1024); lia).
  assert (Hr : (234 < height st)%nat) by (rewrite Hh; lia).
  assert (Hc : (1186 < width st)%nat) by (rewrite Hw; lia).
  assert (ER : R = mkRect 141 371 862 1186).
  { unfold R, box_rect. rewrite Hh, Hw. vm_compute. reflexivity. }
  split; [exact ER|]. split.
  - unfold disk_simple, flush_if.
    rewrite at2_select_all by (assumption || apply wf_init).
    unfold st. rewrite xyz_init_at by lia.
    match goal with
    | |- context [disk_test ?a ?b ?p] =>
        assert (T : disk_test a b p = true) by (vm_compute; reflexivity);
        rewrite T
    end.
    reflexivity.
  - destruct (disk_deferred_at (np := ref_numpy) st 45 0 40 white 234 1186
                (wf_init 1024) Hr Hc) as [E _].
    rewrite E. fold R. rewrite ER.
    replace (in_rect _ _ _) with false by (vm_compute; reflexivity).
    unfold st. apply canvas_init_at; lia.
Qed.






(** * Further properties of the code *)

(** ** Projection utilities *)

Lemma inject_Z_pos (h : Z) : (0 < h)%Z -> 0 < inject_Z h.
Proof. intros H. change 0 with (inject_Z 0). now rewrite <- Zlt_Qlt. Qed.

(** X1: the row of the latitude of the center of a row is that row, and the
    column of the longitude of the center of a column is that column, for
    every integer index and every positive height. *)
Theorem pixel_center_round_trip (H row col : Z) :
  (0 < H)%Z ->
  lat2row H (row2lat H (inject_Z row)) = row /\
  lon2col H (col2lon H (inject_Z col)) = col.
Proof.
  intros HH. pose proof (inject_Z_pos H HH) as Hq.
  assert (N : ~ inject_Z H == 0) by lra.
  split.
  - unfold lat2row, row2lat. apply Qfloor_unique.
    + assert (E : (90 - (90 - 180 * (inject_Z row + 0.5) / inject_Z H))
                  * inject_Z H / 180 == inject_Z row + 0.5) by (field; exact N).
      rewrite E. lra.
    + assert (E : (90 - (90 - 180 * (inject_Z row + 0.5) / inject_Z H))
                  * inject_Z H / 180 == inject_Z row + 0.5) by (field; exact N).
      rewrite E, inject_Z_plus. change (inject_Z 1) with 1. lra.
  - unfold lon2col, col2lon. apply Qfloor_unique.
    + assert (E : (180 * (inject_Z col + 0.5) / inject_Z H - 180 + 180)
                  * inject_Z H / 180 == inject_Z col + 0.5) by (field; exact N).
      rewrite E. lra.
    + assert (E : (180 * (inject_Z col + 0.5) / inject_Z H - 180 + 180)
                  * inject_Z H / 180 == inject_Z col + 0.5) by (field; exact N).
      rewrite E, inject_Z_plus. change (inject_Z 1) with 1. lra.
Qed.

Lemma half_pixel (h x y : Q) (k : Z) :
  0 < h -> inject_Z k <= x -> x < inject_Z k + 1 ->
  y == 180 * (x - (inject_Z k + 0.5)) / h ->
  Qabs y <= 90 / h.
Proof.
  intros Hh Hlo Hhi Ey.
  assert (N : ~ h == 0) by lra.
  apply Qabs_Qle_condition. rewrite Ey. split.
  - assert (E : - (90 / h) == 180 * (- (1 # 2)) / h) by (field; exact N).
    rewrite E. apply Qle_shift_div_l; [exact Hh|].
    assert (E' : 180 * - (1 # 2) / h * h == 180 * - (1 # 2)) by (field; exact N).
    rewrite E'. lra.
  - apply Qle_shift_div_r; [exact Hh|].
    assert (E' : 90 / h * h == 90) by (field; exact N).
    rewrite E'. lra.
Qed.

(** X2: the center of the pixel that [lat2row] and [lon2col] give for a
    latitude and a longitude is within half a pixel (90/H degrees) of them. *)
Theorem containing_pixel_center (H : Z) (lat lon : Q) :
  (0 < H)%Z ->
  Qabs (row2lat H (inject_Z (lat2row H lat)) - lat) <= 90 / inject_Z H /\
  Qabs (col2lon H (inject_Z (lon2col H lon)) - lon) <= 90 / inject_Z H.
Proof.
  intros HH. pose proof (inject_Z_pos H HH) as Hq.
  assert (N : ~ inject_Z H == 0) by lra.
  split.
  - unfold lat2row. set (x := (90 - lat) * inject_Z H / 180).
    pose proof (Qfloor_le x) as F0. pose proof (Qlt_floor x) as F1.
    rewrite inject_Z_plus in F1. change (inject_Z 1) with 1 in F1.
    apply (half_pixel (inject_Z H) x _ (Qfloor x) Hq F0 F1).
    unfold row2lat. generalize (inject_Z (Qfloor x)). intros k.
    unfold x. field. exact N.
  - unfold lon2col. set (x := (lon + 180) * inject_Z H / 180).
    pose proof (Qfloor_le x) as F0. pose proof (Qlt_floor x) as F1.
    rewrite inject_Z_plus in F1. change (inject_Z 1) with 1 in F1.
    rewrite <- Qabs_opp.
    apply (half_pixel (inject_Z H) x _ (Qfloor x) Hq F0 F1).
    unfold col2lon. generalize (inject_Z (Qfloor x)). intros k.
    unfold x. field. exact N.
Qed.

Lemma lat2row_antitone (H : Z) (a b : Q) :
  (0 < H)%Z -> a <= b -> (lat2row H b <= lat2row H a)%Z.
Proof.
  intros HH Hab. pose proof (inject_Z_pos H HH) as Hq.
  apply Qfloor_resp_le. apply Qle_shift_div_l; [reflexivity|].
  assert (E : (90 - b) * inject_Z H / 180 * 180 == (90 - b) * inject_Z H)
    by field.
  rewrite E. apply Qmult_le_compat_r; lra.
Qed.

Lemma lon2col_monotone (H : Z) (a b : Q) :
  (0 < H)%Z -> a <= b -> (lon2col H a <= lon2col H b)%Z.
Proof.
  intros HH Hab. pose proof (inject_Z_pos H HH) as Hq.
  apply Qfloor_resp_le. apply Qle_shift_div_l; [reflexivity|].
  assert (E : (a + 180) * inject_Z H / 180 * 180 == (a + 180) * inject_Z H)
    by field.
  rewrite E. apply Qmult_le_compat_r; lra.
Qed.

(** X3: rows grow as the latitude falls and columns grow with the longitude. *)
Theorem lat2row_lon2col_monotone (H : Z) (a b : Q) :
  (0 < H)%Z -> a <= b ->
  (lat2row H b <= lat2row H a)%Z /\ (lon2col H a <= lon2col H b)%Z.
Proof.
  intros HH Hab. split; [now apply lat2row_antitone | now apply lon2col_monotone].
Qed.

(** X4: the center of every pixel of the image lies strictly inside the
    domain: latitude in (-90, 90) and longitude in (-180, 180). *)
Theorem pixel_centers_interior (H row col : Z) :
  (0 <= row < H)%Z -> (0 <= col < 2 * H)%Z ->
  -90 < row2lat H (inject_Z row) /\ row2lat H (inject_Z row) < 90 /\
  -180 < col2lon H (inject_Z col) /\ col2lon H (inject_Z col) < 180.
Proof.
  intros [R0 R1] [C0 C1].
  assert (HH : (0 < H)%Z) by lia. pose proof (inject_Z_pos H HH) as Hq.
  assert (N : ~ inject_Z H == 0) by lra.
  assert (Qr : 0 <= inject_Z row /\ inject_Z row + 1 <= inject_Z H).
  { split; [change 0 with (inject_Z 0); now rewrite <- Zle_Qle|].
    change 1 with (inject_Z 1). rewrite <- inject_Z_plus, <- Zle_Qle. lia. }
  assert (Qc : 0 <= inject_Z col /\ inject_Z col + 1 <= 2 * inject_Z H).
  { split; [change 0 with (inject_Z 0); now rewrite <- Zle_Qle|].
    change 1 with (inject_Z 1). change 2 with (inject_Z 2).
    rewrite <- inject_Z_plus, <- inject_Z_mult, <- Zle_Qle. lia. }
  assert (A : 0 < 180 * (inject_Z row + 0.5) / inject_Z H)
    by (apply Qlt_shift_div_l; lra).
  assert (B : 180 * (inject_Z row + 0.5) / inject_Z H < 180)
    by (apply Qlt_shift_div_r; lra).
  assert (C : 0 < 180 * (inject_Z col + 0.5) / inject_Z H)
    by (apply Qlt_shift_div_l; lra).
  assert (D : 180 * (inject_Z col + 0.5) / inject_Z H < 360)
    by (apply Qlt_shift_div_r; lra).
  unfold row2lat, col2lon. repeat split; lra.
Qed.

(** ** Arrays, again *)

Lemma imap_from_ext {A B} (f g : nat -> A -> B) (l : list A) (i : nat) (d : A) :
  (forall n, (n < length l)%nat -> f (i + n)%nat (nth n l d) = g (i + n)%nat (nth n l d)) ->
  imap_from f i l = imap_from g i l.
Proof.
  revert i. induction l as [|x l IH]; intros i Hf; simpl; [reflexivity|].
  f_equal.
  - specialize (Hf 0%nat). simpl in Hf. rewrite Nat.add_0_r in Hf.
    apply Hf. lia.
  - apply IH. intros n Hn. specialize (Hf (S n)). simpl in Hf.
    replace (S i + n)%nat with (i + S n)%nat by lia. apply Hf. lia.
Qed.

Lemma imap2_ext {A B} (f g : nat -> nat -> A -> B) (m : array2 A) (d : A) :
  (forall r c, (r < length m)%nat -> (c < length (nth r m []))%nat ->
     f r c (at2 d m r c) = g r c (at2 d m r c)) ->
  imap2 f m = imap2 g m.
Proof.
  intros Hf. unfold imap2, imap. apply (imap_from_ext _ _ m 0 []).
  intros r Hr. simpl. apply (imap_from_ext _ _ _ 0 d).
  intros c Hc. simpl. now apply Hf.
Qed.

Lemma imap_from_compose {A B C} (f : nat -> A -> B) (g : nat -> B -> C)
  (l : list A) (i : nat) :
  imap_from g i (imap_from f i l) = imap_from (fun n x => g n (f n x)) i l.
Proof.
  revert i. induction l as [|x l IH]; intros i; simpl; [reflexivity|].
  now rewrite IH.
Qed.

Lemma imap2_compose {A B C} (f : nat -> nat -> A -> B) (g : nat -> nat -> B -> C)
  (m : array2 A) :
  imap2 g (imap2 f m) = imap2 (fun r c x => g r c (f r c x)) m.
Proof.
  unfold imap2, imap. rewrite imap_from_compose.
  apply (imap_from_ext _ _ m 0 []). intros r Hr. simpl.
  apply imap_from_compose.
Qed.

(** ** The compositor, again *)

Lemma blend_opaque (color px : rgba_t) (m : Q) :
  color_ok color -> chA color = 255%Z -> m == 1 -> blend color m px = color.
Proof.
  intros (CR & CG & CB & CA) EA M1.
  destruct color as [cr cg cb ca]. simpl in *. subst ca. unfold blend. simpl.
  set (E := inject_Z (chA px)).
  set (alpha := inject_Z 255 / 255 * m).
  set (ao := alpha + (1 - alpha) * E / 255).
  assert (Ea : alpha == 1) by (unfold alpha; rewrite M1; reflexivity).
  assert (Eo : ao == 1) by (unfold ao; rewrite Ea; field).
  assert (G : Qltb 0 ao = true) by (apply Qltb_lt; lra).
  rewrite G.
  assert (Et : alpha / ao == 1) by (rewrite Ea, Eo; reflexivity).
  assert (Eb : (1 - alpha) * (E / 255) / ao == 0) by (rewrite Ea, Eo; field).
  f_equal; apply to_uint8_Z; try assumption; try (unfold byte; lia);
    rewrite ?Et, ?Eb, ?Eo; ring.
Qed.

Lemma flush_keeps_rgba (st : Canvas) (color : rgba_t) :
  invariant st ->
  (forall r c, (r < height st)%nat -> (c < width st)%nat ->
     inject_Z (chA color) / 255 * at2 0 (canvas st) r c == 0) ->
  rgba (transfer_canvas_to_rgba st color) = rgba st.
Proof.
  intros (Hwf & _ & Hp) Hz. simpl. apply (imap2_id _ (rgba st) rgba0).
  intros r c Hlr Hlc. destruct Hwf as (_ & _ & [Hl Hw]).
  rewrite Hl in Hlr. rewrite Hw in Hlc by exact Hlr.
  apply blend_transparent; [now apply Hz | now apply Hp].
Qed.

(** ** Calls *)

(** The call with [transfer=False] in place of its flag. *)
Definition deferred (k : call) : call :=
  match k with
  | Transfer color => Transfer color
  | DiskSimple lat lon d color _ => DiskSimple lat lon d color false
  | CircleSimple lat lon d w color _ => CircleSimple lat lon d w color false
  | LineSimple la lo lb lob w color _ => LineSimple la lo lb lob w color false
  | LineSegmentInternal la lo lb lob w color _ =>
      LineSegmentInternal la lo lb lob w color false
  | Line la lo lb lob w color _ => Line la lo lb lob w color false
  | Disk lat lon d color _ => Disk lat lon d color false
  end.

(** The call is a primitive, not [transfer_canvas_to_rgba] itself. *)
Definition is_primitive (k : call) : bool :=
  match k with Transfer _ => false | _ => true end.

Definition is_disk (k : call) : bool :=
  match k with Disk _ _ _ _ _ => true | _ => false end.

(** The full-scan primitives: [disk_simple], [circle_simple], [line_simple]. *)
Definition full_scan (k : call) : bool :=
  match k with
  | DiskSimple _ _ _ _ _ | CircleSimple _ _ _ _ _ _ | LineSimple _ _ _ _ _ _ _ => true
  | _ => false
  end.

(** The test that a full-scan primitive applies to the direction of a pixel. *)
Definition scan_test `{NumPy} (k : call) : vec -> bool :=
  match k with
  | DiskSimple lat lon d _ _ =>
      disk_test (latlon2vec lat lon) (np_cos (0.5 * d * np_pi / 180))
  | CircleSimple lat lon d w _ _ =>
      circle_test (latlon2vec lat lon)
        (np_cos ((0.5 * d - 0.5 * w) * np_pi / 180))
        (np_cos ((0.5 * d + 0.5 * w) * np_pi / 180))
  | LineSimple la lo lb lob w _ _ =>
      strip_test (great_circle_frame (latlon2vec la lo) (latlon2vec lb lob))
        (np_sin (0.5 * w * np_pi / 180))
  | _ => fun _ => false
  end.

Section MoreDrawing.

Context {np : NumPy}.

Lemma rgba_init_at (h r c : nat) :
  (r < h)%nat -> (c < 2 * h)%nat ->
  at2 rgba0 (rgba (Canvas_init h)) r c = rgba0.
Proof.
  intros Hr Hc. unfold Canvas_init. cbn [rgba].
  now apply (at2_tabulate2 h (2 * h) (fun _ _ => rgba0) r c rgba0).
Qed.

(** X5: a new canvas of height [h] has [h] rows and [2h] columns in its three
    arrays; its direction table holds, for every pixel, [latlon2vec] of the
    latitude of the row center and the longitude of the column center; its
    mask is zero and its RGBA buffer is (0,0,0,0) everywhere. *)
Theorem new_canvas_contents (h r c : nat) :
  (r < h)%nat -> (c < 2 * h)%nat ->
  let st := Canvas_init h in
  wf st /\ height st = h /\ width st = (2 * h)%nat /\
  at2 vec0 (xyz st) r c
  = latlon2vec (row2lat (Z.of_nat h) (inject_Z (Z.of_nat r)))
               (col2lon (Z.of_nat h) (inject_Z (Z.of_nat c))) /\
  at2 0 (canvas st) r c = 0 /\ at2 rgba0 (rgba st) r c = rgba0.
Proof.
  intros Hr Hc st. split; [apply wf_init|]. split; [apply height_init|].
  split; [apply width_init; lia|]. split; [now apply xyz_init_at|].
  split; [now apply canvas_init_at | now apply rgba_init_at].
Qed.

(** X6: where the mask is 1, a flush with a fully opaque color (alpha 255)
    stores exactly that color, whatever the pixel held. *)
Theorem transfer_opaque_paints_color (st : Canvas) (color : rgba_t) (r c : nat) :
  wf st -> color_ok color -> chA color = 255%Z ->
  (r < height st)%nat -> (c < width st)%nat ->
  at2 0 (canvas st) r c == 1 ->
  at2 rgba0 (rgba (transfer_canvas_to_rgba st color)) r c = color.
Proof.
  intros Hwf Hc HA Hr Hcol Hm. rewrite at2_transfer_rgba by assumption.
  now apply blend_opaque.
Qed.

(** X7: on a canvas the program can build, a flush changes no pixel whose
    mask entry is 0, and no pixel at all when the alpha of the color is 0. *)
Theorem transfer_keeps_uncovered (st : Canvas) (color : rgba_t) (r c : nat) :
  reachable st -> (r < height st)%nat -> (c < width st)%nat ->
  at2 0 (canvas st) r c == 0 \/ chA color = 0%Z ->
  at2 rgba0 (rgba (transfer_canvas_to_rgba st color)) r c
  = at2 rgba0 (rgba st) r c.
Proof.
  intros Hre Hr Hc Hz. destruct (reachable_invariant st Hre) as (Hwf & _ & Hp).
  rewrite at2_transfer_rgba by assumption.
  apply blend_transparent; [|now apply Hp].
  destruct Hz as [Hz|Hz]; [rewrite Hz; ring|].
  rewrite Hz. change (inject_Z 0) with 0. field.
Qed.

Lemma canvas_eq (a b : Canvas) :
  xyz a = xyz b -> canvas a = canvas b -> rgba a = rgba b -> a = b.
Proof. destruct a, b. simpl. intros -> -> ->. reflexivity. Qed.

(** X9: a second flush right after a flush changes nothing, whatever its
    color. *)
Theorem transfer_twice (st : Canvas) (color color' : rgba_t) :
  reachable st -> color_ok color ->
  transfer_canvas_to_rgba (transfer_canvas_to_rgba st color) color'
  = transfer_canvas_to_rgba st color.
Proof.
  intros Hre Hc.
  pose proof (inv_transfer st color Hc (reachable_invariant st Hre)) as Hi.
  assert (E : rgba (transfer_canvas_to_rgba (transfer_canvas_to_rgba st color) color')
              = rgba (transfer_canvas_to_rgba st color)).
  { apply flush_keeps_rgba; [exact Hi|]. intros r c Hr Hcol.
    rewrite at2_transfer_canvas; [ring | apply (reachable_invariant st Hre) | |];
      assumption. }
  apply canvas_eq; [reflexivity | | exact E].
  cbn [transfer_canvas_to_rgba canvas]. now rewrite imap2_compose.
Qed.

(** ** What calls keep *)

Lemma wf_flush_if (t : bool) (color : rgba_t) (st : Canvas) :
  wf st -> wf (flush_if t color st) /\ xyz (flush_if t color st) = xyz st.
Proof.
  intros H. destruct t; simpl; split; try reflexivity;
    [now apply wf_transfer | exact H].
Qed.

Lemma keeps_select_all (st : Canvas) (test : vec -> bool) (t : bool)
  (color : rgba_t) :
  wf st ->
  wf (flush_if t color (select_all st test)) /\
  xyz (flush_if t color (select_all st test)) = xyz st.
Proof.
  intros H.
  destruct (wf_flush_if t color (select_all st test)) as [A B];
    [now apply wf_select_all|].
  split; [exact A | now rewrite B].
Qed.

Lemma keeps_line_segment_internal (st : Canvas) (la lo lb lob w : Q)
  (color : rgba_t) (t : bool) :
  wf st ->
  wf (final (line_segment_internal st la lo lb lob w color t)) /\
  xyz (final (line_segment_internal st la lo lb lob w color t)) = xyz st.
Proof.
  intros H. unfold line_segment_internal.
  set (R := box_rect st _). set (test := segment_test _ _).
  destruct (negative_dims R); cbn [final]; [now split|].
  destruct (wf_flush_if t color (maximum_into st R (scan_rect st R test)))
    as [A B]; [now apply wf_maximum_into|].
  split; [exact A | now rewrite B].
Qed.

Lemma keeps_line_loop (w : Q) (color : rgba_t)
  (segs : list (option vec * option vec)) (st : Canvas) :
  wf st ->
  wf (final (line_loop w color segs st)) /\
  xyz (final (line_loop w color segs st)) = xyz st.
Proof.
  revert st. induction segs as [|seg segs IH]; intros st H; simpl.
  - now split.
  - assert (Hb : wf (final (line_body w color st seg)) /\
                 xyz (final (line_body w color st seg)) = xyz st).
    { unfold line_body. destruct seg as [[v0|] [v1|]]; cbn [final];
        try now split.
      destruct (vec2latlon v0) as [lat_0 lon_0].
      destruct (vec2latlon v1) as [lat_1 lon_1].
      now apply keeps_line_segment_internal. }
    destruct (line_body w color st seg) as [st'|e st']; cbn [final] in *;
      [|exact Hb].
    destruct Hb as [Hb1 Hb2]. destruct (IH st' Hb1) as [I1 I2].
    split; [exact I1 | congruence].
Qed.

Lemma exec_keeps (k : call) (st : Canvas) :
  wf st ->
  wf (final (exec k st)) /\ xyz (final (exec k st)) = xyz st.
Proof.
  intros H. destruct k; cbn [exec final].
  - split; [now apply wf_transfer | reflexivity].
  - now apply keeps_select_all.
  - now apply keeps_select_all.
  - now apply keeps_select_all.
  - now apply keeps_line_segment_internal.
  - unfold line.
    pose proof (keeps_line_loop line_width color
                  (line_points lat_a lon_a lat_b lon_b) st H) as [L1 L2].
    destruct (line_loop _ _ _ _) as [st'|e st']; cbn [final] in *.
    + destruct (wf_flush_if transfer color st' L1) as [A B].
      split; [exact A | congruence].
    + now split.
  - unfold disk. set (R := box_rect st _). set (test := disk_test _ _).
    destruct (negative_dims R); cbn [final]; [now split|].
    destruct (wf_flush_if transfer color
                (highlight_rect (maximum_into st R (scan_rect st R test)) R))
      as [A B]; [now apply wf_highlight_rect, wf_maximum_into|].
    split; [exact A | now rewrite B].
Qed.

(** X10: no call changes the direction table, and every call leaves the
    three arrays with their shape, whether it returns or raises. *)
Theorem calls_keep_direction_table (k : call) (st : Canvas) :
  wf st ->
  wf (final (exec k st)) /\ xyz (final (exec k st)) = xyz st.
Proof. apply exec_keeps. Qed.

Lemma line_loop_rgba (w : Q) (color : rgba_t)
  (segs : list (option vec * option vec)) (st : Canvas) :
  rgba (final (line_loop w color segs st)) = rgba st.
Proof.
  revert st. induction segs as [|seg segs IH]; intros st; simpl; [reflexivity|].
  assert (Hb : rgba (final (line_body w color st seg)) = rgba st).
  { unfold line_body. destruct seg as [[v0|] [v1|]]; cbn [final];
      try reflexivity.
    destruct (vec2latlon v0) as [lat_0 lon_0].
    destruct (vec2latlon v1) as [lat_1 lon_1].
    unfold line_segment_internal. set (R := box_rect st _).
    destruct (negative_dims R); reflexivity. }
  destruct (line_body w color st seg) as [st'|e st']; cbn [final] in *;
    [|exact Hb].
  now rewrite IH.
Qed.

Lemma deferred_line_rgba (st : Canvas) (la lo lb lob w : Q) (color : rgba_t) :
  rgba (final (exec (Line la lo lb lob w color false) st)) = rgba st.
Proof.
  cbn [exec]. unfold line.
  pose proof (line_loop_rgba w color (line_points la lo lb lob) st) as L.
  destruct (line_loop _ _ _ _) as [st'|e st']; exact L.
Qed.

(** X11: with [transfer=False], every primitive except [disk] leaves the RGBA
    buffer as it is, whether it returns or raises. *)
Theorem deferred_calls_keep_rgba (k : call) (st : Canvas) :
  call_transfer k = false -> is_disk k = false ->
  rgba (final (exec k st)) = rgba st.
Proof.
  intros Ht Hd. destruct k; cbn [call_transfer is_disk] in *;
    try discriminate; subst transfer; cbn [exec final]; try reflexivity.
  - unfold line_segment_internal. set (R := box_rect st _).
    destruct (negative_dims R); reflexivity.
  - unfold line.
    pose proof (line_loop_rgba line_width color
                  (line_points lat_a lon_a lat_b lon_b) st) as L.
    destruct (line_loop _ _ _ _) as [st'|e st']; exact L.
Qed.

Lemma exec_flag_split (k : call) (st : Canvas) :
  is_primitive k = true -> call_transfer k = true ->
  exec k st
  = match exec (deferred k) st with
    | Returns s => Returns (transfer_canvas_to_rgba s (call_color k))
    | Raises e s => Raises e s
    end.
Proof.
  intros Hp Ht. destruct k; cbn [is_primitive call_transfer] in *;
    try discriminate; subst transfer; cbn [exec deferred call_color];
    try reflexivity.
  - unfold line_segment_internal. set (R := box_rect st _).
    destruct (negative_dims R); reflexivity.
  - unfold line. destruct (line_loop _ _ _ _); reflexivity.
  - unfold disk. set (R := box_rect st _).
    destruct (negative_dims R); reflexivity.
Qed.

(** X12: a call that flushes and returns leaves the mask all zero. *)
Theorem flushing_call_clears_mask (k : call) (st st' : Canvas) :
  wf st -> call_transfer k = true -> exec k st = Returns st' -> mask_zero st'.
Proof.
  intros Hwf Ht He.
  assert (Hz : forall s c, wf s -> mask_zero (transfer_canvas_to_rgba s c)).
  { intros s c Hs r col Hr Hc. rewrite at2_transfer_canvas by assumption.
    reflexivity. }
  destruct (is_primitive k) eqn:Hp.
  - rewrite (exec_flag_split k st Hp Ht) in He.
    pose proof (exec_keeps (deferred k) st Hwf) as [Hw _].
    destruct (exec (deferred k) st) as [s|e s]; [|discriminate].
    injection He as <-. apply Hz. exact Hw.
  - destruct k; try discriminate. cbn [exec] in He. injection He as <-.
    now apply Hz.
Qed.

(** ** Accumulation of full scans *)

Lemma exec_full_scan (k : call) (st : Canvas) :
  full_scan k = true ->
  exec k st
  = Returns (flush_if (call_transfer k) (call_color k)
               (select_all st (scan_test k))).
Proof. intros H. destruct k; try discriminate; reflexivity. Qed.

Lemma select_all_twice (st : Canvas) (t1 t2 : vec -> bool) :
  select_all (select_all st t1) t2
  = select_all st (fun p => t1 p || t2 p).
Proof.
  apply canvas_eq; try reflexivity.
  cbn [select_all canvas xyz]. rewrite imap2_compose.
  apply (imap2_ext _ _ (canvas st) 0). intros r c _ _.
  destruct (t1 _), (t2 _); reflexivity.
Qed.

Lemma select_all_ext (st : Canvas) (t1 t2 : vec -> bool) :
  (forall p, t1 p = t2 p) -> select_all st t1 = select_all st t2.
Proof.
  intros H. apply canvas_eq; try reflexivity. cbn [select_all canvas].
  apply (imap2_ext _ _ (canvas st) 0). intros r c _ _. now rewrite H.
Qed.

(** X13: without a flush in between, two full-scan primitives
    ([disk_simple], [circle_simple], [line_simple]) leave the same canvas in
    either order, and a primitive drawn twice leaves what it leaves once. *)
Theorem full_scans_commute (k1 k2 : call) (st : Canvas) :
  full_scan k1 = true -> full_scan k2 = true ->
  call_transfer k1 = false -> call_transfer k2 = false ->
  final (exec k2 (final (exec k1 st))) = final (exec k1 (final (exec k2 st))) /\
  final (exec k1 (final (exec k1 st))) = final (exec k1 st).
Proof.
  intros F1 F2 T1 T2.
  rewrite !(exec_full_scan k1) by exact F1.
  rewrite !(exec_full_scan k2) by exact F2.
  rewrite T1, T2. cbn [final flush_if]. rewrite !select_all_twice. split.
  - apply select_all_ext. intros p. apply orb_comm.
  - apply select_all_ext. intros p. apply orb_diag.
Qed.

(** X14: primitives accumulated without a flush are composited once: after
    two full scans with [transfer=False] on a canvas with a zero mask, the
    flush blends the color at full coverage into every pixel that either
    selects, and leaves the others as they are. *)
Theorem accumulated_union_flushed_once (k1 k2 : call) (st : Canvas)
  (color : rgba_t) (r c : nat) :
  reachable st -> mask_zero st ->
  full_scan k1 = true -> full_scan k2 = true ->
  call_transfer k1 = false -> call_transfer k2 = false ->
  (r < height st)%nat -> (c < width st)%nat ->
  let st2 := final (exec k2 (final (exec k1 st))) in
  let p := at2 vec0 (xyz st) r c in
  at2 rgba0 (rgba (transfer_canvas_to_rgba st2 color)) r c
  = if scan_test k1 p || scan_test k2 p
    then blend color 1 (at2 rgba0 (rgba st) r c)
    else at2 rgba0 (rgba st) r c.
Proof.
  intros Hre Hz F1 F2 T1 T2 Hr Hc st2 p.
  destruct (reachable_invariant st Hre) as (Hwf & _ & Hp).
  unfold st2. rewrite (exec_full_scan k1) by exact F1.
  rewrite (exec_full_scan k2) by exact F2.
  rewrite T1, T2. cbn [final flush_if]. rewrite select_all_twice.
  rewrite at2_transfer_rgba; [| now apply wf_select_all | exact Hr | exact Hc].
  rewrite at2_select_all by assumption. fold p.
  cbn [select_all rgba].
  destruct (scan_test k1 p || scan_test k2 p); [reflexivity|].
  apply blend_transparent; [|now apply Hp].
  rewrite (Hz r c Hr Hc). ring.
Qed.

(** X15: a ring of line width zero selects no pixel: [circle_simple] with
    [line_width=0] and [transfer=False] returns the canvas as it was. *)
Theorem zero_width_ring_is_empty (st : Canvas) (lat lon d : Q) (color : rgba_t) :
  circle_simple st lat lon d 0 color false = st.
Proof.
  unfold circle_simple. cbn [flush_if].
  rewrite <- (select_none st) at 2. apply select_all_ext. intros p.
  unfold circle_test.
  change (0.5 * d - 0.5 * 0) with (0.5 * d + 0.5 * 0).
  set (L := np_cos _). set (x := dot p _).
  destruct (Qltb x L) eqn:A, (Qltb L x) eqn:B; try reflexivity.
  apply Qltb_lt in A, B. lra.
Qed.

(** ** The rectangle of the bounded primitives *)

Lemma py_min_spec (a b : Q) : py_min a b <= a /\ py_min a b <= b.
Proof.
  unfold py_min. destruct (Qltb b a) eqn:E.
  - apply Qltb_lt in E. lra.
  - apply Qltb_ge in E. lra.
Qed.

Lemma py_max_spec (a b : Q) : a <= py_max a b /\ b <= py_max a b.
Proof.
  unfold py_max. destruct (Qltb a b) eqn:E.
  - apply Qltb_lt in E. lra.
  - apply Qltb_ge in E. lra.
Qed.

Lemma projection_corners (H : Z) :
  lat2row H 90 = 0%Z /\ lat2row H (-90) = H /\
  lon2col H (-180) = 0%Z /\ lon2col H 180 = (2 * H)%Z.
Proof.
  unfold lat2row, lon2col. repeat split; apply Qfloor_of_Z;
    rewrite ?inject_Z_mult; change (inject_Z 0) with 0;
    change (inject_Z 2) with 2; field.
Qed.

(** A box that meets the domain gives a rectangle with at least one row and
    one column. *)
Lemma box_rect_not_empty (st : Canvas) (b : bbox) :
  (0 < height st)%nat -> width st = (2 * height st)%nat ->
  min_lat b <= max_lat b -> min_lat b <= 90 -> -90 <= max_lat b ->
  min_lon b <= max_lon b -> min_lon b <= 180 -> -180 <= max_lon b ->
  (r0 (box_rect st b) < r1 (box_rect st b))%Z /\
  (c0 (box_rect st b) < c1 (box_rect st b))%Z.
Proof.
  intros Hh Hw L1 L2 L3 M1 M2 M3. unfold box_rect. cbn [r0 r1 c0 c1].
  rewrite Hw. set (H := Z.of_nat (height st)).
  assert (HH : (0 < H)%Z) by (unfold H; lia).
  replace (Z.of_nat (2 * height st)) with (2 * H)%Z by (unfold H; lia).
  destruct (projection_corners H) as (T & B & L & R).
  pose proof (lat2row_antitone H _ _ HH L1).
  pose proof (lat2row_antitone H _ _ HH L2) as P2. rewrite T in P2.
  pose proof (lat2row_antitone H _ _ HH L3) as P3. rewrite B in P3.
  pose proof (lon2col_monotone H _ _ HH M1).
  pose proof (lon2col_monotone H _ _ HH M2) as Q2. rewrite R in Q2.
  pose proof (lon2col_monotone H _ _ HH M3) as Q3. rewrite L in Q3.
  lia.
Qed.

Lemma not_empty_dims (R : rect) :
  (r0 R < r1 R)%Z -> (c0 R < c1 R)%Z -> negative_dims R = false.
Proof.
  intros A B. unfold negative_dims. apply orb_false_iff.
  rewrite !Z.ltb_ge. lia.
Qed.

Lemma scale_nonneg (x : Q) : 0 <= x -> 0 <= 1 / x.
Proof.
  intros H. unfold Qdiv. rewrite Qmult_1_l. now apply Qinv_le_0_compat.
Qed.

Lemma disk_box_meets (lat lon d : Q) :
  -90 <= lat <= 90 -> -180 <= lon <= 180 -> 0 <= d ->
  0 <= np_cos (lat * np_pi / 180) ->
  let b := disk_box lat lon d in
  min_lat b <= max_lat b /\ min_lat b <= 90 /\ -90 <= max_lat b /\
  min_lon b <= max_lon b /\ min_lon b <= 180 /\ -180 <= max_lon b.
Proof.
  intros Hlat Hlon Hd Hc. unfold disk_box. cbn [min_lat max_lat min_lon max_lon].
  pose proof (scale_nonneg _ Hc) as Hs.
  set (s := 1 / np_cos (lat * np_pi / 180)) in *.
  assert (P : 0 <= 0.5 * d * s) by (apply Qmult_le_0_compat; lra).
  set (t := 0.5 * d * s) in *. repeat split; lra.
Qed.

Lemma segment_box_meets (la lo lb lob w : Q) :
  -90 <= la <= 90 -> -90 <= lb <= 90 ->
  -180 <= lo <= 180 -> -180 <= lob <= 180 -> 0 <= w ->
  0 <= np_cos (py_max (Qabs la) (Qabs lb) * np_pi / 180) ->
  let b := segment_box la lo lb lob w in
  min_lat b <= max_lat b /\ min_lat b <= 90 /\ -90 <= max_lat b /\
  min_lon b <= max_lon b /\ min_lon b <= 180 /\ -180 <= max_lon b.
Proof.
  intros Ha Hb Hoa Hob Hw Hc. unfold segment_box.
  pose proof (scale_nonneg _ Hc) as Hs.
  set (s := 1 / np_cos _) in *.
  assert (P : 0 <= 0.5 * w * s) by (apply Qmult_le_0_compat; lra).
  set (t := 0.5 * w * s) in *.
  destruct (py_min_spec la lb) as [A1 A2]. destruct (py_max_spec la lb) as [A3 A4].
  destruct (py_min_spec lo lob) as [B1 B2]. destruct (py_max_spec lo lob) as [B3 B4].
  set (mla := py_min la lb) in *. set (Mla := py_max la lb) in *.
  set (mlo := py_min lo lob) in *. set (Mlo := py_max lo lob) in *.
  destruct (Qltb 85 (Mla + 0.5 * w)); destruct (Qltb (mla - 0.5 * w) (-85));
    cbv beta iota zeta;
    match goal with
    | |- context [if ?c then _ else _] => destruct c
    end; cbn [min_lat max_lat min_lon max_lon]; repeat split; lra.
Qed.





(** X16: on a canvas with at least one row and twice as many columns, [disk]
    and [line_segment_internal] called with latitudes in [-90, 90],
    longitudes in [-180, 180], a diameter or line width that is not negative
    and a cosine of the latitude that is not negative have a rectangle with
    at least one row and one column, and return: no [ValueError]. *)
Theorem bounded_primitives_return (st : Canvas)
  (lat lon d la lo lb lob w : Q) (color : rgba_t) (t : bool) :
  (0 < height st)%nat -> width st = (2 * height st)%nat ->
  -90 <= lat <= 90 -> -180 <= lon <= 180 -> 0 <= d ->
  0 <= np_cos (lat * np_pi / 180) ->
  -90 <= la <= 90 -> -90 <= lb <= 90 ->
  -180 <= lo <= 180 -> -180 <= lob <= 180 -> 0 <= w ->
  0 <= np_cos (py_max (Qabs la) (Qabs lb) * np_pi / 180) ->
  let Rd := box_rect st (disk_box lat lon d) in
  let Rs := box_rect st (segment_box la lo lb lob w) in
  ((r0 Rd < r1 Rd)%Z /\ (c0 Rd < c1 Rd)%Z /\
   exists st', disk st lat lon d color t = Returns st') /\
  ((r0 Rs < r1 Rs)%Z /\ (c0 Rs < c1 Rs)%Z /\
   exists st', line_segment_internal st la lo lb lob w color t = Returns st').
Proof.
  intros Hh Hw Hlat Hlon Hd Hc Ha Hb Hoa Hob Hlw Hcs Rd Rs. split.
  - destruct (disk_box_meets lat lon d Hlat Hlon Hd Hc) as (A & B & C & D & E & F).
    destruct (box_rect_not_empty st _ Hh Hw A B C D E F) as [R C'].
    split; [exact R|]. split; [exact C'|].
    unfold disk. rewrite (not_empty_dims _ R C'). eauto.
  - destruct (segment_box_meets la lo lb lob w Ha Hb Hoa Hob Hlw Hcs)
      as (A & B & C & D & E & F).
    destruct (box_rect_not_empty st _ Hh Hw A B C D E F) as [R C'].
    split; [exact R|]. split; [exact C'|].
    unfold line_segment_internal. rewrite (not_empty_dims _ R C'). eauto.
Qed.

(** ** Invariants *)

(** X17: every canvas a program can build (a new canvas, then any calls with
    colors in 0..255, returned or raised) has well-shaped arrays, a mask of
    zeros and ones, channels in 0..255, and no color left in a pixel whose
    alpha is 0. *)
Theorem reachable_canvas_invariant (st : Canvas) (r c : nat) :
  reachable st -> (r < height st)%nat -> (c < width st)%nat ->
  wf st /\
  (at2 0 (canvas st) r c == 0 \/ at2 0 (canvas st) r c == 1) /\
  color_ok (at2 rgba0 (rgba st) r c) /\
  (chA (at2 rgba0 (rgba st) r c) = 0%Z -> at2 rgba0 (rgba st) r c = rgba0).
Proof.
  intros Hre Hr Hc. destruct (reachable_invariant st Hre) as (Hwf & Hm & Hp).
  split; [exact Hwf|]. split; [now apply Hm|]. now apply Hp.
Qed.

(** ** Vectors *)

(** X18: when the normal has a non-zero length, the frame of a line is
    orthogonal: [orth] is orthogonal to both endpoints, and each of [along_a]
    and [along_b] is orthogonal to [orth] and to its endpoint. *)
Theorem great_circle_frame_orthogonal (vec_a vec_b : vec) (f : frame) :
  great_circle_frame vec_a vec_b = Some f ->
  dot (orth f) vec_a == 0 /\ dot (orth f) vec_b == 0 /\
  dot (along_a f) (orth f) == 0 /\ dot (along_a f) vec_a == 0 /\
  dot (along_b f) (orth f) == 0 /\ dot (along_b f) vec_b == 0.
Proof.
  unfold great_circle_frame, np_divide_vec.
  destruct (Qeq_bool _ 0); [discriminate|].
  intros E. injection E as <-. cbn [orth along_a along_b].
  generalize (/ np_sqrt (sum_sq (cross vec_a vec_b))). intros n.
  destruct vec_a as [[ax ay] az], vec_b as [[bx by'] bz]. simpl.
  repeat split; ring.
Qed.

(** ** A first primitive on a new canvas *)

Lemma blend_on_blank (color : rgba_t) (m : Q) :
  color_ok color -> (0 < chA color)%Z -> m == 1 -> blend color m rgba0 = color.
Proof.
  intros (CR & CG & CB & CA) HA M1.
  destruct color as [cr cg cb ca]. simpl in *. unfold blend. simpl.
  set (A := inject_Z ca).
  assert (PA : 0 < A) by (unfold A; now apply inject_Z_pos).
  set (alpha := A / 255 * m).
  assert (Ea : alpha == A / 255) by (unfold alpha; rewrite M1; ring).
  assert (Pa : 0 < alpha).
  { rewrite Ea. apply Qlt_shift_div_l; [reflexivity|]. lra. }
  set (ao := alpha + (1 - alpha) * inject_Z 0 / 255).
  assert (Eo : ao == alpha) by (unfold ao; change (inject_Z 0) with 0; field).
  assert (G : Qltb 0 ao = true) by (apply Qltb_lt; lra).
  rewrite G.
  assert (N : ~ alpha == 0) by lra.
  assert (Et : alpha / ao == 1) by (rewrite Eo; field; exact N).
  assert (Eb : (1 - alpha) * (inject_Z 0 / 255) / ao == 0)
    by (rewrite Eo; change (inject_Z 0) with 0; field; exact N).
  f_equal; apply to_uint8_Z; try assumption;
    rewrite ?Et, ?Eb, ?Eo, ?Ea; try ring.
  fold A. field.
Qed.

(** X20: [disk_simple] with a color of alpha above 0 and [transfer=True] on
    a new canvas leaves that color, with its own alpha, in exactly the pixels
    whose direction passes the test of the disk, (0,0,0,0) in the others, and
    a zero mask. *)
Theorem disk_simple_on_new_canvas (h : nat) (lat lon d : Q) (color : rgba_t)
  (r c : nat) :
  color_ok color -> (0 < chA color)%Z -> (r < h)%nat -> (c < 2 * h)%nat ->
  let st' := disk_simple (Canvas_init h) lat lon d color true in
  let p := latlon2vec (row2lat (Z.of_nat h) (inject_Z (Z.of_nat r)))
                      (col2lon (Z.of_nat h) (inject_Z (Z.of_nat c))) in
  at2 rgba0 (rgba st') r c
  = (if disk_test (latlon2vec lat lon) (np_cos (0.5 * d * np_pi / 180)) p
     then color else rgba0) /\
  at2 0 (canvas st') r c = 0.
Proof.
  intros Hc HA Hr Hcol st' p.
  assert (Hr' : (r < height (Canvas_init h))%nat) by now rewrite height_init.
  assert (Hc' : (c < width (Canvas_init h))%nat)
    by (rewrite width_init; lia).
  pose proof (wf_init h) as Hwf.
  unfold st', disk_simple. cbn [flush_if].
  set (test := disk_test _ _).
  split.
  - rewrite at2_transfer_rgba; [| now apply wf_select_all | exact Hr' | exact Hc'].
    rewrite at2_select_all by assumption.
    cbn [select_all rgba]. rewrite xyz_init_at, rgba_init_at by assumption.
    fold p. rewrite canvas_init_at by assumption.
    destruct (test p).
    + apply blend_on_blank; [exact Hc | exact HA | reflexivity].
    + apply blend_transparent; [ring|].
      split; [now apply color_ok_literal | reflexivity].
  - apply at2_transfer_canvas; [now apply wf_select_all | exact Hr' | exact Hc'].
Qed.

(** ** The pole and anti-meridian cases of [line_segment_internal] *)

(** X21: when the padded latitudes of a segment pass 85 degrees north, its
    rectangle starts at row 0 and spans every column; when they pass 85
    degrees south, it ends at the last row and spans every column; and it
    spans every column when the padded longitudes come within the padding of
    the anti-meridian. *)
Theorem segment_rectangle_widens (st : Canvas) (la lo lb lob w : Q) :
  (0 < height st)%nat -> width st = (2 * height st)%nat ->
  let scale := 1 / np_cos (py_max (Qabs la) (Qabs lb) * np_pi / 180) in
  let R := box_rect st (segment_box la lo lb lob w) in
  let all_columns := c0 R = 0%Z /\ c1 R = Z.of_nat (width st) in
  (85 < py_max la lb + 0.5 * w -> r0 R = 0%Z /\ all_columns) /\
  (py_min la lb - 0.5 * w < -85 -> r1 R = Z.of_nat (height st) /\ all_columns) /\
  (180 - 0.5 * w * scale < py_max lo lob + 0.5 * w * scale \/
   py_min lo lob - 0.5 * w * scale < -180 + 0.5 * w * scale -> all_columns).
Proof.
  intros Hh Hw scale R all_columns.
  set (H := Z.of_nat (height st)).
  assert (HH : (0 < H)%Z) by (unfold H; lia).
  assert (EW : Z.of_nat (width st) = (2 * H)%Z) by (rewrite Hw; unfold H; lia).
  destruct (projection_corners H) as (T & B & L & Rt).
  assert (Cols : min_lon (segment_box la lo lb lob w) = -180 ->
                 max_lon (segment_box la lo lb lob w) = 180 -> all_columns).
  { intros E1 E2. unfold all_columns, R, box_rect. cbn [c0 c1].
    fold H. rewrite E1, E2, L, Rt, EW. lia. }
  unfold segment_box in *. fold scale in Cols |- *.
  set (t := 0.5 * w * scale) in *.
  set (mla := py_min la lb) in *. set (Mla := py_max la lb) in *.
  set (mlo := py_min lo lob) in *. set (Mlo := py_max lo lob) in *.
  split; [|split].
  - intros N. apply Qltb_lt in N. unfold R, box_rect, segment_box. fold scale.
    fold t mla Mla mlo Mlo. revert Cols. rewrite N.
    destruct (Qltb (mla - 0.5 * w) (-85)); cbv beta iota zeta;
      match goal with
      | |- context [if ?c then _ else _] => destruct c
      end; cbn [r0 min_lat max_lat min_lon max_lon]; intros Cols;
      (split; [fold H; rewrite T; lia | now apply Cols]).
  - intros S. apply Qltb_lt in S. unfold R, box_rect, segment_box. fold scale.
    fold t mla Mla mlo Mlo. revert Cols. rewrite S.
    destruct (Qltb 85 (Mla + 0.5 * w)); cbv beta iota zeta;
      match goal with
      | |- context [if ?c then _ else _] => destruct c
      end; cbn [r1 min_lat max_lat min_lon max_lon]; intros Cols;
      (split; [fold H; rewrite B; lia | now apply Cols]).
  - intros A. revert Cols.
    destruct (Qltb 85 (Mla + 0.5 * w)); destruct (Qltb (mla - 0.5 * w) (-85));
      cbv beta iota zeta;
      match goal with
      | |- context [if ?c then _ else _] => destruct c eqn:Ec
      end; cbn [min_lat max_lat min_lon max_lon]; intros Cols;
      try (now apply Cols).
    exfalso. apply orb_false_iff in Ec. destruct Ec as [E1 E2].
    apply Qltb_ge in E1, E2. destruct A; lra.
Qed.

(** ** Pixel edges *)

Lemma Qfloor_iff (x : Q) (z : Z) :
  Qfloor x = z <-> inject_Z z <= x /\ x < inject_Z z + 1.
Proof.
  split.
  - intros <-. split; [apply Qfloor_le|].
    pose proof (Qlt_floor x) as L. rewrite inject_Z_plus in L. exact L.
  - intros [A B]. apply Qfloor_unique; [exact A|].
    rewrite inject_Z_plus. exact B.
Qed.

(** X22: the grid lines fall on pixel edges: a latitude is in row [row]
    exactly when it lies between the lower edge of that row (excluded) and
    its upper edge (included), and a longitude is in column [col] exactly
    when it lies between the left edge (included) and the right edge
    (excluded) of that column. *)
Theorem pixel_edges (H row col : Z) (lat lon : Q) :
  (0 < H)%Z ->
  (lat2row H lat = row <->
   90 - 180 * (inject_Z row + 1) / inject_Z H < lat /\
   lat <= 90 - 180 * inject_Z row / inject_Z H) /\
  (lon2col H lon = col <->
   180 * inject_Z col / inject_Z H - 180 <= lon /\
   lon < 180 * (inject_Z col + 1) / inject_Z H - 180).
Proof.
  intros HH. pose proof (inject_Z_pos H HH) as Hq.
  assert (N : ~ inject_Z H == 0) by lra.
  unfold lat2row, lon2col. rewrite !Qfloor_iff.
  generalize (inject_Z row) (inject_Z col). intros r c.
  set (h := inject_Z H) in *.
  assert (E1 : forall k, 180 * k / h * h == 180 * k) by (intros; field; exact N).
  assert (M : forall a b : Q, a <= b <-> a * h <= b * h)
    by (intros; symmetry; now apply Qmult_le_r).
  assert (M' : forall a b : Q, a < b <-> a * h < b * h)
    by (intros; symmetry; now apply Qmult_lt_r).
  assert (X : (90 - lat) * h / 180 * 180 == (90 - lat) * h) by field.
  assert (Y : (lon + 180) * h / 180 * 180 == (lon + 180) * h) by field.
  split; split; intros [A B].
  - split.
    + apply M'. pose proof (E1 (r + 1)). lra.
    + apply M. pose proof (E1 r). lra.
  - apply M' in A. apply M in B. pose proof (E1 (r + 1)). pose proof (E1 r).
    split; lra.
  - split.
    + apply M. pose proof (E1 c). lra.
    + apply M'. pose proof (E1 (c + 1)). lra.
  - apply M in A. apply M' in B. pose proof (E1 (c + 1)). pose proof (E1 c).
    split; lra.
Qed.

End MoreDrawing.

(** * Evaluations of the further properties *)

Lemma pixel_center_round_trip_witness :
  lat2row 1024 (row2lat 1024 (inject_Z 234)) = 234%Z /\
  lon2col 1024 (col2lon 1024 (inject_Z 1186)) = 1186%Z.
Proof. exact (pixel_center_round_trip 1024 234 1186 eq_refl). Defined.

Lemma containing_pixel_center_witness :
  Qabs (row2lat 1024 (inject_Z (lat2row 1024 45)) - 45) <= 90 / inject_Z 1024.
Proof. exact (proj1 (containing_pixel_center 1024 45 0 eq_refl)). Defined.

Lemma lat2row_lon2col_monotone_witness :
  (lat2row 1024 45 <= lat2row 1024 (-45))%Z /\
  (lon2col 1024 (-45) <= lon2col 1024 45)%Z.
Proof.
  apply (lat2row_lon2col_monotone 1024 (-45) 45 eq_refl). discriminate.
Defined.

Lemma pixel_centers_interior_witness :
  -90 < row2lat 1024 (inject_Z 1023) /\ row2lat 1024 (inject_Z 1023) < 90 /\
  -180 < col2lon 1024 (inject_Z 2047) /\ col2lon 1024 (inject_Z 2047) < 180.
Proof. apply (pixel_centers_interior 1024 1023 2047); lia. Defined.

Lemma pixel_edges_witness :
  lat2row 4 90 = 0%Z /\ lon2col 4 (-180) = 0%Z.
Proof.
  destruct (pixel_edges 4 0 0 90 (-180) eq_refl) as [[_ A] [_ B]].
  split; [apply A | apply B]; split; vm_compute; reflexivity || discriminate.
Defined.

Lemma new_canvas_contents_witness :
  let st := Canvas_init (H := ref_numpy) 2 in
  height st = 2%nat /\ width st = 4%nat /\ at2 0 (canvas st) 1 3 = 0.
Proof.
  intros st.
  destruct (new_canvas_contents (np := ref_numpy) 2 1 3) as (_ & A & B & _ & C & _);
    try lia.
  split; [exact A|]. split; [exact B | exact C].
Defined.

(** A 2 x 4 canvas with an accumulated disk around (45, -135): pixel (0, 0). *)
Lemma transfer_opaque_paints_color_witness :
  let st := disk_simple (H := ref_numpy) (Canvas_init (H := ref_numpy) 2)
              45 (-135) 20 white false in
  at2 0 (canvas st) 0 0 = 1 /\
  at2 rgba0 (rgba (transfer_canvas_to_rgba st opaque_red)) 0 0 = opaque_red.
Proof.
  intros st.
  assert (M : at2 0 (canvas st) 0 0 = 1) by (vm_compute; reflexivity).
  split; [exact M|].
  apply (transfer_opaque_paints_color st opaque_red 0 0).
  - apply wf_select_all, (wf_init (np := ref_numpy)).
  - now apply color_ok_literal.
  - reflexivity.
  - vm_compute. lia.
  - vm_compute. lia.
  - rewrite M. reflexivity.
Defined.

Lemma transfer_keeps_uncovered_witness :
  let st := Canvas_init (H := ref_numpy) 2 in
  at2 rgba0 (rgba (transfer_canvas_to_rgba st half_red)) 1 3
  = at2 rgba0 (rgba st) 1 3.
Proof.
  intros st.
  apply (transfer_keeps_uncovered (np := ref_numpy) st half_red 1 3).
  - apply reach_init.
  - vm_compute. lia.
  - vm_compute. lia.
  - left. vm_compute. reflexivity.
Defined.

Lemma transfer_twice_witness :
  let st := Canvas_init (H := ref_numpy) 2 in
  transfer_canvas_to_rgba (transfer_canvas_to_rgba st half_red) white
  = transfer_canvas_to_rgba st half_red.
Proof.
  intros st. apply (transfer_twice (np := ref_numpy) st half_red white).
  - apply reach_init.
  - now apply color_ok_literal.
Defined.

Lemma calls_keep_direction_table_witness :
  let st := Canvas_init (H := ref_numpy) 2 in
  xyz (final (exec (H := ref_numpy) (Line 0 0 0 47 1 white true) st)) = xyz st.
Proof.
  intros st.
  exact (proj2 (calls_keep_direction_table (np := ref_numpy)
                  (Line 0 0 0 47 1 white true) st (wf_init 2))).
Defined.

Lemma deferred_calls_keep_rgba_witness :
  let st := Canvas_init (H := ref_numpy) 2 in
  rgba (final (exec (H := ref_numpy) (Line 0 0 0 47 1 white false) st)) = rgba st.
Proof.
  intros st.
  exact (deferred_calls_keep_rgba (np := ref_numpy)
           (Line 0 0 0 47 1 white false) st eq_refl eq_refl).
Defined.

Lemma flushing_call_clears_mask_witness :
  let st := Canvas_init (H := ref_numpy) 2 in
  mask_zero (disk_simple (H := ref_numpy) st 45 (-135) 20 white true).
Proof.
  intros st.
  exact (flushing_call_clears_mask (np := ref_numpy)
           (DiskSimple 45 (-135) 20 white true) st _ (wf_init 2) eq_refl eq_refl).
Defined.

Lemma full_scans_commute_witness :
  let st := Canvas_init (H := ref_numpy) 2 in
  let k1 := DiskSimple 45 (-135) 20 white false in
  let k2 := CircleSimple 0 0 90 5 white false in
  final (exec (H := ref_numpy) k2 (final (exec (H := ref_numpy) k1 st)))
  = final (exec (H := ref_numpy) k1 (final (exec (H := ref_numpy) k2 st))).
Proof.
  intros st k1 k2.
  exact (proj1 (full_scans_commute (np := ref_numpy) k1 k2 st
                  eq_refl eq_refl eq_refl eq_refl)).
Defined.

Lemma accumulated_union_flushed_once_witness :
  let st := Canvas_init (H := ref_numpy) 2 in
  let k1 := DiskSimple 45 (-135) 20 white false in
  let k2 := DiskSimple 45 (-45) 20 white false in
  let st2 := final (exec (H := ref_numpy) k2 (final (exec (H := ref_numpy) k1 st))) in
  at2 rgba0 (rgba (transfer_canvas_to_rgba st2 half_red)) 0 1 = half_red.
Proof.
  intros st k1 k2 st2.
  assert (Hr : (0 < height st)%nat) by (vm_compute; lia).
  assert (Hc : (1 < width st)%nat) by (vm_compute; lia).
  pose proof (accumulated_union_flushed_once (np := ref_numpy) k1 k2 st half_red
                0 1 (reach_init 2) (mask_zero_init 2) eq_refl eq_refl eq_refl
                eq_refl Hr Hc) as E.
  cbv zeta in E. unfold st2. rewrite E. vm_compute. reflexivity.
Defined.

Lemma bounded_primitives_return_witness :
  let st := Canvas_init (H := ref_numpy) 2 in
  let Rd := box_rect st (disk_box (H := ref_numpy) 45 0 40) in
  (r0 Rd < r1 Rd)%Z /\ (c0 Rd < c1 Rd)%Z /\
  exists st', disk (H := ref_numpy) st 45 0 40 white true = Returns st'.
Proof.
  intros st.
  assert (Hh : (0 < height st)%nat) by (vm_compute; lia).
  assert (Hw : width st = (2 * height st)%nat) by (vm_compute; reflexivity).
  refine (proj1 (bounded_primitives_return (np := ref_numpy) st
            45 0 40 0 0 0 5 1 white true Hh Hw _ _ _ _ _ _ _ _ _ _));
    try (split; discriminate); vm_compute; discriminate.
Defined.

Lemma reachable_canvas_invariant_witness :
  let st := final (exec (H := ref_numpy) (Disk 0 0 20 half_red true)
                     (Canvas_init (H := ref_numpy) 2)) in
  color_ok (at2 rgba0 (rgba st) 0 0).
Proof.
  intros st.
  assert (Hre : reachable (H := ref_numpy) st).
  { apply reach_call; [apply reach_init | now apply color_ok_literal]. }
  assert (Hr : (0 < height st)%nat) by (vm_compute; lia).
  assert (Hc : (0 < width st)%nat) by (vm_compute; lia).
  exact (proj1 (proj2 (proj2
    (reachable_canvas_invariant (np := ref_numpy) st 0 0 Hre Hr Hc)))).
Defined.

Lemma great_circle_frame_orthogonal_witness :
  exists f,
    great_circle_frame (H := ref_numpy) (latlon2vec (H := ref_numpy) 0 0)
      (latlon2vec (H := ref_numpy) 0 47) = Some f /\
    dot (orth f) (latlon2vec (H := ref_numpy) 0 0) == 0.
Proof.
  destruct (great_circle_frame (H := ref_numpy) (latlon2vec (H := ref_numpy) 0 0)
              (latlon2vec (H := ref_numpy) 0 47)) as [f|] eqn:E;
    [|vm_compute in E; discriminate].
  exists f. split; [reflexivity|].
  exact (proj1 (great_circle_frame_orthogonal (np := ref_numpy) _ _ f E)).
Defined.

Lemma disk_simple_on_new_canvas_witness :
  let st' := disk_simple (H := ref_numpy) (Canvas_init (H := ref_numpy) 2)
               45 (-135) 20 half_red true in
  at2 rgba0 (rgba st') 0 0 = half_red /\ at2 rgba0 (rgba st') 1 3 = rgba0.
Proof.
  intros st'.
  assert (Ok : color_ok half_red) by now apply color_ok_literal.
  destruct (disk_simple_on_new_canvas (np := ref_numpy) 2 45 (-135) 20 half_red
              0 0 Ok eq_refl) as [A _]; try lia.
  destruct (disk_simple_on_new_canvas (np := ref_numpy) 2 45 (-135) 20 half_red
              1 3 Ok eq_refl) as [B _]; try lia.
  split.
  - fold st' in A. rewrite A. vm_compute. reflexivity.
  - fold st' in B. rewrite B. vm_compute. reflexivity.
Defined.

Lemma segment_rectangle_widens_witness :
  let st := Canvas_init (H := ref_numpy) 8 in
  let R := box_rect st (segment_box (H := ref_numpy) 84 10 86 12 1) in
  r0 R = 0%Z /\ c0 R = 0%Z /\ c1 R = 16%Z.
Proof.
  intros st R.
  assert (Hh : (0 < height st)%nat) by (unfold st; rewrite height_init; lia).
  assert (Hw : width st = (2 * height st)%nat)
    by (unfold st; rewrite height_init, width_init; lia).
  destruct (segment_rectangle_widens (np := ref_numpy) st 84 10 86 12 1 Hh Hw)
    as (N & _ & _).
  destruct N as (A & B & C); [vm_compute; reflexivity|].
  split; [exact A|]. split; [exact B|].
  fold R in C. rewrite C. unfold st. rewrite width_init by lia. reflexivity.
Defined.



(** * constellations.py: the catalogue and the figure lines

    [read_bsc2] reads the fixed-column lines of the Bright Star Catalogue
    into a dictionary, and [foo4] draws one [line] on a canvas of height 2048
    for each pair of star numbers.  Reading the files, [print] and the
    matplotlib calls do not touch the canvas and are left out: the lines of
    the catalogue and the pairs are arguments.  Python's [int], [float] and
    [str.strip] of a string are taken through the interface [PyText]. *)

Class PyText := {
  str_int : String.string -> option Z;
  str_float : String.string -> option Q;
  str_strip : String.string -> String.string
}.

(** [line[i:j]] *)
Definition slice (line : String.string) (i j : nat) : String.string :=
  String.substring i (j - i) line.

(** A value of the dictionary of [read_bsc2]: [(glon, glat, name, vmag)]. *)
Record star : Type := mkStar {
  glon : Q; glat : Q; name : String.string; vmag : Q
}.

(** A dictionary keyed by star number. *)
Definition catalog : Type := Z -> option star.

Definition catalog_set (data : catalog) (num : Z) (s : star) : catalog :=
  fun k => if (k =? num)%Z then Some s else data k.

(** One turn of the loop of [read_bsc2]: any exception inside [try] skips the
    line. *)
Definition read_bsc2_line `{PyText} (data : catalog) (line : String.string)
  : catalog :=
  match str_int (slice line 0 4) with
  | None => data
  | Some num =>
      let name := str_strip (slice line 4 14) in
      match str_float (slice line 90 96) with
      | None => data
      | Some glon =>
          let glon := if Qltb 180 glon then glon - 360 else glon in
          match str_float (slice line 96 102) with
          | None => data
          | Some glat =>
              match str_float (slice line 102 107) with
              | None => data
              | Some vmag => catalog_set data num (mkStar glon glat name vmag)
              end
          end
      end
  end.

Definition read_bsc2 `{PyText} (lines : list String.string) : catalog :=
  fold_left read_bsc2_line lines (fun _ => None).

(** How the loop of [foo4] ends: all pairs drawn, or an exception. *)
Inductive py_error : Type :=
| KeyError
| IndexError
| Raised (e : exn).

Inductive foo4_outcome : Type :=
| Drawn (c : Canvas)
| Failed (e : py_error) (c : Canvas).

Definition foo4_canvas (o : foo4_outcome) : Canvas :=
  match o with Drawn c => c | Failed _ c => c end.

(** One turn of the loop of [foo4] for the pair [p]:
    [a = data[p[0]]], [b = data[p[1]]], then
    [c.line(a[1], -a[0], b[1], -b[0], line_width=0.5)] with the default
    color and [transfer=True]. *)
Definition foo4_body `{NumPy} (data : catalog) (c : Canvas) (p : list Z)
  : foo4_outcome :=
  match p with
  | [] => Failed IndexError c
  | p0 :: rest =>
      match data p0 with
      | None => Failed KeyError c
      | Some a =>
          match rest with
          | [] => Failed IndexError c
          | p1 :: _ =>
              match data p1 with
              | None => Failed KeyError c
              | Some b =>
                  match line c (glat a) (- glon a) (glat b) (- glon b) 0.5
                             white true with
                  | Returns c' => Drawn c'
                  | Raises e c' => Failed (Raised e) c'
                  end
              end
          end
      end
  end.

Fixpoint foo4_loop `{NumPy} (data : catalog) (pairs : list (list Z))
  (c : Canvas) : foo4_outcome :=
  match pairs with
  | [] => Drawn c
  | p :: pairs' =>
      match foo4_body data c p with
      | Drawn c' => foo4_loop data pairs' c'
      | Failed e c' => Failed e c'
      end
  end.

Definition foo4 `{NumPy} (data : catalog) (pairs : list (list Z))
  : foo4_outcome :=
  foo4_loop data pairs (Canvas_init 2048).

(** Every pixel is (0,0,0,0) or the color. *)
Definition two_valued (color : rgba_t) (st : Canvas) : Prop :=
  forall r c, (r < height st)%nat -> (c < width st)%nat ->
    at2 rgba0 (rgba st) r c = rgba0 \/ at2 rgba0 (rgba st) r c = color.

Section Constellations.

Context {np : NumPy} {tx : PyText}.

Lemma lon2col_in_range (H : Z) (lon : Q) :
  (0 < H)%Z -> -180 <= lon -> lon < 180 -> (0 <= lon2col H lon < 2 * H)%Z.
Proof.
  intros HH Hlo Hhi. unfold lon2col.
  assert (P0 : 0 <= lon + 180) by lra.
  assert (P1 : lon + 180 < 360) by lra.
  destruct (scale_bounds (lon + 180) H 360 HH eq_refl P0 P1) as [A B].
  assert (E : (lon + 180) * inject_Z H / 180
              == 2 * ((lon + 180) * inject_Z H / 360)) by field.
  apply (Qfloor_bounds _ 0 (2 * H)).
  - rewrite E. change (inject_Z 0) with 0. lra.
  - rewrite E, inject_Z_mult. change (inject_Z 2) with 2. lra.
Qed.

Lemma read_bsc2_line_glon (data : catalog) (line : String.string) :
  (forall x, str_float (slice line 90 96) = Some x -> 0 <= x /\ x < 360) ->
  (forall num s, data num = Some s -> -180 < glon s /\ glon s <= 180) ->
  forall num s, read_bsc2_line data line num = Some s ->
    -180 < glon s /\ glon s <= 180.
Proof.
  intros Hx Hd num s. unfold read_bsc2_line.
  destruct (str_int _) as [n|]; [|apply Hd].
  destruct (str_float (slice line 90 96)) as [x|] eqn:Ex; [|apply Hd].
  destruct (str_float (slice line 96 102)) as [y|]; [|apply Hd].
  destruct (str_float (slice line 102 107)) as [v|]; [|apply Hd].
  unfold catalog_set. destruct (num =? n)%Z; [|apply Hd].
  intros E. injection E as <-. cbn [glon].
  destruct (Hx x eq_refl) as [X0 X1].
  destruct (Qltb 180 x) eqn:G.
  - apply Qltb_lt in G. lra.
  - apply Qltb_ge in G. lra.
Qed.

Lemma read_bsc2_glon (lines : list String.string) (data : catalog) :
  (forall line x, In line lines -> str_float (slice line 90 96) = Some x ->
     0 <= x /\ x < 360) ->
  (forall num s, data num = Some s -> -180 < glon s /\ glon s <= 180) ->
  forall num s, fold_left read_bsc2_line lines data num = Some s ->
    -180 < glon s /\ glon s <= 180.
Proof.
  revert data. induction lines as [|line lines IH]; intros data Hx Hd; simpl.
  - exact Hd.
  - apply IH.
    + intros l x Hin. apply Hx. now right.
    + apply read_bsc2_line_glon; [|exact Hd].
      intros x. apply Hx. now left.
Qed.

(** X23: when the longitudes of the catalogue lines lie in [0, 360), every
    star that [read_bsc2] stores has a longitude in (-180, 180], so the
    longitude [-glon] that [foo4] hands to [line] lies in [-180, 180) and its
    column is a valid index of the image. *)
Theorem catalogue_longitudes_in_domain (lines : list String.string)
  (num : Z) (s : star) (H : Z) :
  (forall line x, In line lines -> str_float (slice line 90 96) = Some x ->
     0 <= x /\ x < 360) ->
  read_bsc2 lines num = Some s -> (0 < H)%Z ->
  -180 < glon s /\ glon s <= 180 /\
  (0 <= lon2col H (- glon s) < 2 * H)%Z.
Proof.
  intros Hx Hs HH.
  destruct (read_bsc2_glon lines (fun _ => None) Hx
              (fun n s' (E : None = Some s') => ltac:(discriminate)) num s Hs)
    as [A B].
  split; [exact A|]. split; [exact B|].
  apply lon2col_in_range; [exact HH | lra | lra].
Qed.

Lemma white_line_two_valued (st : Canvas) (la lo lb lob w : Q) :
  invariant st -> two_valued white st ->
  invariant (final (line st la lo lb lob w white true)) /\
  two_valued white (final (line st la lo lb lob w white true)).
Proof.
  intros Hi Ht.
  assert (Ok : color_ok white) by now apply color_ok_literal.
  split; [apply (inv_exec (Line la lo lb lob w white true) st Ok Hi)|].
  change (line st la lo lb lob w white true)
    with (exec (Line la lo lb lob w white true) st).
  rewrite exec_flag_split by reflexivity. cbn [deferred call_color].
  pose proof (inv_exec (Line la lo lb lob w white false) st Ok Hi) as Hd.
  pose proof (deferred_line_rgba st la lo lb lob w white) as Hr.
  pose proof (exec_keeps (Line la lo lb lob w white false) st (proj1 Hi))
    as [_ Hx].
  destruct (exec (Line la lo lb lob w white false) st) as [s|e s];
    cbn [final] in *.
  - intros r c Hrow Hcol. destruct Hd as (Hwf & Hm & Hp).
    rewrite at2_transfer_rgba by assumption.
    assert (Hrow' : (r < height st)%nat) by (unfold height in *; now rewrite <- Hx).
    assert (Hcol' : (c < width st)%nat) by (unfold width in *; now rewrite <- Hx).
    destruct (Hm r c Hrow Hcol) as [M|M].
    + rewrite blend_transparent; [| rewrite M; ring | now apply Hp].
      rewrite Hr. now apply Ht.
    + right. now apply blend_opaque.
  - intros r c Hrow Hcol. rewrite Hr. apply Ht.
    + unfold height in *. now rewrite <- Hx.
    + unfold width in *. now rewrite <- Hx.
Qed.

Lemma foo4_loop_two_valued (data : catalog) (pairs : list (list Z)) (c : Canvas) :
  invariant c -> two_valued white c ->
  invariant (foo4_canvas (foo4_loop data pairs c)) /\
  two_valued white (foo4_canvas (foo4_loop data pairs c)).
Proof.
  revert c. induction pairs as [|p pairs IH]; intros c Hi Ht; simpl.
  - now split.
  - assert (Hb : invariant (foo4_canvas (foo4_body data c p)) /\
                 two_valued white (foo4_canvas (foo4_body data c p))).
    { unfold foo4_body.
      destruct p as [|p0 [|p1 rest]]; try now split.
      - destruct (data p0); now split.
      - destruct (data p0) as [a|]; [|now split].
        destruct (data p1) as [b|]; [|now split].
        pose proof (white_line_two_valued c (glat a) (- glon a) (glat b)
                      (- glon b) 0.5 Hi Ht) as Hl.
        destruct (line c _ _ _ _ _ _ _); exact Hl. }
    destruct (foo4_body data c p) as [c'|e c']; cbn [foo4_canvas] in *.
    + now apply IH.
    + exact Hb.
Qed.

(** X24: whatever the catalogue and the pairs, and whether the loop of
    [foo4] ends or stops at an exception, every pixel of its canvas is either
    (0,0,0,0) or fully opaque white: the lines do not blend where they
    cross. *)
Theorem foo4_image_two_valued (data : catalog) (pairs : list (list Z))
  (r c : nat) :
  let st := foo4_canvas (foo4 data pairs) in
  (r < height st)%nat -> (c < width st)%nat ->
  at2 rgba0 (rgba st) r c = rgba0 \/ at2 rgba0 (rgba st) r c = white.
Proof.
  intros st. unfold st, foo4.
  apply (foo4_loop_two_valued data pairs (Canvas_init 2048)).
  - apply inv_init.
  - intros r' c' Hr Hc. left. rewrite height_init in Hr.
    rewrite width_init in Hc by lia. apply rgba_init_at; lia.
Qed.

(** X25: the loop of [foo4] has no [try]: at the first pair with fewer than
    two numbers or with a star number that is not in the catalogue it stops
    with [IndexError] or [KeyError], the canvas is as the pairs before it left
    it, and the pairs after it are not drawn. *)
Theorem foo4_stops_at_missing_star (data : catalog)
  (before after : list (list Z)) (p : list Z) (c c' : Canvas) :
  foo4_loop data before c = Drawn c' ->
  match p with
  | p0 :: p1 :: _ => data p0 = None \/ data p1 = None
  | _ => True
  end ->
  exists e, foo4_loop data (before ++ p :: after) c = Failed e c' /\
            (e = KeyError \/ e = IndexError).
Proof.
  intros Hb Hp.
  assert (Hbody : exists e, foo4_body data c' p = Failed e c' /\
                            (e = KeyError \/ e = IndexError)).
  { unfold foo4_body. destruct p as [|p0 [|p1 rest]].
    - eauto.
    - destruct (data p0); eauto.
    - destruct Hp as [E|E].
      + rewrite E. eauto.
      + destruct (data p0); [rewrite E|]; eauto. }
  clear Hp. revert c Hb.
  induction before as [|q before IH]; intros c Hb; simpl in *.
  - injection Hb as ->. destruct Hbody as (e & E & Hk). rewrite E. eauto.
  - destruct (foo4_body data c q) as [c1|e c1]; [|discriminate].
    now apply IH.
Qed.

End Constellations.

(** A reader of text for the evaluations: every number field reads 1 or 200. *)
Definition demo_text : PyText :=
  {| str_int := fun _ => Some 1%Z;
     str_float := fun _ => Some 200;
     str_strip := fun s => s |}.

Lemma catalogue_longitudes_in_domain_witness :
  exists s,
    read_bsc2 (H := demo_text) [String.EmptyString] 1%Z = Some s /\
    glon s = 200 - 360 /\
    (0 <= lon2col 2048 (- glon s) < 2 * 2048)%Z.
Proof.
  exists (mkStar (200 - 360) 200 String.EmptyString 200).
  split; [reflexivity|]. split; [reflexivity|].
  refine (proj2 (proj2 (catalogue_longitudes_in_domain (tx := demo_text)
            [String.EmptyString] 1%Z _ 2048 _ eq_refl eq_refl))).
  intros line x _ E. injection E as <-. split; discriminate || reflexivity.
Defined.

Lemma foo4_image_two_valued_witness :
  let st := foo4_canvas (foo4 (H := ref_numpy) (fun _ => None) [[1; 2]%Z]) in
  at2 rgba0 (rgba st) 0 0 = rgba0 \/ at2 rgba0 (rgba st) 0 0 = white.
Proof.
  intros st.
  assert (E : st = Canvas_init (H := ref_numpy) 2048) by reflexivity.
  apply (foo4_image_two_valued (np := ref_numpy) (fun _ => None) [[1; 2]%Z] 0 0).
  - fold st. rewrite E, height_init. lia.
  - fold st. rewrite E, width_init; lia.
Defined.

Lemma foo4_stops_at_missing_star_witness :
  exists e,
    foo4_loop (H := ref_numpy) (fun _ => None) ([] ++ [1; 2]%Z :: [[3; 4]%Z])
      (Canvas_init (H := ref_numpy) 2)
    = Failed e (Canvas_init (H := ref_numpy) 2) /\
    (e = KeyError \/ e = IndexError).
Proof.
  apply (foo4_stops_at_missing_star (np := ref_numpy) (fun _ => None) []
           [[3; 4]%Z] [1; 2]%Z).
  - reflexivity.
  - now left.
Defined.

(** * Binary64 arithmetic *)

(** ** Powers of two and the exponent of a number *)

Lemma pow2_pos (e : Z) : 0 < 2 ^ e.
Proof. apply Qpower_0_lt. reflexivity. Qed.

Lemma pow2_Z (n : Z) : (0 <= n)%Z -> 2 ^ n == inject_Z (2 ^ n).
Proof. intros Hn. symmetry. apply (Zpower_Qpower 2 n Hn). Qed.

Lemma pow2_add (a b : Z) : 2 ^ (a + b) == 2 ^ a * 2 ^ b.
Proof. apply Qpower_plus. discriminate. Qed.

Lemma pow2_sub (a b : Z) : 2 ^ (a - b) == 2 ^ a / 2 ^ b.
Proof. apply Qpower_minus. discriminate. Qed.

Lemma pow2_le (a b : Z) : (a <= b)%Z -> 2 ^ a <= 2 ^ b.
Proof. intros H. apply Qpower_le_compat_l; [exact H | discriminate]. Qed.

Lemma pow2_lt (a b : Z) : (a < b)%Z -> 2 ^ a < 2 ^ b.
Proof. intros H. apply Qpower_lt_compat_l; [exact H | reflexivity]. Qed.

Lemma Zfrac_le (a b c d : Z) :
  (0 < b)%Z -> (0 < d)%Z -> (a * d <= c * b)%Z ->
  inject_Z a / inject_Z b <= inject_Z c / inject_Z d.
Proof.
  intros Hb Hd H.
  assert (Hb' : 0 < inject_Z b) by (change (inject_Z 0 < inject_Z b); rewrite <- Zlt_Qlt; exact Hb).
  assert (Hd' : 0 < inject_Z d) by (change (inject_Z 0 < inject_Z d); rewrite <- Zlt_Qlt; exact Hd).
  apply Qle_shift_div_r; [exact Hb'|].
  assert (E : inject_Z c / inject_Z d * inject_Z b == (inject_Z c * inject_Z b) / inject_Z d)
    by (field; intros E; rewrite E in Hd'; discriminate).
  rewrite E. apply Qle_shift_div_l; [exact Hd'|].
  rewrite <- !inject_Z_mult, <- Zle_Qle. exact H.
Qed.

Lemma Zfrac_lt (a b c d : Z) :
  (0 < b)%Z -> (0 < d)%Z -> (a * d < c * b)%Z ->
  inject_Z a / inject_Z b < inject_Z c / inject_Z d.
Proof.
  intros Hb Hd H.
  assert (Hb' : 0 < inject_Z b) by (change (inject_Z 0 < inject_Z b); rewrite <- Zlt_Qlt; exact Hb).
  assert (Hd' : 0 < inject_Z d) by (change (inject_Z 0 < inject_Z d); rewrite <- Zlt_Qlt; exact Hd).
  apply Qlt_shift_div_r; [exact Hb'|].
  assert (E : inject_Z c / inject_Z d * inject_Z b == (inject_Z c * inject_Z b) / inject_Z d)
    by (field; intros E; rewrite E in Hd'; discriminate).
  rewrite E. apply Qlt_shift_div_l; [exact Hd'|].
  rewrite <- !inject_Z_mult, <- Zlt_Qlt. exact H.
Qed.

Lemma Qabs_frac (x : Q) : Qabs x == inject_Z (Z.abs (Qnum x)) / inject_Z (Zpos (Qden x)).
Proof. destruct x as [n d]. simpl. apply Qmake_Qdiv. Qed.

Lemma ilog2_le (x : Q) : ~ x == 0 -> 2 ^ ilog2 x <= Qabs x.
Proof.
  intros Hx. unfold ilog2.
  set (n := Z.abs (Qnum x)). set (d := Zpos (Qden x)).
  destruct (Qle_bool _ _) eqn:E.
  - now apply Qle_bool_iff.
  - assert (Hn : (0 < n)%Z).
    { unfold n. destruct x as [[|p|p] q]; simpl; try lia.
      exfalso. apply Hx. reflexivity. }
    assert (Hd : (0 < d)%Z) by (unfold d; lia).
    pose proof (Z.log2_spec n Hn) as [L1 _].
    pose proof (Z.log2_spec d Hd) as [_ L2].
    pose proof (Z.log2_nonneg n). pose proof (Z.log2_nonneg d).
    replace (Z.log2 n - Z.log2 d - 1)%Z with (Z.log2 n - Z.succ (Z.log2 d))%Z by lia.
    rewrite pow2_sub, (pow2_Z (Z.log2 n)), (pow2_Z (Z.succ (Z.log2 d))) by lia.
    rewrite Qabs_frac. fold n d.
    apply Zfrac_le; [lia | lia | nia].
Qed.

Lemma ilog2_lt (x : Q) : ~ x == 0 -> Qabs x < 2 ^ (ilog2 x + 1).
Proof.
  intros Hx. unfold ilog2.
  set (n := Z.abs (Qnum x)). set (d := Zpos (Qden x)).
  destruct (Qle_bool _ _) eqn:E.
  - assert (Hn : (0 < n)%Z).
    { unfold n. destruct x as [[|p|p] q]; simpl; try lia.
      exfalso. apply Hx. reflexivity. }
    assert (Hd : (0 < d)%Z) by (unfold d; lia).
    pose proof (Z.log2_spec n Hn) as [_ L1].
    pose proof (Z.log2_spec d Hd) as [L2 _].
    pose proof (Z.log2_nonneg n). pose proof (Z.log2_nonneg d).
    replace (Z.log2 n - Z.log2 d + 1)%Z with (Z.succ (Z.log2 n) - Z.log2 d)%Z by lia.
    rewrite pow2_sub, (pow2_Z (Z.log2 d)), (pow2_Z (Z.succ (Z.log2 n))) by lia.
    rewrite Qabs_frac. fold n d.
    apply Zfrac_lt; [lia | apply Z.pow_pos_nonneg; lia | nia].
  - replace (Z.log2 n - Z.log2 d - 1 + 1)%Z with (Z.log2 n - Z.log2 d)%Z by lia.
    apply Qnot_le_lt. intros C. apply Qle_bool_iff in C. congruence.
Qed.

Lemma Qabs_cases (x : Q) :
  (0 <= x /\ Qabs x == x) \/ (x <= 0 /\ Qabs x == - x).
Proof.
  destruct (Qlt_le_dec x 0) as [H|H].
  - right. split; [lra | apply Qabs_neg; lra].
  - left. split; [exact H | now apply Qabs_pos].
Qed.

Ltac qabs t := destruct (Qabs_cases t) as [[? ?]|[? ?]].

Lemma round_half_even_spec (y : Q) :
  Qabs (y - inject_Z (round_half_even y)) <= 1 # 2.
Proof.
  unfold round_half_even.
  pose proof (Qfloor_le y) as L. pose proof (Qlt_floor y) as U.
  rewrite inject_Z_plus in U. change (inject_Z 1) with 1 in U.
  set (f := Qfloor y) in *.
  apply Qabs_Qle_condition.
  destruct (Qcompare (y - inject_Z f) (1 # 2)) eqn:C.
  - apply Qeq_alt in C. destruct (Z.even f);
      rewrite ?inject_Z_plus; change (inject_Z 1) with 1; lra.
  - apply Qlt_alt in C. lra.
  - apply Qgt_alt in C. rewrite inject_Z_plus. change (inject_Z 1) with 1. lra.
Qed.

Lemma Zsucc_Qle (a b : Z) : (a + 1 <= b)%Z -> inject_Z a + 1 <= inject_Z b.
Proof.
  intros H. rewrite Zle_Qle, inject_Z_plus in H. exact H.
Qed.

Lemma nearest_integer (y : Q) (n j : Z) :
  Qabs (y - inject_Z n) <= 1 # 2 ->
  Qabs (y - inject_Z n) <= Qabs (y - inject_Z j).
Proof.
  intros H.
  destruct (Z.eq_dec j n) as [->|Hne]; [apply Qle_refl|].
  assert (C : (j + 1 <= n)%Z \/ (n + 1 <= j)%Z) by lia.
  destruct C as [C|C]; apply Zsucc_Qle in C;
    qabs (y - inject_Z n); qabs (y - inject_Z j); lra.
Qed.

Lemma b64_eq (x : Q) :
  ~ x == 0 ->
  b64 x == inject_Z (round_half_even (x / 2 ^ ulp_exp x)) * 2 ^ ulp_exp x.
Proof.
  intros Hx. unfold b64.
  destruct (Qeq_bool x 0) eqn:E.
  - apply Qeq_bool_iff in E. contradiction.
  - apply Qred_correct.
Qed.

Lemma b64_zero (x : Q) : x == 0 -> b64 x = 0.
Proof.
  intros Hx. unfold b64. apply Qeq_bool_iff in Hx. now rewrite Hx.
Qed.

Lemma scaled_diff (x q : Q) (n : Z) :
  0 < q -> Qabs (x - inject_Z n * q) == q * Qabs (x / q - inject_Z n).
Proof.
  intros Hq.
  assert (E : x - inject_Z n * q == q * (x / q - inject_Z n)) by (field; lra).
  rewrite E, Qabs_Qmult, (Qabs_pos q) by lra. reflexivity.
Qed.

Lemma b64_multiple (x : Q) (j : Z) :
  ~ x == 0 ->
  Qabs (x - b64 x) <= Qabs (x - inject_Z j * 2 ^ ulp_exp x).
Proof.
  intros Hx. rewrite (b64_eq x Hx).
  pose proof (pow2_pos (ulp_exp x)) as Hq.
  rewrite !scaled_diff by exact Hq.
  apply Qmult_le_l; [exact Hq|].
  apply nearest_integer, round_half_even_spec.
Qed.

Lemma b64_half_ulp (x : Q) :
  ~ x == 0 -> Qabs (x - b64 x) <= 2 ^ ulp_exp x * (1 # 2).
Proof.
  intros Hx. rewrite (b64_eq x Hx).
  pose proof (pow2_pos (ulp_exp x)) as Hq.
  rewrite scaled_diff by exact Hq.
  apply Qmult_le_l; [exact Hq|]. apply round_half_even_spec.
Qed.

Lemma b64_nearest (x f : Q) : is_b64 f -> Qabs (x - b64 x) <= Qabs (x - f).
Proof.
  intros (m & e' & Hm & He' & Hf).
  destruct (Qeq_dec x 0) as [Hx|Hx].
  - rewrite (b64_zero x Hx). setoid_replace (x - 0) with 0 by lra.
    apply Qabs_nonneg.
  - set (e := ulp_exp x).
    destruct (Z_le_gt_dec e e') as [Hle|Hgt].
    + pose proof (b64_multiple x (m * 2 ^ (e' - e)) Hx) as B. fold e in B.
      assert (E : inject_Z (m * 2 ^ (e' - e)) * 2 ^ e == f).
      { rewrite Hf, inject_Z_mult, <- (pow2_Z (e' - e)) by lia.
        rewrite <- Qmult_assoc, <- pow2_add.
        replace (e' - e + e)%Z with e' by lia. reflexivity. }
      now rewrite E in B.
    + assert (Ee : e = (ilog2 x - 52)%Z) by (unfold e, ulp_exp in *; lia).
      assert (Hf' : Qabs f < 2 ^ ilog2 x).
      { rewrite Hf, Qabs_Qmult, (Qabs_pos (2 ^ e')) by (apply Qlt_le_weak, pow2_pos).
        apply Qlt_le_trans with (inject_Z (2 ^ 53) * 2 ^ e').
        - apply Qmult_lt_r; [apply pow2_pos|].
          change (Qabs (inject_Z m)) with (inject_Z (Z.abs m)).
          rewrite <- Zlt_Qlt. exact Hm.
        - rewrite <- (pow2_Z 53), <- pow2_add by lia.
          apply pow2_le. lia. }
      pose proof (ilog2_le x Hx) as Lx.
      assert (P : 2 ^ 52 * 2 ^ e == 2 ^ ilog2 x).
      { rewrite <- pow2_add. now replace (52 + e)%Z with (ilog2 x) by lia. }
      destruct (Qlt_le_dec 0 x) as [Hpos|Hneg].
      * pose proof (b64_multiple x (2 ^ 52) Hx) as B. fold e in B.
        rewrite <- (pow2_Z 52), P in B by lia.
        eapply Qle_trans; [exact B|].
        revert Lx Hf'. generalize (2 ^ ilog2 x). intros p Lx Hf'.
        qabs x; qabs f; qabs (x - p); qabs (x - f); lra.
      * pose proof (b64_multiple x (- 2 ^ 52) Hx) as B. fold e in B.
        rewrite inject_Z_opp, <- (pow2_Z 52) in B by lia.
        setoid_replace (- 2 ^ 52 * 2 ^ e) with (- 2 ^ ilog2 x) in B
          by (rewrite <- P; ring).
        eapply Qle_trans; [exact B|].
        revert Lx Hf'. generalize (2 ^ ilog2 x). intros p Lx Hf'.
        qabs x; qabs f; qabs (x - - p); qabs (x - f); lra.
Qed.

Lemma b64_le (x hi : Q) : is_b64 hi -> x <= hi -> b64 x <= hi.
Proof.
  intros Hhi Hx. pose proof (b64_nearest x hi Hhi) as N.
  apply Qnot_lt_le. intros C.
  qabs (x - b64 x); qabs (x - hi); lra.
Qed.

Lemma b64_ge (x lo : Q) : is_b64 lo -> lo <= x -> lo <= b64 x.
Proof.
  intros Hlo Hx. pose proof (b64_nearest x lo Hlo) as N.
  apply Qnot_lt_le. intros C.
  qabs (x - b64 x); qabs (x - lo); lra.
Qed.

Lemma b64_exact (x : Q) : is_b64 x -> b64 x == x.
Proof.
  intros Hx. pose proof (b64_nearest x x Hx) as N.
  setoid_replace (x - x) with 0 in N by ring. 
  change (Qabs 0) with 0 in N.
  qabs (x - b64 x); lra.
Qed.

Lemma is_b64_Z (n : Z) : (Z.abs n < 2 ^ 53)%Z -> is_b64 (inject_Z n).
Proof.
  intros Hn. exists n, 0%Z. split; [exact Hn|]. split; [lia|].
  change (2 ^ 0) with 1. ring.
Qed.

Lemma b64_error (x B : Q) :
  Qabs x <= B -> 2 ^ (-1022) <= B -> Qabs (b64 x - x) <= 2 ^ (-53) * B.
Proof.
  intros Hx HB.
  destruct (Qeq_dec x 0) as [Z0|Hne].
  - rewrite (b64_zero x Z0). setoid_replace (0 - x) with 0 by lra.
    change (Qabs 0) with 0. pose proof (pow2_pos (-53)). pose proof (pow2_pos (-1022)). nra.
  - rewrite Qabs_Qminus. eapply Qle_trans; [apply (b64_half_ulp x Hne)|].
    change (1 # 2) with (2 ^ (-1)). rewrite <- pow2_add.
    unfold ulp_exp.
    destruct (Z.max_spec (ilog2 x - 52) (-1074)) as [[_ ->]|[_ ->]].
    + change (-1074 + -1)%Z with (-53 + -1022)%Z. rewrite pow2_add.
      apply Qmult_le_l; [apply pow2_pos | exact HB].
    + replace (ilog2 x - 52 + -1)%Z with (-53 + ilog2 x)%Z by lia.
      rewrite pow2_add. apply Qmult_le_l; [apply pow2_pos|].
      eapply Qle_trans; [apply (ilog2_le x Hne) | exact Hx].
Qed.

Lemma ilog2_unique (x : Q) (k : Z) :
  2 ^ k <= Qabs x -> Qabs x < 2 ^ (k + 1) -> ilog2 x = k.
Proof.
  intros L U.
  assert (Hx : ~ x == 0).
  { intros E. rewrite E in L. change (Qabs 0) with 0 in L.
    pose proof (pow2_pos k). lra. }
  pose proof (ilog2_le x Hx) as L'. pose proof (ilog2_lt x Hx) as U'.
  destruct (Z.lt_trichotomy (ilog2 x) k) as [C|[C|C]]; [|exact C|].
  - assert (2 ^ (ilog2 x + 1) <= 2 ^ k) by (apply pow2_le; lia). lra.
  - assert (2 ^ (k + 1) <= 2 ^ ilog2 x) by (apply pow2_le; lia). lra.
Qed.

Lemma ilog2_comp (x y : Q) : ~ x == 0 -> x == y -> ilog2 x = ilog2 y.
Proof.
  intros Hx E. symmetry. apply ilog2_unique; rewrite <- E.
  - now apply ilog2_le.
  - now apply ilog2_lt.
Qed.

Lemma round_half_even_comp (x y : Q) :
  x == y -> round_half_even x = round_half_even y.
Proof.
  intros E. unfold round_half_even.
  rewrite (Qfloor_comp x y E).
  assert (C : Qcompare (x - inject_Z (Qfloor y)) (1 # 2)
              = Qcompare (y - inject_Z (Qfloor y)) (1 # 2))
    by (apply Qcompare_comp; [now rewrite E | reflexivity]).
  now rewrite C.
Qed.

#[global] Instance b64_comp : Proper (Qeq ==> Qeq) b64.
Proof.
  intros x y E. destruct (Qeq_dec x 0) as [Hx|Hx].
  - rewrite (b64_zero x Hx), (b64_zero y) by (now rewrite <- E). reflexivity.
  - assert (Hy : ~ y == 0) by (now rewrite <- E).
    rewrite (b64_eq x Hx), (b64_eq y Hy). unfold ulp_exp.
    rewrite (ilog2_comp x y Hx E).
    rewrite (round_half_even_comp (x / 2 ^ Z.max (ilog2 y - 52) (-1074))
               (y / 2 ^ Z.max (ilog2 y - 52) (-1074))) by (now rewrite E).
    reflexivity.
Qed.

#[global] Instance is_b64_comp : Proper (Qeq ==> iff) is_b64.
Proof.
  intros x y E. unfold is_b64. split; intros (m & e & A & B & C); exists m, e;
    (split; [exact A|]); (split; [exact B|]); [now rewrite <- E | now rewrite E].
Qed.

(** The rounding returns a binary64 number. *)
Lemma b64_is_b64 (x : Q) : is_b64 (b64 x).
Proof.
  destruct (Qeq_dec x 0) as [Hx|Hx].
  - rewrite (b64_zero x Hx). apply (is_b64_Z 0). reflexivity.
  - rewrite (b64_eq x Hx).
    set (e := ulp_exp x). set (n := round_half_even (x / 2 ^ e)).
    pose proof (round_half_even_spec (x / 2 ^ e)) as R. fold n in R.
    pose proof (ilog2_lt x Hx) as U.
    pose proof (pow2_pos e) as Hq.
    assert (He : (ilog2 x + 1 <= 53 + e)%Z /\ (-1074 <= e)%Z)
      by (unfold e, ulp_exp; lia).
    assert (Hy : Qabs (x / 2 ^ e) < 2 ^ 53).
    { unfold Qdiv. rewrite Qabs_Qmult, Qabs_Qinv, (Qabs_pos (2 ^ e)) by lra.
      apply Qlt_shift_div_r; [exact Hq|].
      rewrite <- pow2_add. eapply Qlt_le_trans; [exact U|].
      apply pow2_le. lia. }
    assert (Hn : (Z.abs n <= 2 ^ 53)%Z).
    { assert (A : Qabs (inject_Z n) < inject_Z (2 ^ 53) + 1).
      { rewrite <- (pow2_Z 53) by lia.
        qabs (inject_Z n); qabs (x / 2 ^ e); qabs (x / 2 ^ e - inject_Z n); lra. }
      change (Qabs (inject_Z n)) with (inject_Z (Z.abs n)) in A.
      change (inject_Z (2 ^ 53) + 1) with (inject_Z (2 ^ 53) + inject_Z 1) in A.
      rewrite <- (inject_Z_plus (2 ^ 53) 1), <- Zlt_Qlt in A. lia. }
    destruct (Z.eq_dec (Z.abs n) (2 ^ 53)) as [Hmax|Hlt].
    + exists (n / 2)%Z, (e + 1)%Z. split; [|split; [lia|]].
      * destruct (Z.abs_spec n) as [[_ A]|[_ A]]; rewrite A in Hmax.
        -- rewrite Hmax. reflexivity.
        -- replace n with (- 2 ^ 53)%Z by lia. reflexivity.
      * rewrite pow2_add. change (2 ^ 1) with 2.
        assert (E2 : n = (2 * (n / 2))%Z).
        { destruct (Z.abs_spec n) as [[_ A]|[_ A]]; rewrite A in Hmax.
          - rewrite Hmax. reflexivity.
          - replace n with (- 2 ^ 53)%Z by lia. reflexivity. }
        rewrite E2 at 1. rewrite inject_Z_mult. change (inject_Z 2) with 2. ring.
    + exists n, e. split; [lia|]. split; [lia | reflexivity].
Qed.

(** Rounding is monotone. *)
Lemma b64_monotone (x y : Q) : x <= y -> b64 x <= b64 y.
Proof.
  intros H. apply Qnot_lt_le. intros C.
  pose proof (b64_nearest x (b64 y) (b64_is_b64 y)) as Nx.
  pose proof (b64_nearest y (b64 x) (b64_is_b64 x)) as Ny.
  assert (E : x == y).
  { qabs (x - b64 x); qabs (x - b64 y); qabs (y - b64 y); qabs (y - b64 x); lra. }
  rewrite E in C. lra.
Qed.

(** ** Rounding errors *)

Lemma b64_near (y' y e B : Q) :
  Qabs (y' - y) <= e -> Qabs y' <= B -> 1 <= B ->
  Qabs (b64 y' - y) <= e + B * eps.
Proof.
  intros He HB H1.
  assert (T : 2 ^ (-1022) <= B).
  { eapply Qle_trans; [apply (pow2_le (-1022) 0); lia | exact H1]. }
  pose proof (b64_error y' B HB T) as R.
  change (2 ^ (-53)) with eps in R.
  qabs (b64 y' - y); qabs (y' - y); qabs (b64 y' - y'); lra.
Qed.

Lemma b64_nonneg (x : Q) : 0 <= x -> 0 <= b64 x.
Proof. apply b64_ge. apply (is_b64_Z 0). reflexivity. Qed.

Lemma b64_le_Z (x : Q) (n : Z) :
  (Z.abs n < 2 ^ 53)%Z -> x <= inject_Z n -> b64 x <= inject_Z n.
Proof. intros Hn. apply b64_le. now apply is_b64_Z. Qed.

Lemma b64_idem (x : Q) : b64 (b64 x) == b64 x.
Proof. apply b64_exact, b64_is_b64. Qed.

Lemma abs_le (x B : Q) : 0 <= x -> x <= B -> Qabs x <= B.
Proof. intros. rewrite Qabs_pos; assumption. Qed.

Lemma near_mul_l (a' a k e K : Q) :
  Qabs (a' - a) <= e -> Qabs k <= K -> Qabs (a' * k - a * k) <= e * K.
Proof.
  intros Ha Hk.
  setoid_replace (a' * k - a * k) with ((a' - a) * k) by ring.
  rewrite Qabs_Qmult.
  apply Qmult_le_compat_nonneg; split;
    [apply Qabs_nonneg | exact Ha | apply Qabs_nonneg | exact Hk].
Qed.

Lemma near_mul (a' a b' b ea eb A B : Q) :
  Qabs (a' - a) <= ea -> Qabs (b' - b) <= eb ->
  Qabs a' <= A -> Qabs b <= B ->
  Qabs (a' * b' - a * b) <= A * eb + ea * B.
Proof.
  intros Ha Hb HA HB.
  setoid_replace (a' * b' - a * b) with (a' * (b' - b) + (a' - a) * b) by ring.
  eapply Qle_trans; [apply Qabs_triangle|].
  rewrite !Qabs_Qmult.
  apply Qplus_le_compat; apply Qmult_le_compat_nonneg; split;
    try apply Qabs_nonneg; assumption.
Qed.

(** A quotient of two approximated values, the exact ones with
    [0 <= p <= q] and [q] away from zero. *)
Lemma near_div (p' p q' q e qmin : Q) :
  Qabs (p' - p) <= e -> Qabs (q' - q) <= e ->
  0 <= p -> p <= q -> 0 < qmin -> qmin <= q -> 2 * e <= qmin ->
  Qabs (p' / q' - p / q) <= 4 * e / qmin.
Proof.
  intros Hp Hq P0 Pq Q0 Qm He.
  assert (E0 : 0 <= e) by (eapply Qle_trans; [apply Qabs_nonneg | exact Hp]).
  assert (Hq' : q * (1 # 2) <= q') by (qabs (q' - q); lra).
  assert (Hq0 : 0 < q) by lra.
  assert (Hq'0 : 0 < q') by lra.
  setoid_replace (p' / q' - p / q) with (((p' - p) * q - p * (q' - q)) / (q' * q))
    by (field; split; lra).
  assert (D : 0 < q' * q) by (apply Qmult_lt_0_compat; assumption).
  unfold Qdiv at 1. rewrite Qabs_Qmult, Qabs_Qinv, (Qabs_pos (q' * q)) by lra.
  apply Qle_shift_div_r; [exact D|].
  assert (N : Qabs ((p' - p) * q - p * (q' - q)) <= 2 * e * q).
  { eapply Qle_trans; [apply Qabs_triangle|].
    rewrite Qabs_opp, !Qabs_Qmult, (Qabs_pos q), (Qabs_pos p) by lra.
    assert (Qabs (p' - p) * q <= e * q)
      by (apply Qmult_le_compat_r; [exact Hp | lra]).
    assert (p * Qabs (q' - q) <= q * e).
    { apply Qmult_le_compat_nonneg; split; try assumption; apply Qabs_nonneg. }
    lra. }
  eapply Qle_trans; [exact N|].
  setoid_replace (4 * e / qmin * (q' * q)) with (4 * e * (q' * q) / qmin)
    by (field; lra).
  apply Qle_shift_div_l; [exact Q0|].
  (* 2 e q qmin <= 4 e (q' q), from qmin <= q <= 2 q' *)
  assert (M1 : q * qmin <= q * (2 * q'))
    by (rewrite !(Qmult_comm q); apply Qmult_le_compat_r; lra).
  assert (M2 : 2 * e * (q * qmin) <= 2 * e * (q * (2 * q'))).
  { rewrite !(Qmult_comm (2 * e)). apply Qmult_le_compat_r; [exact M1 | lra]. }
  setoid_replace (2 * e * q * qmin) with (2 * e * (q * qmin)) by ring.
  setoid_replace (4 * e * (q' * q)) with (2 * e * (q * (2 * q'))) by ring.
  exact M2.
Qed.

(** A float within [1/N] of the rational [M/N] is truncated to the floor of
    [M/N], or to one less where [M/N] is an integer. *)
Lemma floor_gap (w v : Q) (M N : Z) :
  (0 < N)%Z -> v * inject_Z N == inject_Z M ->
  Qabs (w - v) * inject_Z N < 1 ->
  (Qceiling v - 1 <= Qfloor w <= Qfloor v)%Z.
Proof.
  intros HN Hv Hw.
  assert (N0 : 0 < inject_Z N) by (change 0 with (inject_Z 0); now rewrite <- Zlt_Qlt).
  pose proof (Qfloor_le w) as L. pose proof (Qlt_floor w) as U.
  rewrite inject_Z_plus in U. change (inject_Z 1) with 1 in U.
  set (s := Qfloor w) in *.
  assert (A1 : Qabs (w - v) * inject_Z N == Qabs (w * inject_Z N - inject_Z M)).
  { rewrite <- Hv.
    setoid_replace (w * inject_Z N - v * inject_Z N) with ((w - v) * inject_Z N) by ring.
    rewrite Qabs_Qmult, (Qabs_pos (inject_Z N)) by lra. reflexivity. }
  rewrite A1 in Hw.
  assert (L' : inject_Z s * inject_Z N <= w * inject_Z N)
    by (apply Qmult_le_compat_r; lra).
  assert (U' : w * inject_Z N < (inject_Z s + 1) * inject_Z N)
    by (apply Qmult_lt_compat_r; lra).
  split.
  - (* M - 1 < (s + 1) N, so M <= (s + 1) N and v <= s + 1 *)
    assert (B : inject_Z M < inject_Z ((s + 1) * N) + inject_Z 1).
    { rewrite inject_Z_mult, inject_Z_plus. change (inject_Z 1) with 1.
      qabs (w * inject_Z N - inject_Z M); lra. }
    assert (B' : (M <= (s + 1) * N)%Z).
    { rewrite <- inject_Z_plus, <- Zlt_Qlt in B. lia. }
    assert (V : v <= inject_Z (s + 1)).
    { apply Qmult_le_r with (inject_Z N); [exact N0|].
      rewrite Hv, <- inject_Z_mult, <- Zle_Qle. exact B'. }
    apply Qceiling_resp_le in V. rewrite Qceiling_Z in V. lia.
  - assert (B : inject_Z (s * N) < inject_Z M + 1).
    { rewrite inject_Z_mult. qabs (w * inject_Z N - inject_Z M); lra. }
    assert (B' : (s * N <= M)%Z).
    { change 1 with (inject_Z 1) in B. rewrite <- inject_Z_plus, <- Zlt_Qlt in B. lia. }
    assert (V : inject_Z s <= v).
    { apply Qmult_le_r with (inject_Z N); [exact N0|].
      rewrite Hv, <- inject_Z_mult, <- Zle_Qle. exact B'. }
    apply Qfloor_resp_le in V. rewrite Qfloor_Z in V. exact V.
Qed.

(** ** Rows and columns in binary64 *)

Lemma Zabs_Q (n : Z) (B : Q) : 0 <= inject_Z n -> inject_Z n <= B -> Qabs (inject_Z n) <= B.
Proof. intros. now apply abs_le. Qed.





(** ** The compositor in binary64 *)

Lemma b64_unit (x : Q) : 0 <= x <= 1 -> 0 <= b64 x <= 1.
Proof.
  intros [H0 H1]. split; [now apply b64_nonneg|].
  apply (b64_le_Z x 1); [reflexivity | exact H1].
Qed.

Lemma byte_unit (z : Z) : byte z -> 0 <= inject_Z z / 255 <= 1.
Proof.
  intros Hz. apply byte_Q in Hz. split.
  - apply Qle_shift_div_l; [reflexivity|]. lra.
  - apply Qle_shift_div_r; [reflexivity|]. lra.
Qed.

(** The weights of the compositor in binary64, against the exact ones.
    [al] is the float [alpha] for a color of alpha [ae] at full coverage. *)
Lemma over_chain (al : Q) (ae x : Z) :
  byte ae -> byte x -> al == b64 (inject_Z ae / 255) ->
  let nA := inject_Z ae / 255 in
  let cA := nA + (1 - nA) * inject_Z x / 255 in
  let be := b64 (1 - al) in
  let ao := b64 (al + b64 (b64 (be * inject_Z x) / 255)) in
  let ab0 := b64 (be * b64 (inject_Z x / 255)) in
  0 <= al /\ 0 <= be /\ 0 <= ao /\ 0 <= ab0 /\
  Qabs (al - nA) <= eps /\
  Qabs (ao - cA) <= 8 * eps /\
  Qabs (ab0 - (1 - nA) * (inject_Z x / 255)) <= 4 * eps.
Proof.
  intros Ha Hx Hal nA cA be ao ab0. fold nA in Hal.
  pose proof (byte_unit ae Ha) as UA. fold nA in UA.
  pose proof (byte_unit x Hx) as UX.
  pose proof (byte_Q x Hx) as BX.
  assert (E1 : Qabs (al - nA) <= eps).
  { rewrite Hal.
    pose proof (b64_near nA nA 0 1) as N.
    setoid_replace (nA - nA) with 0 in N by ring.
    change (Qabs 0) with 0 in N.
    assert (Qabs nA <= 1) by (apply abs_le; lra).
    specialize (N ltac:(lra) ltac:(assumption) ltac:(lra)). lra. }
  assert (U1 : 0 <= al <= 1) by (rewrite Hal; now apply b64_unit).
  assert (U2 : 0 <= be <= 1) by (apply b64_unit; lra).
  assert (E2 : Qabs (be - (1 - nA)) <= 2 * eps).
  { pose proof (b64_near (1 - al) (1 - nA) eps 1) as N.
    assert (Qabs (1 - al - (1 - nA)) <= eps)
      by (qabs (1 - al - (1 - nA)); qabs (al - nA); lra).
    assert (Qabs (1 - al) <= 1) by (apply abs_le; lra).
    specialize (N ltac:(assumption) ltac:(assumption) ltac:(lra)).
    fold be in N. lra. }
  (* t = (1 - alpha) * rgba[3] *)
  set (t := b64 (be * inject_Z x)) in *.
  assert (P3 : 0 <= be * inject_Z x <= 255).
  { split; [apply Qmult_le_0_compat; lra|].
    setoid_replace 255 with (1 * 255) by ring.
    apply Qmult_le_compat_nonneg; split; lra. }
  assert (U3 : 0 <= t <= 255).
  { split; [apply b64_nonneg; lra|].
    apply (b64_le_Z _ 255); [reflexivity | change (inject_Z 255) with 255; lra]. }
  assert (E3 : Qabs (t - (1 - nA) * inject_Z x) <= 766 * eps).
  { pose proof (near_mul_l be (1 - nA) (inject_Z x) (2 * eps) 255 E2
                  ltac:(apply abs_le; lra)) as M.
    pose proof (b64_near (be * inject_Z x) ((1 - nA) * inject_Z x)
                  (2 * eps * 255) 256 M ltac:(apply abs_le; lra) ltac:(lra)) as N.
    fold t in N. unfold eps in *. lra. }
  set (t2 := b64 (t / 255)) in *.
  assert (P4 : 0 <= t / 255 <= 1).
  { split; [apply Qle_shift_div_l | apply Qle_shift_div_r]; try reflexivity; lra. }
  assert (U4 : 0 <= t2 <= 1) by now apply b64_unit.
  assert (E4 : Qabs (t2 - (1 - nA) * inject_Z x / 255) <= 5 * eps).
  { assert (M : Qabs (t / 255 - (1 - nA) * inject_Z x / 255) <= 766 * eps * (1 # 255)).
    { setoid_replace (t / 255 - (1 - nA) * inject_Z x / 255)
        with ((t - (1 - nA) * inject_Z x) * (1 # 255)) by field.
      rewrite Qabs_Qmult. change (Qabs (1 # 255)) with (1 # 255).
      apply Qmult_le_compat_r; [exact E3 | discriminate]. }
    pose proof (b64_near (t / 255) ((1 - nA) * inject_Z x / 255) _ 1 M
                  ltac:(apply abs_le; lra) ltac:(lra)) as N.
    fold t2 in N. unfold eps in *. lra. }
  assert (U5 : 0 <= ao) by (apply b64_nonneg; lra).
  assert (E5 : Qabs (ao - cA) <= 8 * eps).
  { assert (M : Qabs (al + t2 - cA) <= 6 * eps).
    { unfold cA.
      qabs (al + t2 - (nA + (1 - nA) * inject_Z x / 255));
        qabs (al - nA); qabs (t2 - (1 - nA) * inject_Z x / 255); lra. }
    pose proof (b64_near (al + t2) cA _ 2 M ltac:(apply abs_le; lra) ltac:(lra)) as N.
    fold ao in N. lra. }
  set (xf := b64 (inject_Z x / 255)) in *.
  assert (U6 : 0 <= xf <= 1) by now apply b64_unit.
  assert (E6 : Qabs (xf - inject_Z x / 255) <= eps).
  { pose proof (b64_near (inject_Z x / 255) (inject_Z x / 255) 0 1) as N.
    setoid_replace (inject_Z x / 255 - inject_Z x / 255) with 0 in N by ring.
    change (Qabs 0) with 0 in N.
    specialize (N ltac:(lra) ltac:(apply abs_le; lra) ltac:(lra)).
    fold xf in N. lra. }
  assert (P7 : 0 <= be * xf <= 1).
  { split; [apply Qmult_le_0_compat; lra|].
    setoid_replace 1 with (1 * 1) by ring.
    apply Qmult_le_compat_nonneg; split; lra. }
  assert (U7 : 0 <= ab0) by (apply b64_nonneg; lra).
  assert (E7 : Qabs (ab0 - (1 - nA) * (inject_Z x / 255)) <= 4 * eps).
  { pose proof (near_mul be (1 - nA) xf (inject_Z x / 255) (2 * eps) eps 1 1
                  E2 E6 ltac:(apply abs_le; lra) ltac:(apply abs_le; lra)) as M.
    pose proof (b64_near (be * xf) ((1 - nA) * (inject_Z x / 255)) _ 1 M
                  ltac:(apply abs_le; lra) ltac:(lra)) as N.
    fold ab0 in N. lra. }
  repeat split; try assumption; lra.
Qed.

Lemma near_div_255 (p' p q' q e : Q) :
  Qabs (p' - p) <= e -> Qabs (q' - q) <= e ->
  0 <= p -> p <= q -> (1 # 255) <= q -> 2 * e <= (1 # 255) ->
  Qabs (p' / q' - p / q) <= 1020 * e.
Proof.
  intros Hp Hq P0 Pq Qm He.
  pose proof (near_div p' p q' q e (1 # 255) Hp Hq P0 Pq eq_refl Qm He) as N.
  setoid_replace (4 * e / (1 # 255)) with (1020 * e) in N by field.
  exact N.
Qed.

(** [combinedA] is a multiple of 1/65025, so at least 1/255 when positive. *)
Lemma combined_alpha (ae x : Z) :
  byte ae -> byte x ->
  let nA := inject_Z ae / 255 in
  let cA := nA + (1 - nA) * inject_Z x / 255 in
  let D := (255 * ae + (255 - ae) * x)%Z in
  cA * 65025 == inject_Z D /\ (0 <= D <= 65025)%Z /\
  (0 < cA -> (255 <= D)%Z /\ (1 # 255) <= cA) /\
  (cA <= 0 -> ae = 0%Z /\ x = 0%Z).
Proof.
  intros Ha Hx nA cA D.
  assert (E : cA * 65025 == inject_Z D).
  { unfold cA, nA, D. unfold Z.sub.
    rewrite !inject_Z_plus, !inject_Z_mult, inject_Z_plus, inject_Z_opp.
    change (inject_Z 255) with 255. field. }
  unfold byte in *.
  split; [exact E|]. split; [unfold D; nia|]. split.
  - intros Hc.
    assert (H0 : (0 < D)%Z).
    { rewrite Zlt_Qlt, <- E. change (inject_Z 0) with 0. lra. }
    assert (H1 : (255 <= D)%Z) by (unfold D in *; nia).
    split; [exact H1|].
    rewrite Zle_Qle, <- E in H1. change (inject_Z 255) with 255 in H1. lra.
  - intros Hc.
    assert (H0 : (D <= 0)%Z).
    { rewrite Zle_Qle, <- E. change (inject_Z 0) with 0. lra. }
    unfold D in H0. nia.
Qed.

Lemma over_weights (al : Q) (ae x : Z) :
  byte ae -> byte x -> al == b64 (inject_Z ae / 255) ->
  let nA := inject_Z ae / 255 in
  let cA := nA + (1 - nA) * inject_Z x / 255 in
  let be := b64 (1 - al) in
  let ao := b64 (al + b64 (b64 (be * inject_Z x) / 255)) in
  let ab0 := b64 (be * b64 (inject_Z x / 255)) in
  0 < cA ->
  0 < ao /\ 0 <= b64 (al / ao) /\ 0 <= b64 (ab0 / ao) /\
  Qabs (b64 (al / ao) - nA / cA) <= 8162 * eps /\
  Qabs (b64 (ab0 / ao) - (1 - nA) * (inject_Z x / 255) / cA) <= 8162 * eps /\
  0 <= b64 (ao * 255) /\ b64 (ao * 255) < 256 /\
  Qabs (b64 (ao * 255) - cA * 255) <= 2296 * eps.
Proof.
  intros Ha Hx Hal nA cA be ao ab0 Hc.
  destruct (over_chain al ae x Ha Hx Hal) as (U1 & U2 & U5 & U7 & E1 & E5 & E7).
  fold nA cA be ao ab0 in U1, U2, U5, U7, E1, E5, E7.
  destruct (combined_alpha ae x Ha Hx) as (_ & _ & Hpos & _).
  fold nA cA in Hpos. destruct (Hpos Hc) as [_ Hmin].
  pose proof (byte_unit ae Ha) as UA. fold nA in UA.
  pose proof (byte_unit x Hx) as UX.
  set (pb := (1 - nA) * (inject_Z x / 255)) in *.
  assert (Pb : 0 <= pb) by (apply Qmult_le_0_compat; lra).
  assert (Ec : cA == nA + pb) by (unfold cA, pb; field).
  assert (S : eps == 1 # 9007199254740992) by reflexivity.
  assert (Hao : 0 < ao) by (qabs (ao - cA); lra).
  assert (Q1 : 0 <= nA / cA <= 1).
  { split; [apply Qle_shift_div_l | apply Qle_shift_div_r]; lra. }
  assert (Q2 : 0 <= pb / cA <= 1).
  { split; [apply Qle_shift_div_l | apply Qle_shift_div_r]; lra. }
  assert (D1 : Qabs (al / ao - nA / cA) <= 1020 * (8 * eps)).
  { apply near_div_255; try lra. }
  assert (D2 : Qabs (ab0 / ao - pb / cA) <= 1020 * (8 * eps)).
  { apply near_div_255; try lra. }
  assert (N1 : 0 <= al / ao) by (apply Qle_shift_div_l; lra).
  assert (N2 : 0 <= ab0 / ao) by (apply Qle_shift_div_l; lra).
  split; [exact Hao|].
  split; [now apply b64_nonneg|]. split; [now apply b64_nonneg|].
  split; [|split].
  - pose proof (b64_near (al / ao) (nA / cA) _ 2 D1) as N.
    assert (Qabs (al / ao) <= 2) by (apply abs_le; [exact N1|]; qabs (al / ao - nA / cA); lra).
    specialize (N ltac:(assumption) ltac:(lra)). lra.
  - pose proof (b64_near (ab0 / ao) (pb / cA) _ 2 D2) as N.
    assert (Qabs (ab0 / ao) <= 2) by (apply abs_le; [exact N2|]; qabs (ab0 / ao - pb / cA); lra).
    specialize (N ltac:(assumption) ltac:(lra)). lra.
  - assert (Pb1 : pb <= 1 - nA).
    { unfold pb. rewrite <- (Qmult_1_r (1 - nA)) at 2.
      rewrite !(Qmult_comm (1 - nA)). apply Qmult_le_compat_r; lra. }
    assert (C1 : cA <= 1) by lra.
    assert (P : 0 <= ao * 255 <= 256) by (qabs (ao - cA); lra).
    pose proof (near_mul_l ao cA 255 (8 * eps) 255 E5 ltac:(apply abs_le; lra)) as M.
    pose proof (b64_near (ao * 255) (cA * 255) _ 256 M
                  ltac:(apply abs_le; lra) ltac:(lra)) as N.
    split; [apply b64_nonneg; lra|].
    split; [qabs (b64 (ao * 255) - cA * 255); lra | lra].
Qed.

(** One colour channel: the float that is stored, against the exact blend. *)
Lemma channel_near (at' ab' at_ ab : Q) (c p : Z) :
  0 <= at' -> 0 <= ab' -> 0 <= at_ -> 0 <= ab -> at_ + ab == 1 ->
  Qabs (at' - at_) <= 8162 * eps -> Qabs (ab' - ab) <= 8162 * eps ->
  byte c -> byte p ->
  let w := b64 (b64 (at' * inject_Z c) + b64 (ab' * inject_Z p)) in
  let v := at_ * inject_Z c + ab * inject_Z p in
  0 <= w /\ w < 256 /\ Qabs (w - v) <= 4200000 * eps.
Proof.
  intros T0 B0 T1 B1 Hs Et Eb Hc Hp w v.
  apply byte_Q in Hc, Hp. destruct Hc as [C0 C1], Hp as [P0 P1].
  assert (S : eps == 1 # 9007199254740992) by reflexivity.
  assert (T2 : at' <= 2) by (qabs (at' - at_); lra).
  assert (B2 : ab' <= 2) by (qabs (ab' - ab); lra).
  assert (X1 : 0 <= at' * inject_Z c <= 510).
  { split; [apply Qmult_le_0_compat; lra|].
    setoid_replace 510 with (2 * 255) by ring.
    apply Qmult_le_compat_nonneg; split; lra. }
  assert (X2 : 0 <= ab' * inject_Z p <= 510).
  { split; [apply Qmult_le_0_compat; lra|].
    setoid_replace 510 with (2 * 255) by ring.
    apply Qmult_le_compat_nonneg; split; lra. }
  pose proof (near_mul_l at' at_ (inject_Z c) _ 255 Et ltac:(apply abs_le; lra)) as M1.
  pose proof (near_mul_l ab' ab (inject_Z p) _ 255 Eb ltac:(apply abs_le; lra)) as M2.
  pose proof (b64_near _ _ _ 512 M1 ltac:(apply abs_le; lra) ltac:(lra)) as N1.
  pose proof (b64_near _ _ _ 512 M2 ltac:(apply abs_le; lra) ltac:(lra)) as N2.
  set (s1 := b64 (at' * inject_Z c)) in *. set (s2 := b64 (ab' * inject_Z p)) in *.
  assert (S1 : 0 <= s1 <= 510).
  { split; [apply b64_nonneg; lra|].
    apply (b64_le_Z _ 510); [reflexivity | change (inject_Z 510) with 510; lra]. }
  assert (S2 : 0 <= s2 <= 510).
  { split; [apply b64_nonneg; lra|].
    apply (b64_le_Z _ 510); [reflexivity | change (inject_Z 510) with 510; lra]. }
  assert (M : Qabs (s1 + s2 - v) <= 2 * (8162 * eps * 255 + 512 * eps)).
  { unfold v. qabs (s1 + s2 - (at_ * inject_Z c + ab * inject_Z p));
      qabs (s1 - at_ * inject_Z c); qabs (s2 - ab * inject_Z p); lra. }
  pose proof (b64_near (s1 + s2) v _ 1024 M ltac:(apply abs_le; lra) ltac:(lra)) as N.
  fold w in N.
  assert (V : v <= 255).
  { unfold v.
    assert (at_ * inject_Z c <= at_ * 255)
      by (rewrite !(Qmult_comm at_); apply Qmult_le_compat_r; lra).
    assert (ab * inject_Z p <= ab * 255)
      by (rewrite !(Qmult_comm ab); apply Qmult_le_compat_r; lra).
    lra. }
  split; [apply b64_nonneg; lra|].
  split; [qabs (w - v); lra | lra].
Qed.

(** Channel by channel, [lo <= x <= hi]. *)
Definition channels_between (lo x hi : rgba_t) : Prop :=
  (chR lo <= chR x <= chR hi)%Z /\ (chG lo <= chG x <= chG hi)%Z /\
  (chB lo <= chB x <= chB hi)%Z /\ (chA lo <= chA x <= chA hi)%Z.

Lemma blend_b64_over (color px : rgba_t) (m : Q) :
  color_ok color -> color_ok px -> m == 0 \/ m == 1 ->
  channels_between
    (porter_duff_over (fun v => (Qceiling v - 1)%Z) color m px)
    (blend_b64 color m px)
    (porter_duff_over Qfloor color m px).
Proof.
  intros (CR & CG & CB & CA) (PR & PG & PB & PA) Hm.
  destruct color as [cR cG cB a], px as [pR pG pB x]. cbn [chR chG chB chA] in *.
  set (ae := if Qeq_bool m 0 then 0%Z else a).
  assert (Hae : byte ae) by (unfold ae; destruct (Qeq_bool m 0); [unfold byte; lia | exact CA]).
  assert (HnA : m * inject_Z a / 255 == inject_Z ae / 255).
  { unfold ae. destruct Hm as [E|E]; rewrite E.
    - change (Qeq_bool 0 0) with true. cbv iota. change (inject_Z 0) with 0. field.
    - change (Qeq_bool 1 0) with false. cbv iota. field. }
  assert (Hal : b64 (b64 (inject_Z a / 255) * m) == b64 (inject_Z ae / 255)).
  { unfold ae. destruct Hm as [E|E]; rewrite E.
    - change (Qeq_bool 0 0) with true. cbv iota.
      rewrite Qmult_0_r. reflexivity.
    - change (Qeq_bool 1 0) with false. cbv iota.
      rewrite Qmult_1_r. apply b64_idem. }
  unfold channels_between, blend_b64, porter_duff_over.
  cbv beta zeta. cbn [chR chG chB chA].
  set (al := b64 (b64 (inject_Z a / 255) * m)) in *.
  set (be := b64 (1 - al)).
  set (ao := b64 (al + b64 (b64 (be * inject_Z x) / 255))).
  set (ab0 := b64 (be * b64 (inject_Z x / 255))).
  set (nA' := m * inject_Z a / 255) in *.
  set (cA' := nA' + (1 - nA') * inject_Z x / 255).
  set (nA := inject_Z ae / 255) in *.
  set (cA := nA + (1 - nA) * inject_Z x / 255).
  assert (HcA : cA' == cA) by (unfold cA', cA; rewrite HnA; reflexivity).
  rewrite (Qltb_comp 0 0 cA' cA (Qeq_refl 0) HcA).
  destruct (combined_alpha ae x Hae PA) as (ED & HD & Hpos & Hzero).
  fold nA cA in ED, Hpos, Hzero.
  set (D := (255 * ae + (255 - ae) * x)%Z) in *.
  destruct (Qltb 0 cA) eqn:G.
  - apply Qltb_lt in G. destruct (Hpos G) as [D255 Hmin].
    destruct (over_weights al ae x Hae PA Hal G)
      as (Hao & T0 & B0 & Et & Eb & A0 & A1 & Ea).
    fold nA cA be ao ab0 in Hao, T0, B0, Et, Eb, A0, A1, Ea.
    assert (Gao : Qltb 0 ao = true) by now apply Qltb_lt.
    rewrite Gao. cbn [chR chG chB chA].
    pose proof (byte_unit ae Hae) as UA. fold nA in UA.
    pose proof (byte_unit x PA) as UX.
    set (pb := (1 - nA) * (inject_Z x / 255)) in *.
    assert (Pb : 0 <= pb) by (apply Qmult_le_0_compat; lra).
    assert (Ec : cA == nA + pb) by (unfold cA, pb; field).
    assert (NC : ~ cA == 0) by lra.
    assert (Q1 : 0 <= nA / cA) by (apply Qle_shift_div_l; lra).
    assert (Q2 : 0 <= pb / cA) by (apply Qle_shift_div_l; lra).
    assert (Qs : nA / cA + pb / cA == 1).
    { transitivity ((nA + pb) / cA); [field; exact NC|].
      rewrite <- Ec. field. exact NC. }
    assert (S : eps == 1 # 9007199254740992) by reflexivity.
    assert (DQ : 0 < inject_Z D <= 65025).
    { split; [change 0 with (inject_Z 0); rewrite <- Zlt_Qlt; lia|].
      change 65025 with (inject_Z 65025). rewrite <- Zle_Qle. lia. }
    assert (CH : forall c p : Z, byte c -> byte p ->
      (Qceiling (nA' / cA' * inject_Z c
                 + (1 - nA') * (inject_Z x / 255) / cA' * inject_Z p) - 1
       <= to_uint8 (b64 (b64 (b64 (al / ao) * inject_Z c)
                         + b64 (b64 (ab0 / ao) * inject_Z p)))
       <= Qfloor (nA' / cA' * inject_Z c
                  + (1 - nA') * (inject_Z x / 255) / cA' * inject_Z p))%Z).
    { intros c p Hc Hp.
      assert (Ev : nA' / cA' * inject_Z c
                   + (1 - nA') * (inject_Z x / 255) / cA' * inject_Z p
                   == nA / cA * inject_Z c + pb / cA * inject_Z p)
        by (unfold pb; rewrite HcA, HnA; reflexivity).
      rewrite (Qceiling_comp _ _ Ev), (Qfloor_comp _ _ Ev).
      destruct (channel_near _ _ _ _ c p T0 B0 Q1 Q2 Qs Et Eb Hc Hp) as (W0 & W1 & Ew).
      rewrite to_uint8_floor by assumption.
      apply (floor_gap _ _ (255 * ae * c + (255 - ae) * x * p) D); [lia | |].
      - rewrite <- ED.
        transitivity ((nA * inject_Z c + pb * inject_Z p) * 65025);
          [field; exact NC|].
        unfold pb, nA. unfold Z.sub.
        rewrite !inject_Z_plus, !inject_Z_mult, inject_Z_plus, inject_Z_opp.
        change (inject_Z 255) with 255. field.
      - apply Qle_lt_trans with (4200000 * eps * 65025); [|rewrite S; reflexivity].
        apply Qmult_le_compat_nonneg; split; try lra. apply Qabs_nonneg. }
    split; [now apply CH|]. split; [now apply CH|]. split; [now apply CH|].
    assert (Ev : cA' * 255 == cA * 255) by (now rewrite HcA).
    rewrite (Qceiling_comp _ _ Ev), (Qfloor_comp _ _ Ev).
    rewrite to_uint8_floor by assumption.
    apply (floor_gap _ _ D 255); [lia | |].
    + rewrite <- ED. change (inject_Z 255) with 255. ring.
    + apply Qle_lt_trans with (2296 * eps * 255); [|rewrite S; reflexivity].
      change (inject_Z 255) with 255.
      apply Qmult_le_compat_r; [exact Ea | discriminate].
  - apply Qltb_ge in G. destruct (Hzero G) as [A0 X0].
    cbn [chR chG chB chA].
    assert (Zal : al == 0).
    { rewrite Hal. unfold nA. rewrite A0. reflexivity. }
    assert (Zao : ao == 0).
    { unfold ao. rewrite X0.
      rewrite (b64_zero (be * inject_Z 0)) by (change (inject_Z 0) with 0; ring).
      rewrite (b64_zero (0 / 255)) by reflexivity.
      rewrite (b64_zero (al + 0)) by (rewrite Zal; reflexivity). reflexivity. }
    assert (Zab : ab0 == 0).
    { unfold ab0. rewrite X0.
      rewrite (b64_zero (inject_Z 0 / 255)) by reflexivity.
      rewrite (b64_zero (be * 0)) by ring. reflexivity. }
    assert (Gao : Qltb 0 ao = false) by (apply Qltb_ge; lra).
    rewrite Gao.
    assert (CH : forall c p : Z,
      to_uint8 (b64 (b64 (0 * inject_Z c) + b64 (ab0 * inject_Z p))) = 0%Z).
    { intros c p. apply to_uint8_Z; [unfold byte; lia|].
      rewrite Zab, !Qmult_0_l. reflexivity. }
    rewrite !CH.
    assert (CA0 : to_uint8 (b64 (ao * 255)) = 0%Z).
    { apply to_uint8_Z; [unfold byte; lia|]. rewrite Zao, Qmult_0_l. reflexivity. }
    rewrite CA0. lia.
Qed.

Lemma at2_transfer_rgba_b64 (st : Canvas) (color : rgba_t) (r c : nat) :
  wf st -> (r < height st)%nat -> (c < width st)%nat ->
  at2 rgba0 (rgba (transfer_canvas_to_rgba_b64 st color)) r c
  = blend_b64 color (at2 0 (canvas st) r c) (at2 rgba0 (rgba st) r c).
Proof.
  intros (_ & _ & [Hl Hw]) Hr Hc. simpl.
  apply (at2_imap2 (fun r c px => blend_b64 color (at2 0 (canvas st) r c) px)
           (rgba st) r c rgba0 rgba0);
    [now rewrite Hl | now rewrite Hw].
Qed.

Lemma at2_transfer_canvas_b64 (st : Canvas) (color : rgba_t) (r c : nat) :
  wf st -> (r < height st)%nat -> (c < width st)%nat ->
  at2 0 (canvas (transfer_canvas_to_rgba_b64 st color)) r c = 0.
Proof.
  intros (_ & [Hl Hw] & _) Hr Hc. simpl.
  rewrite (at2_imap2 _ _ r c 0 0); [reflexivity | now rewrite Hl | now rewrite Hw].
Qed.

(** C1 (amended): on a mask of zeros and ones, [transfer_canvas_to_rgba]
    in binary64 stores in every channel the exact Porter-Duff "over" value
    of the specification ([newA], [combinedA], [topWeight], [bottomWeight])
    cut to an integer: the floor of the exact value, or one less where the
    exact value is an integer that the float misses from below.  Where
    [combinedA = 0] the pixel is (0,0,0,0), and the mask is zero afterwards. *)
Theorem transfer_over_truncated (st : Canvas) (color : rgba_t) (r c : nat) :
  wf st -> mask_binary st -> rgba_bytes st -> color_ok color ->
  (r < height st)%nat -> (c < width st)%nat ->
  let st' := transfer_canvas_to_rgba_b64 st color in
  let mask := at2 0 (canvas st) r c in
  let existing := at2 rgba0 (rgba st) r c in
  channels_between
    (porter_duff_over (fun v => (Qceiling v - 1)%Z) color mask existing)
    (at2 rgba0 (rgba st') r c)
    (porter_duff_over Qfloor color mask existing)
  /\ at2 0 (canvas st') r c = 0.
Proof.
  intros Hwf Hm Hb Hcol Hr Hc. split.
  - rewrite at2_transfer_rgba_b64 by assumption.
    apply blend_b64_over; [exact Hcol | now apply Hb | now apply Hm].
  - now apply at2_transfer_canvas_b64.
Qed.

(** C1 (amended) at the second pixel of a 1 x 2 canvas covered by a disk. *)
Lemma transfer_over_truncated_witness :
  let st := disk_simple (H := ref_numpy) (Canvas_init (H := ref_numpy) 1)
              0 90 20 white false in
  at2 0 (canvas st) 0 1 = 1 /\
  channels_between
    (porter_duff_over (fun v => (Qceiling v - 1)%Z) half_red
       (at2 0 (canvas st) 0 1) (at2 rgba0 (rgba st) 0 1))
    (at2 rgba0 (rgba (transfer_canvas_to_rgba_b64 st half_red)) 0 1)
    (porter_duff_over Qfloor half_red
       (at2 0 (canvas st) 0 1) (at2 rgba0 (rgba st) 0 1)) /\
  at2 0 (canvas (transfer_canvas_to_rgba_b64 st half_red)) 0 1 = 0.
Proof.
  intros st. split; [vm_compute; reflexivity|].
  pose proof (inv_init (np := ref_numpy) 1) as Hi.
  pose proof (inv_select_all _ (disk_test (latlon2vec (H := ref_numpy) 0 90)
    (np_cos (NumPy := ref_numpy) (0.5 * 20 * np_pi / 180))) Hi) as (Hwf & Hmb & Hok).
  apply (transfer_over_truncated st half_red 0 1).
  - exact Hwf.
  - exact Hmb.
  - apply rgba_ok_bytes. exact Hok.
  - now apply color_ok_literal.
  - vm_compute. lia.
  - vm_compute. lia.
Defined.

(** Against C1 as stated: a half-opaque red over a half-opaque black pixel.
    [combinedA * 255] is 48896/255, about 191.75; the stored alpha is 191 and
    the rounded one is 192.  And a color of alpha 17 over a pixel of alpha 30:
    [combinedA * 255] is 45 and the stored alpha is 44. *)
Lemma transfer_alpha_not_rounded :
  let st1 := disk_simple (H := ref_numpy) (Canvas_init (H := ref_numpy) 1)
               0 90 20 half_black true in
  let st2 := disk_simple (H := ref_numpy) st1 0 90 20 half_red false in
  at2 0 (canvas st2) 0 1 = 1 /\
  at2 rgba0 (rgba st2) 0 1 = half_black /\
  at2 rgba0 (rgba (transfer_canvas_to_rgba_b64 st2 half_red)) 0 1 = RGBA 170 0 0 191 /\
  porter_duff_over round_nearest half_red 1 half_black = RGBA 170 0 0 192 /\
  blend_b64 (RGBA 0 0 0 17) 1 (RGBA 0 0 0 30) = RGBA 0 0 0 44 /\
  porter_duff_over round_nearest (RGBA 0 0 0 17) 1 (RGBA 0 0 0 30) = RGBA 0 0 0 45.
Proof. vm_compute. repeat split; reflexivity. Qed.

(** The stored alpha in binary64 when the color adds nothing ([al == 0]) and
    when the pixel is opaque: the exact cases of the compositor, for every
    byte. *)
Definition alpha_stored (al : Q) (x : Z) : Z :=
  to_uint8 (b64 (b64 (al + b64 (b64 (b64 (1 - al) * inject_Z x) / 255)) * 255)).

Definition bytes : list Z := map Z.of_nat (seq 0 256).

Lemma in_bytes (z : Z) : byte z -> In z bytes.
Proof.
  intros [H0 H1]. unfold bytes. apply in_map_iff. exists (Z.to_nat z).
  split; [lia|]. apply in_seq. lia.
Qed.

Lemma alpha_stored_exact (z : Z) :
  byte z ->
  alpha_stored 0 z = z /\ alpha_stored (b64 (inject_Z z / 255)) 255 = 255%Z.
Proof.
  intros Hz.
  assert (A : forallb (fun z => Z.eqb (alpha_stored 0 z) z
                       && Z.eqb (alpha_stored (b64 (inject_Z z / 255)) 255) 255)
                bytes = true) by (vm_compute; reflexivity).
  rewrite forallb_forall in A. specialize (A z (in_bytes z Hz)).
  apply andb_true_iff in A. destruct A as [A B].
  now rewrite Z.eqb_eq in A, B.
Qed.

Lemma alpha_stored_comp (al al' : Q) (x : Z) :
  al == al' -> 0 <= al' <= 1 -> byte x -> alpha_stored al x = alpha_stored al' x.
Proof.
  intros E U Hx. unfold alpha_stored.
  pose proof (byte_Q x Hx) as BX.
  assert (P : 0 <= b64 (1 - al') * inject_Z x <= 255).
  { pose proof (b64_unit (1 - al') ltac:(lra)) as V.
    split; [apply Qmult_le_0_compat; lra|].
    setoid_replace 255 with (1 * 255) by ring.
    apply Qmult_le_compat_nonneg; split; lra. }
  assert (T : 0 <= b64 (b64 (1 - al') * inject_Z x) <= 255).
  { split; [apply b64_nonneg; lra|].
    apply (b64_le_Z _ 255); [reflexivity | change (inject_Z 255) with 255; lra]. }
  assert (T2 : 0 <= b64 (b64 (b64 (1 - al') * inject_Z x) / 255) <= 1).
  { apply b64_unit. split; [apply Qle_shift_div_l | apply Qle_shift_div_r];
      try reflexivity; lra. }
  assert (AO : 0 <= b64 (al' + b64 (b64 (b64 (1 - al') * inject_Z x) / 255)) <= 2).
  { split; [apply b64_nonneg; lra|].
    apply (b64_le_Z _ 2); [reflexivity | change (inject_Z 2) with 2; lra]. }
  assert (W : 0 <= b64 (b64 (al' + b64 (b64 (b64 (1 - al') * inject_Z x) / 255)) * 255)
              <= 510).
  { split; [apply b64_nonneg; lra|].
    apply (b64_le_Z _ 510); [reflexivity | change (inject_Z 510) with 510; lra]. }
  unfold to_uint8. rewrite !py_int_floor; [| lra | rewrite E; lra].
  f_equal. apply Qfloor_comp. now rewrite E.
Qed.

Lemma blend_b64_alpha_grows (color px : rgba_t) (m : Q) :
  color_ok color -> color_ok px -> m == 0 \/ m == 1 ->
  (chA px <= chA (blend_b64 color m px))%Z.
Proof.
  intros Hcol Hpx Hm.
  pose proof (blend_b64_over color px m Hcol Hpx Hm) as (_ & _ & _ & [L _]).
  destruct Hcol as (_ & _ & _ & CA), Hpx as (_ & _ & _ & PA).
  destruct color as [cR cG cB a], px as [pR pG pB x]. cbn [chA] in *.
  set (ae := if Qeq_bool m 0 then 0%Z else a).
  assert (Hae : byte ae) by (unfold ae; destruct (Qeq_bool m 0); [unfold byte; lia | exact CA]).
  assert (HnA : m * inject_Z a / 255 == inject_Z ae / 255).
  { unfold ae. destruct Hm as [E|E]; rewrite E.
    - change (Qeq_bool 0 0) with true. cbv iota. change (inject_Z 0) with 0. field.
    - change (Qeq_bool 1 0) with false. cbv iota. field. }
  assert (Hal : b64 (b64 (inject_Z a / 255) * m) == b64 (inject_Z ae / 255)).
  { unfold ae. destruct Hm as [E|E]; rewrite E.
    - change (Qeq_bool 0 0) with true. cbv iota.
      rewrite Qmult_0_r. reflexivity.
    - change (Qeq_bool 1 0) with false. cbv iota.
      rewrite Qmult_1_r. apply b64_idem. }
  change (chA (blend_b64 (RGBA cR cG cB a) m (RGBA pR pG pB x)))
    with (alpha_stored (b64 (b64 (inject_Z a / 255) * m)) x) in *.
  pose proof (b64_unit _ (byte_unit ae Hae)) as U.
  rewrite (alpha_stored_comp _ _ x Hal U PA) in *.
  destruct (Z.eq_dec ae 0) as [A0|A0].
  - rewrite A0.
    rewrite (alpha_stored_comp (b64 (inject_Z 0 / 255)) 0 x) by
      (try reflexivity; try exact PA; lra).
    rewrite (proj1 (alpha_stored_exact x PA)). lia.
  - destruct (Z.eq_dec x 255) as [X1|X1].
    + rewrite X1, (proj2 (alpha_stored_exact ae Hae)). lia.
    + unfold porter_duff_over in L. cbv beta zeta in L. cbn [chA] in L.
      set (nA' := m * inject_Z a / 255) in *.
      set (cA' := nA' + (1 - nA') * inject_Z x / 255) in *.
      destruct (combined_alpha ae x Hae PA) as (ED & HD & _ & _).
      set (nA := inject_Z ae / 255) in *.
      set (cA := nA + (1 - nA) * inject_Z x / 255) in *.
      assert (HcA : cA' == cA) by (unfold cA', cA; rewrite HnA; reflexivity).
      set (D := (255 * ae + (255 - ae) * x)%Z) in *.
      assert (DX : (255 * x < D)%Z) by (unfold D, byte in *; nia).
      assert (V : inject_Z x < cA' * 255).
      { rewrite HcA.
        assert (E2 : cA * 255 * 255 == inject_Z D) by (rewrite <- ED; ring).
        rewrite Zlt_Qlt, inject_Z_mult, <- E2 in DX.
        change (inject_Z 255) with 255 in DX. lra. }
      assert (G : Qltb 0 cA' = true).
      { apply Qltb_lt. pose proof (byte_Q x PA). lra. }
      rewrite G in L. cbn [chA] in L.
      assert (C : (x + 1 <= Qceiling (cA' * 255))%Z).
      { pose proof (Qle_ceiling (cA' * 255)) as Q.
        assert (Q' : inject_Z x < inject_Z (Qceiling (cA' * 255))) by lra.
        rewrite <- Zlt_Qlt in Q'. lia. }
      lia.
Qed.

(** X8: on a mask of zeros and ones, a flush in binary64 never lowers the
    alpha of a pixel. *)
Theorem transfer_alpha_never_decreases (st : Canvas) (color : rgba_t) (r c : nat) :
  wf st -> mask_binary st -> rgba_bytes st -> color_ok color ->
  (r < height st)%nat -> (c < width st)%nat ->
  (chA (at2 rgba0 (rgba st) r c)
   <= chA (at2 rgba0 (rgba (transfer_canvas_to_rgba_b64 st color)) r c))%Z.
Proof.
  intros Hwf Hm Hb Hcol Hr Hc.
  rewrite at2_transfer_rgba_b64 by assumption.
  apply blend_b64_alpha_grows; [exact Hcol | now apply Hb | now apply Hm].
Qed.

(** X8 for a half-opaque red over a half-opaque black pixel. *)
Lemma transfer_alpha_never_decreases_witness :
  let st := disk_simple (H := ref_numpy) (Canvas_init (H := ref_numpy) 1)
              0 90 20 half_black true in
  let st2 := disk_simple (H := ref_numpy) st 0 90 20 half_red false in
  at2 0 (canvas st2) 0 1 = 1 /\ chA (at2 rgba0 (rgba st2) 0 1) = 128%Z /\
  (chA (at2 rgba0 (rgba st2) 0 1)
   <= chA (at2 rgba0 (rgba (transfer_canvas_to_rgba_b64 st2 half_red)) 0 1))%Z.
Proof.
  intros st st2. split; [vm_compute; reflexivity|].
  split; [vm_compute; reflexivity|].
  assert (R : reachable (H := ref_numpy) st2).
  { apply (reach_call (H := ref_numpy) (DiskSimple 0 90 20 half_red false)).
    - apply (reach_call (H := ref_numpy) (DiskSimple 0 90 20 half_black true)).
      + apply reach_init.
      + now apply color_ok_literal.
    - now apply color_ok_literal. }
  destruct (reachable_invariant (np := ref_numpy) st2 R) as (Hwf & Hmb & Hok).
  apply (transfer_alpha_never_decreases st2 half_red 0 1).
  - exact Hwf.
  - exact Hmb.
  - apply rgba_ok_bytes. exact Hok.
  - now apply color_ok_literal.
  - vm_compute. lia.
  - vm_compute. lia.
Defined.

(** * The projections in real arithmetic

    [latlon2vec] and [vec2latlon] over the real numbers: the operations are
    exact, [np.cos], [np.sin], [np.sqrt] and [np.arctan2] are the functions
    of the real numbers, and [np.pi] is the binary64 constant of the code. *)

From Stdlib Require Import Reals Lra Machin Qreals.

Section RealArithmetic.
Local Open Scope R_scope.

(** [np.pi] as a real number. *)
Definition np_pi_R : R := Q2R np_pi.

(** [np.arctan2(y, x)] on finite arguments: the angle of the point [(x, y)],
    in [(-pi, pi]]. *)
Definition np_arctan2_R (y x : R) : R :=
  if Rlt_dec 0 x then atan (y / x)
  else if Rlt_dec x 0 then
    if Rle_dec 0 y then atan (y / x) + PI else atan (y / x) - PI
  else if Rlt_dec 0 y then PI / 2
  else if Rlt_dec y 0 then - (PI / 2)
  else 0.

Definition latlon2vec_R (lat lon : R) : R * R * R :=
  let cos_lon := cos (lon * np_pi_R / 180) in
  let sin_lon := sin (lon * np_pi_R / 180) in
  let cos_lat := cos (lat * np_pi_R / 180) in
  let sin_lat := sin (lat * np_pi_R / 180) in
  (cos_lat * cos_lon, cos_lat * sin_lon, sin_lat).

Definition vec2latlon_R (v : R * R * R) : R * R :=
  let '(x, y, z) := v in
  let xy_radius := sqrt (x * x + y * y) in
  let lat := np_arctan2_R z xy_radius * 180 / np_pi_R in
  let lon := np_arctan2_R y x * 180 / np_pi_R in
  (lat, lon).

Lemma np_pi_R_value : np_pi_R = 884279719003555 / 281474976710656.
Proof. unfold np_pi_R, np_pi, Q2R. simpl. reflexivity. Qed.

(** [np.pi] is below pi: by sixteen terms of the series of
    [pi/4 = 2 atan(1/3) + atan(1/7)]. *)
Lemma np_pi_R_lt_PI : 0 < np_pi_R < PI.
Proof.
  rewrite np_pi_R_value. split; [Lra.lra|].
  pose proof (PI_2_3_7_ineq 7) as [L _].
  unfold sum_f_R0, tg_alt, PI_2_3_7_tg, Ratan_seq in L.
  simpl in L. Lra.lra.
Qed.

(** The angle of a point given by its polar coordinates. *)
Lemma np_arctan2_polar (rho a : R) :
  0 < rho -> - PI < a < PI ->
  np_arctan2_R (rho * sin a) (rho * cos a) = a.
Proof.
  intros Hr [Lo Hi]. pose proof PI_RGT_0 as Hpi.
  assert (Q : forall b, cos b <> 0 -> rho * sin b / (rho * cos b) = tan b)
    by (intros b Hb; unfold tan; field; split; Lra.lra).
  unfold np_arctan2_R.
  destruct (Rtotal_order a (- (PI / 2))) as [C|[C|C]].
  - (* third quadrant *)
    assert (Hc : cos a < 0).
    { rewrite <- cos_neg. apply cos_lt_0; Lra.lra. }
    assert (Hs : sin a < 0) by (apply sin_lt_0_var; Lra.lra).
    assert (X : rho * cos a < 0) by Lra.nra.
    assert (Y : rho * sin a < 0) by Lra.nra.
    destruct (Rlt_dec 0 (rho * cos a)) as [F|_]; [Lra.lra|].
    destruct (Rlt_dec (rho * cos a) 0) as [_|F]; [|Lra.lra].
    destruct (Rle_dec 0 (rho * sin a)) as [F|_]; [Lra.lra|].
    rewrite Q by Lra.lra.
    assert (T : tan a = tan (a + PI)).
    { unfold tan. rewrite neg_sin, neg_cos. field. Lra.lra. }
    rewrite T, atan_tan by Lra.lra. Lra.lra.
  - (* a = -pi/2 *)
    subst a. rewrite cos_neg, sin_neg, cos_PI2, sin_PI2.
    replace (rho * 0) with 0 by ring.
    destruct (Rlt_dec 0 0) as [F|_]; [Lra.lra|].
    destruct (Rlt_dec 0 (rho * - (1))) as [F|_]; [Lra.lra|].
    destruct (Rlt_dec (rho * - (1)) 0) as [_|F]; [reflexivity | Lra.lra].
  - destruct (Rtotal_order a (PI / 2)) as [D|[D|D]].
    + (* right half plane *)
      assert (Hc : 0 < cos a) by (apply cos_gt_0; Lra.lra).
      assert (X : 0 < rho * cos a) by Lra.nra.
      destruct (Rlt_dec 0 (rho * cos a)) as [_|F]; [|Lra.lra].
      rewrite Q by Lra.lra. apply atan_tan. Lra.lra.
    + subst a. rewrite cos_PI2, sin_PI2.
      replace (rho * 0) with 0 by ring.
      destruct (Rlt_dec 0 0) as [F|_]; [Lra.lra|].
      destruct (Rlt_dec 0 (rho * 1)) as [_|F]; [reflexivity | Lra.lra].
    + (* second quadrant *)
      assert (Hc : cos a < 0) by (apply cos_lt_0; Lra.lra).
      assert (Hs : 0 < sin a) by (apply sin_gt_0; Lra.lra).
      assert (X : rho * cos a < 0) by Lra.nra.
      assert (Y : 0 < rho * sin a) by Lra.nra.
      destruct (Rlt_dec 0 (rho * cos a)) as [F|_]; [Lra.lra|].
      destruct (Rlt_dec (rho * cos a) 0) as [_|F]; [|Lra.lra].
      destruct (Rle_dec 0 (rho * sin a)) as [_|F]; [|Lra.lra].
      rewrite Q by Lra.lra.
      assert (T : tan a = tan (a - PI)).
      { unfold tan.
        replace (sin a) with (- sin (a - PI)) by (rewrite <- neg_sin; f_equal; ring).
        replace (cos a) with (- cos (a - PI)) by (rewrite <- neg_cos; f_equal; ring).
        field. intros E. rewrite <- (Ropp_involutive (cos (a - PI))), <- neg_cos in E.
        replace (a - PI + PI) with a in E by ring. Lra.lra. }
      rewrite T, atan_tan by Lra.lra. Lra.lra.
Qed.

(** The angles of a latitude and of a longitude of the canvas, in radians
    through [np.pi], stay inside (-pi/2, pi/2) and (-pi, pi). *)
Lemma degrees_to_angles (lat lon : R) :
  -90 <= lat <= 90 -> -180 <= lon <= 180 ->
  - (PI / 2) < lat * np_pi_R / 180 < PI / 2 /\
  - PI < lon * np_pi_R / 180 < PI.
Proof.
  intros Hlat Hlon. pose proof np_pi_R_lt_PI as [P0 P1].
  repeat split; Lra.nra.
Qed.

(** The two angles of a direction are read back from its coordinates. *)
Lemma angles_round_trip (a b : R) :
  - (PI / 2) < a < PI / 2 -> - PI < b < PI ->
  np_arctan2_R (sin a)
    (sqrt (cos a * cos b * (cos a * cos b) + cos a * sin b * (cos a * sin b)))
  = a /\
  np_arctan2_R (cos a * sin b) (cos a * cos b) = b.
Proof.
  intros Ha Hb.
  assert (Hc : 0 < cos a) by (apply cos_gt_0; Lra.lra).
  assert (E : cos a * cos b * (cos a * cos b) + cos a * sin b * (cos a * sin b)
              = cos a * cos a).
  { pose proof (sin2_cos2 b) as S. unfold Rsqr in S. Lra.nra. }
  rewrite E, sqrt_square by Lra.lra.
  pose proof (np_arctan2_polar 1 a ltac:(Lra.lra) ltac:(Lra.lra)) as A1.
  rewrite !Rmult_1_l in A1.
  split; [exact A1 | exact (np_arctan2_polar (cos a) b Hc Hb)].
Qed.

(** C8 (amended): in real arithmetic [vec2latlon (latlon2vec lat lon)] is
    [(lat, lon)] for every latitude in [-90, 90] and every longitude in
    [-180, 180]: on the domain of the claim, and also at the poles and at
    180, because [np.pi] is below pi and the angles [lat * np.pi / 180] and
    [lon * np.pi / 180] stay inside (-pi/2, pi/2) and (-pi, pi). *)
Theorem vec2latlon_latlon2vec (lat lon : R) :
  -90 <= lat <= 90 -> -180 <= lon <= 180 ->
  vec2latlon_R (latlon2vec_R lat lon) = (lat, lon).
Proof.
  intros Hlat Hlon.
  pose proof np_pi_R_lt_PI as [P0 P1].
  destruct (degrees_to_angles lat lon Hlat Hlon) as [Ha Hb].
  destruct (angles_round_trip _ _ Ha Hb) as [A1 A2].
  unfold vec2latlon_R, latlon2vec_R.
  rewrite A1, A2. f_equal; field; Lra.lra.
Qed.

(** C8 at latitude 45 on the anti-meridian. *)
Lemma vec2latlon_latlon2vec_witness :
  vec2latlon_R (latlon2vec_R 45 (-180)) = (45, -180).
Proof.
  apply vec2latlon_latlon2vec; split; Lra.lra.
Defined.

(** The round trip at given degrees. *)
Ltac read_back lat lon :=
  let Ha := fresh "Ha" in
  let Hb := fresh "Hb" in
  let A1 := fresh "A" in
  let A2 := fresh "A" in
  destruct (degrees_to_angles lat lon) as [Ha Hb]; [split; Lra.lra ..|];
  destruct (angles_round_trip _ _ Ha Hb) as [A1 A2];
  unfold vec2latlon_R, latlon2vec_R;
  rewrite A1, A2;
  pose proof np_pi_R_lt_PI;
  f_equal; field; Lra.lra.

(** Against C8 as stated: the poles are no exception.  At latitude 90 the
    angle is [np.pi / 2], below pi/2, its cosine is positive and the
    longitude is read back: 45 at the north pole, -120 at the south pole. *)
Lemma poles_recover_longitude :
  vec2latlon_R (latlon2vec_R 90 45) = (90, 45) /\
  vec2latlon_R (latlon2vec_R (-90) (-120)) = (-90, -120).
Proof.
  split; [read_back 90 45 | read_back (-90) (-120)].
Qed.

(** X19: in real arithmetic [latlon2vec] returns a unit vector, for every
    latitude and longitude. *)
Theorem latlon2vec_unit (lat lon : R) :
  let '(x, y, z) := latlon2vec_R lat lon in
  x * x + y * y + z * z = 1.
Proof.
  unfold latlon2vec_R.
  pose proof (sin2_cos2 (lon * np_pi_R / 180)) as S1.
  pose proof (sin2_cos2 (lat * np_pi_R / 180)) as S2.
  unfold Rsqr in S1, S2. Lra.nra.
Qed.

End RealArithmetic.
